(** * rusty-iter: a pull-based lazy sequence engine

    Shallow embedding of [include/rusty-iter.hpp] and verification of its
    pull protocol, leaf producers, adaptors and comparison consumers.

    Conventions of the embedding.
    - A C++ iterator object is a record of its data members; [next_internal]
      takes the record and returns the step result together with the updated
      record (explicit state passing).  Copies are by value, as in the source.
    - [next()] returns a pointer that is null on exhaustion; the model returns
      [option]: [None] is the null pointer, [Some v] the pointee.  The members
      [_tmpResult] / [_tmpSeparator], which only give the returned pointer
      something to point to, are therefore not part of the state.
    - A call may run forever (a [while] over an infinite upstream), so every
      call lives in a fuel-indexed partiality monad [Fuel].
    - Callables passed by the user are total: plain functions, or functor
      values whose [operator()] updates their own members.  State a lambda
      captures by reference lies outside the model, so copying an iterator
      (as [cycle] does) copies all of its state.
    - Arithmetic template parameters [T] are instantiated with [Z]; only the
      conversions to [char] in the comparison consumers are narrowing. *)

From Stdlib Require Import ZArith List Lia Bool Arith.
Import ListNotations.

#[local] Open Scope Z_scope.

(* ================================================================== *)
(** * Part I: definitions                                              *)
(* ================================================================== *)

(** ** Possibly diverging computations *)

(** A computation is given an amount of fuel and either runs out of it
    ([None]) or returns a value. *)
Definition Fuel (X : Type) : Type := nat -> option X.

Definition ret {X : Type} (x : X) : Fuel X := fun _ => Some x.

Definition bind {X Y : Type} (m : Fuel X) (k : X -> Fuel Y) : Fuel Y :=
  fun fuel => match m fuel with
              | Some x => k x fuel
              | None => None
              end.

Notation "x <- m ;; k" := (bind m (fun x => k))
  (at level 61, m at next level, right associativity).
Notation "' pat <- m ;; k" := (bind m (fun x => match x with pat => k end))
  (at level 61, pat pattern, m at next level, right associativity).

(** [while (true) { body }]: the body either continues with a new loop state
    ([inl]) or leaves the loop with a result ([inr]).  Each iteration costs
    one unit of fuel. *)
Fixpoint loop {St R : Type} (body : St -> Fuel (St + R)) (s : St) (fuel : nat)
  : option R :=
  match fuel with
  | O => None
  | S fuel' =>
      match body s fuel' with
      | None => None
      | Some (inl s') => loop body s' fuel'
      | Some (inr r) => Some r
      end
  end.

(** [m ~~> x]: the computation terminates with [x]. *)
Definition returns {X : Type} (m : Fuel X) (x : X) : Prop :=
  exists fuel, m fuel = Some x.

Notation "m ~~> x" := (returns m x) (at level 70, no associativity).

(** More fuel never changes a result. *)
Class Mono {X : Type} (m : Fuel X) : Prop :=
  mono : forall fuel fuel' x, m fuel = Some x -> (fuel <= fuel')%nat -> m fuel' = Some x.

(** ** The pull protocol ([IterBase::next]) *)

(** [IterBase<ConcreteIterType, OutType>]: a sequence is a state type with
    one primitive, [next].  [inv] is the representation invariant the
    constructors establish. *)
Class Iterator (IterType OutType : Type) : Type := {
  next : IterType -> Fuel (option OutType * IterType);
  inv : IterType -> Prop
}.

(** Callables.  A functor object is a value with an [operator()] that may
    update its own members. *)
Class Generator (G R : Type) : Type := generate : G -> R * G.
Class Predicate (P A : Type) : Type := test : P -> A -> bool * P.
Class Callback (C A : Type) : Type := observe : C -> A -> C.

(** A plain function used as predicate has no state. *)
#[global] Instance fun_Predicate (A : Type) : Predicate (A -> bool) A :=
  fun p a => (p a, p).

(** ** Helpers of [namespace detail] *)

Module Counter.
Record t : Type := mk { _currentCount : Z; _maxCount : Z }.
Definition new (count : Z) : t := mk 0 count.
(** [return _currentCount++ < _maxCount;] *)
Definition call (c : t) : bool * t :=
  (_currentCount c <? _maxCount c, mk (_currentCount c + 1) (_maxCount c)).
End Counter.

#[global] Instance Counter_Predicate (A : Type) : Predicate Counter.t A :=
  fun c _ => Counter.call c.

Module Getter.
Record t (T : Type) : Type := mk { _value : T }.
Arguments mk {T}.
Arguments _value {T}.
Definition call {T : Type} (g : t T) : T * t T := (_value g, g).
End Getter.

#[global] Instance Getter_Generator (T : Type) : Generator (Getter.t T) T :=
  Getter.call.

Module InfiniteRangeGenerator.
Record t : Type := mk { _value : Z; _step : Z }.
Definition call (g : t) : Z * t :=
  let currentValue := _value g in
  (currentValue, mk (_value g + _step g) (_step g)).
End InfiniteRangeGenerator.

#[global] Instance InfiniteRangeGenerator_Generator
  : Generator InfiniteRangeGenerator.t Z := InfiniteRangeGenerator.call.

Module FiniteRangeGenerator.
Record t (Inclusive : bool) : Type := mk { _value : Z; _end : Z; _step : Z }.
Arguments _value {Inclusive}.
Arguments _end {Inclusive}.
Arguments _step {Inclusive}.
Definition call {Inclusive : bool} (g : t Inclusive) : option Z * t Inclusive :=
  let hasValue := if Inclusive then _value g <=? _end g else _value g <? _end g in
  if hasValue
  then (Some (_value g), mk Inclusive (_value g + _step g) (_end g) (_step g))
  else (None, g).
End FiniteRangeGenerator.

#[global] Instance FiniteRangeGenerator_Generator (Inclusive : bool)
  : Generator (FiniteRangeGenerator.t Inclusive) (option Z) :=
  FiniteRangeGenerator.call.

Module YieldOnce.
Record t (T : Type) : Type := mk { _value : T; _done : bool }.
Arguments mk {T}.
Arguments _value {T}.
Arguments _done {T}.
Definition new {T : Type} (value : T) : t T := mk value false.
Definition call {T : Type} (g : t T) : option T * t T :=
  if _done g then (None, g) else (Some (_value g), mk (_value g) true).
End YieldOnce.

#[global] Instance YieldOnce_Generator (T : Type)
  : Generator (YieldOnce.t T) (option T) := YieldOnce.call.

Module YieldOnceWith.
Record t (T : Type) : Type := mk { _valueCalculatorFunction : unit -> T; _done : bool }.
Arguments mk {T}.
Arguments _valueCalculatorFunction {T}.
Arguments _done {T}.
Definition new {T : Type} (f : unit -> T) : t T := mk f false.
Definition call {T : Type} (g : t T) : option T * t T :=
  if _done g then (None, g)
  else (Some (_valueCalculatorFunction g tt), mk (_valueCalculatorFunction g) true).
End YieldOnceWith.

#[global] Instance YieldOnceWith_Generator (T : Type)
  : Generator (YieldOnceWith.t T) (option T) := YieldOnceWith.call.

Module YieldValue.
Record t (T : Type) : Type := mk { _value : T }.
Arguments mk {T}.
Arguments _value {T}.
Definition call {T : Type} (g : t T) : T * t T := (_value g, g).
End YieldValue.

#[global] Instance YieldValue_Generator (T : Type) : Generator (YieldValue.t T) T :=
  YieldValue.call.

Module SuccessorCalculator.
Record t (T : Type) : Type :=
  mk { _value : option T; _successorCalculatorFunction : T -> option T }.
Arguments mk {T}.
Arguments _value {T}.
Arguments _successorCalculatorFunction {T}.
Definition call {T : Type} (g : t T) : option T * t T :=
  match _value g with
  | None => (None, g)
  | Some prev =>
      (Some prev,
       mk (_successorCalculatorFunction g prev) (_successorCalculatorFunction g))
  end.
End SuccessorCalculator.

#[global] Instance SuccessorCalculator_Generator (T : Type)
  : Generator (SuccessorCalculator.t T) (option T) := SuccessorCalculator.call.

(** ** Leaf producers *)

(** [CppIteratorWrapper]: a pair of C++ iterators.  The state is the range
    [[_begin, _end)] they delimit; [_begin == _end] is the empty range and
    [++_begin] drops its head. *)
Module CppIteratorWrapper.
Record t (A : Type) : Type := mk { _range : list A }.
Arguments mk {A}.
Arguments _range {A}.
Definition next_internal {A : Type} (it : t A) : Fuel (option A * t A) :=
  match _range it with
  | [] => ret (None, it)
  | current :: rest => ret (Some current, mk rest)
  end.
End CppIteratorWrapper.

#[global] Instance CppIteratorWrapper_Iterator (A : Type)
  : Iterator (CppIteratorWrapper.t A) A :=
  {| next := CppIteratorWrapper.next_internal; inv := fun _ => True |}.

Module GeneratorIter.
Record t (G : Type) : Type := mk { _generatorFunction : G }.
Arguments mk {G}.
Arguments _generatorFunction {G}.
Definition next_internal {G A : Type} `{Generator G A} (it : t G)
  : Fuel (option A * t G) :=
  let '(tmpResult, g) := generate (_generatorFunction it) in
  ret (Some tmpResult, mk g).
End GeneratorIter.

#[global] Instance GeneratorIter_Iterator (G A : Type) `{Generator G A}
  : Iterator (GeneratorIter.t G) A :=
  {| next := GeneratorIter.next_internal; inv := fun _ => True |}.

Module FiniteGeneratorIter.
Record t (G : Type) : Type := mk { _generatorFunction : G; _done : bool }.
Arguments mk {G}.
Arguments _generatorFunction {G}.
Arguments _done {G}.
Definition new {G : Type} (generatorFunction : G) : t G := mk generatorFunction false.
Definition next_internal {G A : Type} `{Generator G (option A)} (it : t G)
  : Fuel (option A * t G) :=
  if _done it then ret (None, it)
  else
    let '(value, g) := generate (_generatorFunction it) in
    match value with
    | Some v => ret (Some v, mk g false)
    | None => ret (None, mk g true)
    end.
End FiniteGeneratorIter.

#[global] Instance FiniteGeneratorIter_Iterator (G A : Type) `{Generator G (option A)}
  : Iterator (FiniteGeneratorIter.t G) A :=
  {| next := FiniteGeneratorIter.next_internal; inv := fun _ => True |}.

Module EmptyIter.
Record t (T : Type) : Type := mk { }.
Arguments mk {T}.
Definition next_internal {T : Type} (it : t T) : Fuel (option T * t T) :=
  ret (None, it).
End EmptyIter.

#[global] Instance EmptyIter_Iterator (T : Type) : Iterator (EmptyIter.t T) T :=
  {| next := EmptyIter.next_internal; inv := fun _ => True |}.

(** ** Adaptors *)

Module StepByIter.
Record t (IterType : Type) : Type :=
  mk { _iter : IterType; _stepSize : Z; _first : bool; _invalid : bool }.
Arguments mk {IterType}.
Arguments _iter {IterType}.
Arguments _stepSize {IterType}.
Arguments _first {IterType}.
Arguments _invalid {IterType}.

Definition new {IterType : Type} (iter : IterType) (stepSize : Z) : t IterType :=
  mk iter stepSize true (stepSize <=? 0).

(** [for (T i = 0; i < _stepSize; ++i) { last = _iter.next(); }] with
    [count] iterations left. *)
Fixpoint stride {IterType A : Type} `{Iterator IterType A}
  (count : nat) (last : option A) (iter : IterType) : Fuel (option A * IterType) :=
  match count with
  | O => ret (last, iter)
  | S count' => '(last', iter') <- next iter ;; stride count' last' iter'
  end.

Definition next_internal {IterType A : Type} `{Iterator IterType A} (it : t IterType)
  : Fuel (option A * t IterType) :=
  if _invalid it then ret (None, it)
  else if _first it then
    '(value, iter) <- next (_iter it) ;;
    ret (value, mk iter (_stepSize it) false (_invalid it))
  else
    '(last, iter) <- stride (Z.to_nat (_stepSize it)) None (_iter it) ;;
    ret (last, mk iter (_stepSize it) false (_invalid it)).
End StepByIter.

#[global] Instance StepByIter_Iterator (IterType A : Type) `{Iterator IterType A}
  : Iterator (StepByIter.t IterType) A :=
  {| next := StepByIter.next_internal;
     inv := fun it => inv (StepByIter._iter it) |}.

Module ChainIter.
Record t (IterType ChainedIterType : Type) : Type :=
  mk { _iter : IterType; _chainedIter : ChainedIterType; _firstDone : bool }.
Arguments mk {IterType ChainedIterType}.
Arguments _iter {IterType ChainedIterType}.
Arguments _chainedIter {IterType ChainedIterType}.
Arguments _firstDone {IterType ChainedIterType}.

Definition new {IterType ChainedIterType : Type}
  (iter : IterType) (chainedIter : ChainedIterType) : t IterType ChainedIterType :=
  mk iter chainedIter false.

Definition next_internal {IterType ChainedIterType A : Type}
  `{Iterator IterType A} `{Iterator ChainedIterType A}
  (it : t IterType ChainedIterType)
  : Fuel (option A * t IterType ChainedIterType) :=
  if negb (_firstDone it) then
    '(value, iter) <- next (_iter it) ;;
    match value with
    | Some v => ret (Some v, mk iter (_chainedIter it) false)
    | None =>
        '(r, chained) <- next (_chainedIter it) ;;
        ret (r, mk iter chained true)
    end
  else
    '(r, chained) <- next (_chainedIter it) ;;
    ret (r, mk (_iter it) chained true).
End ChainIter.

#[global] Instance ChainIter_Iterator (IterType ChainedIterType A : Type)
  `{Iterator IterType A} `{Iterator ChainedIterType A}
  : Iterator (ChainIter.t IterType ChainedIterType) A :=
  {| next := ChainIter.next_internal;
     inv := fun it => inv (ChainIter._iter it) /\ inv (ChainIter._chainedIter it) |}.

Module ZipIter.
Record t (IterType ZippedIterType : Type) : Type :=
  mk { _iter : IterType; _zippedIter : ZippedIterType; _anyDone : bool }.
Arguments mk {IterType ZippedIterType}.
Arguments _iter {IterType ZippedIterType}.
Arguments _zippedIter {IterType ZippedIterType}.
Arguments _anyDone {IterType ZippedIterType}.

Definition new {IterType ZippedIterType : Type}
  (iter : IterType) (zippedIter : ZippedIterType) : t IterType ZippedIterType :=
  mk iter zippedIter false.

Definition next_internal {IterType ZippedIterType A B : Type}
  `{Iterator IterType A} `{Iterator ZippedIterType B}
  (it : t IterType ZippedIterType)
  : Fuel (option (A * B) * t IterType ZippedIterType) :=
  if _anyDone it then ret (None, it)
  else
    '(value, iter) <- next (_iter it) ;;
    '(zippedValue, zipped) <- next (_zippedIter it) ;;
    (* if (value == nullptr || zippedValue == nullptr) *)
    match value with
    | None => ret (None, mk iter zipped true)
    | Some v =>
        match zippedValue with
        | None => ret (None, mk iter zipped true)
        | Some z => ret (Some (v, z), mk iter zipped (_anyDone it))
        end
    end.
End ZipIter.

#[global] Instance ZipIter_Iterator (IterType ZippedIterType A B : Type)
  `{Iterator IterType A} `{Iterator ZippedIterType B}
  : Iterator (ZipIter.t IterType ZippedIterType) (A * B) :=
  {| next := ZipIter.next_internal;
     inv := fun it => inv (ZipIter._iter it) /\ inv (ZipIter._zippedIter it) |}.

Module IntersperseWithIter.
Record t (IterType SeparatorGetter A : Type) : Type :=
  mk { _iter : IterType; _separatorGetter : SeparatorGetter;
       _nextResult : option A; _separatorIsNext : bool }.
Arguments mk {IterType SeparatorGetter A}.
Arguments _iter {IterType SeparatorGetter A}.
Arguments _separatorGetter {IterType SeparatorGetter A}.
Arguments _nextResult {IterType SeparatorGetter A}.
Arguments _separatorIsNext {IterType SeparatorGetter A}.

(** The constructor pulls the first upstream item into [_nextResult]. *)
Definition new {IterType SeparatorGetter A : Type} `{Iterator IterType A}
  (iter : IterType) (separatorGetter : SeparatorGetter)
  : Fuel (t IterType SeparatorGetter A) :=
  '(nxt, iter') <- next iter ;;
  ret (mk iter' separatorGetter nxt false).

Definition next_internal {IterType SeparatorGetter A : Type}
  `{Iterator IterType A} `{Generator SeparatorGetter A}
  (it : t IterType SeparatorGetter A)
  : Fuel (option A * t IterType SeparatorGetter A) :=
  if _separatorIsNext it then
    let '(tmpSeparator, getter) := generate (_separatorGetter it) in
    ret (Some tmpSeparator, mk (_iter it) getter (_nextResult it) false)
  else
    match _nextResult it with
    | Some tmpResult =>
        '(nxt, iter) <- next (_iter it) ;;
        match nxt with
        | Some n =>
            ret (Some tmpResult, mk iter (_separatorGetter it) (Some n) true)
        | None =>
            ret (Some tmpResult,
                 mk iter (_separatorGetter it) None (_separatorIsNext it))
        end
    | None => ret (None, it)
    end.
End IntersperseWithIter.

#[global] Instance IntersperseWithIter_Iterator (IterType SeparatorGetter A : Type)
  `{Iterator IterType A} `{Generator SeparatorGetter A}
  : Iterator (IntersperseWithIter.t IterType SeparatorGetter A) A :=
  {| next := IntersperseWithIter.next_internal;
     inv := fun it => inv (IntersperseWithIter._iter it) |}.

Module MapIter.
Record t (IterType A B : Type) : Type :=
  mk { _iter : IterType; _mapFunction : A -> B }.
Arguments mk {IterType A B}.
Arguments _iter {IterType A B}.
Arguments _mapFunction {IterType A B}.

Definition new {IterType A B : Type} (iter : IterType) (mapFunction : A -> B)
  : t IterType A B := mk iter mapFunction.

Definition next_internal {IterType A B : Type} `{Iterator IterType A}
  (it : t IterType A B) : Fuel (option B * t IterType A B) :=
  '(current, iter) <- next (_iter it) ;;
  match current with
  | Some c => ret (Some (_mapFunction it c), mk iter (_mapFunction it))
  | None => ret (None, mk iter (_mapFunction it))
  end.
End MapIter.

#[global] Instance MapIter_Iterator (IterType A B : Type) `{Iterator IterType A}
  : Iterator (MapIter.t IterType A B) B :=
  {| next := MapIter.next_internal; inv := fun it => inv (MapIter._iter it) |}.

Module FilterIter.
Record t (IterType FilterFunction : Type) : Type :=
  mk { _iter : IterType; _filterFunction : FilterFunction }.
Arguments mk {IterType FilterFunction}.
Arguments _iter {IterType FilterFunction}.
Arguments _filterFunction {IterType FilterFunction}.

Definition new {IterType FilterFunction : Type}
  (iter : IterType) (filterFunction : FilterFunction) : t IterType FilterFunction :=
  mk iter filterFunction.

(** [while (current = _iter.next())]: return [current] as soon as the
    filter function accepts it, null when the upstream is finished. *)
Definition next_internal {IterType FilterFunction A : Type}
  `{Iterator IterType A} `{Predicate FilterFunction A}
  (it : t IterType FilterFunction) : Fuel (option A * t IterType FilterFunction) :=
  loop (fun st : t IterType FilterFunction =>
          '(current, iter) <- next (_iter st) ;;
          match current with
          | Some c =>
              let '(keep, f) := test (_filterFunction st) c in
              if keep then ret (inr (Some c, mk iter f))
              else ret (inl (mk iter f))
          | None => ret (inr (None, mk iter (_filterFunction st)))
          end) it.
End FilterIter.

#[global] Instance FilterIter_Iterator (IterType FilterFunction A : Type)
  `{Iterator IterType A} `{Predicate FilterFunction A}
  : Iterator (FilterIter.t IterType FilterFunction) A :=
  {| next := FilterIter.next_internal; inv := fun it => inv (FilterIter._iter it) |}.

Module FilterMapIter.
Record t (IterType A B : Type) : Type :=
  mk { _iter : IterType; _filterMapFunction : A -> option B }.
Arguments mk {IterType A B}.
Arguments _iter {IterType A B}.
Arguments _filterMapFunction {IterType A B}.

Definition new {IterType A B : Type} (iter : IterType) (f : A -> option B)
  : t IterType A B := mk iter f.

Definition next_internal {IterType A B : Type} `{Iterator IterType A}
  (it : t IterType A B) : Fuel (option B * t IterType A B) :=
  loop (fun st : t IterType A B =>
          '(current, iter) <- next (_iter st) ;;
          match current with
          | Some c =>
              match _filterMapFunction st c with
              | Some result => ret (inr (Some result, mk iter (_filterMapFunction st)))
              | None => ret (inl (mk iter (_filterMapFunction st)))
              end
          | None => ret (inr (None, mk iter (_filterMapFunction st)))
          end) it.
End FilterMapIter.

#[global] Instance FilterMapIter_Iterator (IterType A B : Type) `{Iterator IterType A}
  : Iterator (FilterMapIter.t IterType A B) B :=
  {| next := FilterMapIter.next_internal;
     inv := fun it => inv (FilterMapIter._iter it) |}.

(** [PeekableIter]: [_nextItem] is a [std::optional<std::optional<OutType>>]:
    [None] is "next item unknown", [Some (Some v)] "known, has a value",
    [Some None] "known, but has no value". *)
Module PeekableIter.
Record t (IterType A : Type) : Type :=
  mk { _iter : IterType; _nextItem : option (option A) }.
Arguments mk {IterType A}.
Arguments _iter {IterType A}.
Arguments _nextItem {IterType A}.

Definition new {IterType A : Type} (iter : IterType) : t IterType A := mk iter None.

Definition peek {IterType A : Type} `{Iterator IterType A} (it : t IterType A)
  : Fuel (option A * t IterType A) :=
  match _nextItem it with
  | None =>
      (* next item is unknown, get it from the iter *)
      '(nxt, iter) <- next (_iter it) ;;
      match nxt with
      | Some v =>
          (* _nextItem.emplace( *next ), then the known value is returned *)
          ret (Some v, mk iter (Some (Some v)))
      | None =>
          (* _nextItem.reset(); return nullptr; *)
          ret (None, mk iter None)
      end
  | Some nextValue =>
      (* next item is known: its value, or null when it has none *)
      ret (nextValue, it)
  end.

Definition next_internal {IterType A : Type} `{Iterator IterType A} (it : t IterType A)
  : Fuel (option A * t IterType A) :=
  match _nextItem it with
  | Some tmpResult =>
      (* next item was already peeked *)
      ret (tmpResult, mk (_iter it) None)
  | None =>
      '(r, iter) <- next (_iter it) ;;
      ret (r, mk iter None)
  end.
End PeekableIter.

#[global] Instance PeekableIter_Iterator (IterType A : Type) `{Iterator IterType A}
  : Iterator (PeekableIter.t IterType A) A :=
  {| next := PeekableIter.next_internal;
     inv := fun it => inv (PeekableIter._iter it)
                      /\ PeekableIter._nextItem it <> Some None |}.

Module SkipWhileIter.
Record t (IterType Pred : Type) : Type :=
  mk { _iter : IterType; _predicate : Pred; _done : bool }.
Arguments mk {IterType Pred}.
Arguments _iter {IterType Pred}.
Arguments _predicate {IterType Pred}.
Arguments _done {IterType Pred}.

Definition new {IterType Pred : Type} (iter : IterType) (predicate : Pred)
  : t IterType Pred := mk iter predicate false.

Definition next_internal {IterType Pred A : Type}
  `{Iterator IterType A} `{Predicate Pred A}
  (it : t IterType Pred) : Fuel (option A * t IterType Pred) :=
  if negb (_done it) then
    (* _done = true; while (const OutType* value = _iter.next()) ... *)
    loop (fun st : t IterType Pred =>
            '(value, iter) <- next (_iter st) ;;
            match value with
            | Some v =>
                let '(holds, p) := test (_predicate st) v in
                if negb holds then ret (inr (Some v, mk iter p true))
                else ret (inl (mk iter p true))
            | None => ret (inr (None, mk iter (_predicate st) true))
            end) (mk (_iter it) (_predicate it) true)
  else
    '(r, iter) <- next (_iter it) ;;
    ret (r, mk iter (_predicate it) (_done it)).
End SkipWhileIter.

#[global] Instance SkipWhileIter_Iterator (IterType Pred A : Type)
  `{Iterator IterType A} `{Predicate Pred A}
  : Iterator (SkipWhileIter.t IterType Pred) A :=
  {| next := SkipWhileIter.next_internal;
     inv := fun it => inv (SkipWhileIter._iter it) |}.

Module TakeWhileIter.
Record t (IterType Pred : Type) : Type :=
  mk { _iter : IterType; _predicate : Pred; _done : bool }.
Arguments mk {IterType Pred}.
Arguments _iter {IterType Pred}.
Arguments _predicate {IterType Pred}.
Arguments _done {IterType Pred}.

Definition new {IterType Pred : Type} (iter : IterType) (predicate : Pred)
  : t IterType Pred := mk iter predicate false.

Definition next_internal {IterType Pred A : Type}
  `{Iterator IterType A} `{Predicate Pred A}
  (it : t IterType Pred) : Fuel (option A * t IterType Pred) :=
  if _done it then ret (None, it)
  else
    '(value, iter) <- next (_iter it) ;;
    match value with
    | Some v =>
        let '(holds, p) := test (_predicate it) v in
        if holds then ret (Some v, mk iter p (_done it))
        else ret (None, mk iter p true)
    | None => ret (None, mk iter (_predicate it) true)
    end.
End TakeWhileIter.

#[global] Instance TakeWhileIter_Iterator (IterType Pred A : Type)
  `{Iterator IterType A} `{Predicate Pred A}
  : Iterator (TakeWhileIter.t IterType Pred) A :=
  {| next := TakeWhileIter.next_internal;
     inv := fun it => inv (TakeWhileIter._iter it) |}.

Module FlattenIter.
Record t (IterType InnerIterType : Type) : Type :=
  mk { _iter : IterType; _innerIter : option InnerIterType }.
Arguments mk {IterType InnerIterType}.
Arguments _iter {IterType InnerIterType}.
Arguments _innerIter {IterType InnerIterType}.

Definition advance {IterType InnerIterType : Type} `{Iterator IterType InnerIterType}
  (it : t IterType InnerIterType) : Fuel (bool * t IterType InnerIterType) :=
  '(inner, iter) <- next (_iter it) ;;
  match inner with
  | Some i => ret (true, mk iter (Some i))
  | None => ret (false, mk iter None)
  end.

(** The constructor calls [advance()] once. *)
Definition new {IterType InnerIterType : Type} `{Iterator IterType InnerIterType}
  (iter : IterType) : Fuel (t IterType InnerIterType) :=
  '(_, it) <- advance (mk iter None) ;; ret it.

(** [if (!_innerIter) return nullptr; while (true) { ... }].  Inside the loop
    [_innerIter] always holds an iterator: the loop is entered with one and
    continues only after [advance()] stored one; the test on entry is the
    [None] branch of the body. *)
Definition next_internal {IterType InnerIterType A : Type}
  `{Iterator IterType InnerIterType} `{Iterator InnerIterType A}
  (it : t IterType InnerIterType) : Fuel (option A * t IterType InnerIterType) :=
  loop (fun st : t IterType InnerIterType =>
          match _innerIter st with
          | None => ret (inr (None, st))
          | Some inner =>
              '(value, inner') <- next inner ;;
              match value with
              | Some v => ret (inr (Some v, mk (_iter st) (Some inner')))
              | None =>
                  '(advanced, st') <- advance (mk (_iter st) (Some inner')) ;;
                  if (advanced : bool) then ret (inl st') else ret (inr (None, st'))
              end
          end) it.
End FlattenIter.

#[global] Instance FlattenIter_Iterator (IterType InnerIterType A : Type)
  `{Iterator IterType InnerIterType} `{Iterator InnerIterType A}
  : Iterator (FlattenIter.t IterType InnerIterType) A :=
  {| next := FlattenIter.next_internal;
     inv := fun it => inv (FlattenIter._iter it) |}.

Module InspectIter.
Record t (IterType InspectCallback : Type) : Type :=
  mk { _iter : IterType; _inspectCallback : InspectCallback }.
Arguments mk {IterType InspectCallback}.
Arguments _iter {IterType InspectCallback}.
Arguments _inspectCallback {IterType InspectCallback}.

Definition new {IterType InspectCallback : Type}
  (iter : IterType) (inspectCallback : InspectCallback) : t IterType InspectCallback :=
  mk iter inspectCallback.

Definition next_internal {IterType InspectCallback A : Type}
  `{Iterator IterType A} `{Callback InspectCallback A}
  (it : t IterType InspectCallback) : Fuel (option A * t IterType InspectCallback) :=
  '(value, iter) <- next (_iter it) ;;
  match value with
  | Some v => ret (Some v, mk iter (observe (_inspectCallback it) v))
  | None => ret (None, mk iter (_inspectCallback it))
  end.
End InspectIter.

#[global] Instance InspectIter_Iterator (IterType InspectCallback A : Type)
  `{Iterator IterType A} `{Callback InspectCallback A}
  : Iterator (InspectIter.t IterType InspectCallback) A :=
  {| next := InspectIter.next_internal;
     inv := fun it => inv (InspectIter._iter it) |}.

Module CycleIter.
Record t (IterType : Type) : Type :=
  mk { _originalIter : IterType; _iter : IterType; _iterIsEmpty : bool }.
Arguments mk {IterType}.
Arguments _originalIter {IterType}.
Arguments _iter {IterType}.
Arguments _iterIsEmpty {IterType}.

Definition new {IterType : Type} (iter : IterType) : t IterType := mk iter iter true.

Definition next_internal {IterType A : Type} `{Iterator IterType A} (it : t IterType)
  : Fuel (option A * t IterType) :=
  '(value, iter) <- next (_iter it) ;;
  match value with
  | Some v => ret (Some v, mk (_originalIter it) iter false)
  | None =>
      if _iterIsEmpty it then ret (None, mk (_originalIter it) iter (_iterIsEmpty it))
      else
        (* _iter.~IterType(); new (&_iter) IterType(_originalIter); return _iter.next(); *)
        '(r, fresh) <- next (_originalIter it) ;;
        ret (r, mk (_originalIter it) fresh (_iterIsEmpty it))
  end.
End CycleIter.

#[global] Instance CycleIter_Iterator (IterType A : Type) `{Iterator IterType A}
  : Iterator (CycleIter.t IterType) A :=
  {| next := CycleIter.next_internal;
     inv := fun it => inv (CycleIter._originalIter it) /\ inv (CycleIter._iter it) |}.

(** ** Item types *)

(** The C++ type [char]: 8 bits, signed; a conversion into it wraps. *)
Definition wrap_char (z : Z) : Z := (z + 128) mod 256 - 128.

(** What the comparison consumers use of the item type [OutType]: its
    operators [<], [>], [==] and the implicit conversions from and to
    [char]. *)
Class ItemType (A : Type) : Type := {
  less : A -> A -> bool;
  greater : A -> A -> bool;
  equal : A -> A -> bool;
  of_char : Z -> A;
  to_char : A -> Z
}.

(** [int] items.  A [char] converts to the [int] of the same value; an
    [int] converts to [char] by wrapping. *)
#[global] Instance int_ItemType : ItemType Z :=
  {| less := Z.ltb; greater := Z.gtb; equal := Z.eqb;
     of_char := fun c => c; to_char := wrap_char |}.

(** [bool] items: [false < true]; a [char] converts to [true] unless it is 0,
    and [true] converts to the [char] 1. *)
#[global] Instance bool_ItemType : ItemType bool :=
  {| less := fun a b => negb a && b;
     greater := fun a b => a && negb b;
     equal := Bool.eqb;
     of_char := fun c => negb (c =? 0);
     to_char := fun b => if b then 1 else 0 |}.

(** [compare]: [-1] if [a < b], [1] if [a > b], else [0]. *)
Definition compare {A : Type} `{ItemType A} (a b : A) : Z :=
  if less a b then -1 else if greater a b then 1 else 0.

Definition compare_reverse {A : Type} `{ItemType A} (a b : A) : Z := compare b a.

Definition compare_partial {A : Type} `{ItemType A} (a b : A) : option Z :=
  if equal a b then Some 0
  else if less a b then Some (-1)
  else if greater a b then Some 1
  else None.

(** ** Callables of the consumers *)

(** The lambda [partition] hands to [for_each]: it captures the predicate
    and the pair of collections, and pushes an item to the back of the
    first collection when the predicate is [false] for it (index 0), of the
    second when it is [true] (index 1). *)
Module PartitionLambda.
Record t (A : Type) : Type := mk { _predicate : A -> bool; _result : list A * list A }.
Arguments mk {A}.
Arguments _predicate {A}.
Arguments _result {A}.

Definition call {A : Type} (f : t A) (value : A) : t A :=
  if _predicate f value
  then mk (_predicate f) (fst (_result f), snd (_result f) ++ [value])
  else mk (_predicate f) (fst (_result f) ++ [value], snd (_result f)).
End PartitionLambda.

#[global] Instance PartitionLambda_Callback (A : Type) : Callback (PartitionLambda.t A) A :=
  PartitionLambda.call.

(** The callback of [test_inspect] (test/main.cpp): it pushes each item to
    the back of the vector [inspected] that it captures. *)
#[global] Instance push_back_Callback (A : Type) : Callback (list A) A :=
  fun inspected currentValue => inspected ++ [currentValue].

(** What [sum] and [product] use of their result type [T]: the conversion
    [T(0)] / [T(1)] and the operators [+=] and [*=] with an item. *)
Class Accumulator (T A : Type) : Type := {
  of_int : Z -> T;
  add_assign : T -> A -> T;
  mul_assign : T -> A -> T
}.

#[global] Instance int_Accumulator : Accumulator Z Z :=
  {| of_int := fun z => z; add_assign := Z.add; mul_assign := Z.mul |}.

(** ** [IterBase]: pipeline stages and consumers *)

Module IterBase.
Section Methods.
Context {IterType A : Type} `{Iterator IterType A}.

Definition step_by (this : IterType) (stepSize : Z) : StepByIter.t IterType :=
  StepByIter.new this stepSize.

Definition chain {ChainedIterType : Type} (this : IterType) (chainedIter : ChainedIterType)
  : ChainIter.t IterType ChainedIterType := ChainIter.new this chainedIter.

Definition zip {ZippedIterType : Type} (this : IterType) (zippedIter : ZippedIterType)
  : ZipIter.t IterType ZippedIterType := ZipIter.new this zippedIter.

Definition intersperse (this : IterType) (separator : A)
  : Fuel (IntersperseWithIter.t IterType (Getter.t A) A) :=
  IntersperseWithIter.new this (Getter.mk separator).

Definition intersperse_with {SeparatorGetter : Type} (this : IterType)
  (separatorGetter : SeparatorGetter)
  : Fuel (IntersperseWithIter.t IterType SeparatorGetter A) :=
  IntersperseWithIter.new this separatorGetter.

Definition map {B : Type} (this : IterType) (mapFunction : A -> B)
  : MapIter.t IterType A B := MapIter.new this mapFunction.

Definition filter {FilterFunction : Type} (this : IterType) (f : FilterFunction)
  : FilterIter.t IterType FilterFunction := FilterIter.new this f.

Definition filter_map {B : Type} (this : IterType) (f : A -> option B)
  : FilterMapIter.t IterType A B := FilterMapIter.new this f.

Definition peekable (this : IterType) : PeekableIter.t IterType A :=
  PeekableIter.new this.

Definition skip_while {Pred : Type} (this : IterType) (pred : Pred)
  : SkipWhileIter.t IterType Pred := SkipWhileIter.new this pred.

Definition take_while {Pred : Type} (this : IterType) (pred : Pred)
  : TakeWhileIter.t IterType Pred := TakeWhileIter.new this pred.

Definition skip (this : IterType) (count : Z) : SkipWhileIter.t IterType Counter.t :=
  SkipWhileIter.new this (Counter.new count).

Definition take (this : IterType) (count : Z) : TakeWhileIter.t IterType Counter.t :=
  TakeWhileIter.new this (Counter.new count).

Definition enumerate (this : IterType)
  : ZipIter.t (GeneratorIter.t InfiniteRangeGenerator.t) IterType :=
  ZipIter.new (GeneratorIter.mk (InfiniteRangeGenerator.mk 0 1)) this.

Definition flatten {InnerIterType : Type} `{Iterator IterType InnerIterType}
  (this : IterType) : Fuel (FlattenIter.t IterType InnerIterType) :=
  FlattenIter.new this.

Definition inspect {InspectCallback : Type} (this : IterType) (f : InspectCallback)
  : InspectIter.t IterType InspectCallback := InspectIter.new this f.

Definition cycle (this : IterType) : CycleIter.t IterType := CycleIter.new this.

(** [collect]: push every remaining item to the back of a collection.  The
    final iterator state is returned along with the collection. *)
Definition collect (this : IterType) : Fuel (list A * IterType) :=
  loop (fun '(coll, st) =>
          '(value, st') <- next st ;;
          match value with
          | Some v => ret (inl (coll ++ [v], st'))
          | None => ret (inr (coll, st'))
          end) ([], this).

(** [count]: the number of remaining items. *)
Definition count (this : IterType) : Fuel (Z * IterType) :=
  loop (fun '(n, st) =>
          '(value, st') <- next st ;;
          match value with
          | Some _ => ret (inl (n + 1, st'))
          | None => ret (inr (n, st'))
          end) (0, this).

(** [partial_cmp_by].  The comparison function returns a [std::optional<R>];
    the result is stored in a [std::optional<char>], which converts the
    contained [R] with [as_char].  Returns the comparison and both final
    iterator states. *)
Definition partial_cmp_by {OtherIterType R : Type} `{Iterator OtherIterType A}
  (as_char : R -> Z) (this : IterType) (other : OtherIterType)
  (partialComparisonFunction : A -> A -> option R)
  : Fuel (option Z * (IterType * OtherIterType)) :=
  loop (fun '(st, ot) =>
          '(thisValue, st') <- next st ;;
          '(otherValue, ot') <- next ot ;;
          match thisValue with
          | None =>
              match otherValue with
              | Some _ => ret (inr (Some (-1), (st', ot')))
              | None => ret (inr (Some 0, (st', ot')))
              end
          | Some a =>
              match otherValue with
              | None => ret (inr (Some 1, (st', ot')))
              | Some b =>
                  match option_map as_char (partialComparisonFunction a b) with
                  | None => ret (inr (None, (st', ot')))
                  | Some compared =>
                      if compared =? 0 then ret (inl (st', ot'))
                      else ret (inr (Some compared, (st', ot')))
                  end
              end
          end) (this, other).

Definition partial_cmp {OtherIterType : Type} `{Iterator OtherIterType A} `{ItemType A}
  (this : IterType) (other : OtherIterType)
  : Fuel (option Z * (IterType * OtherIterType)) :=
  partial_cmp_by (fun c : Z => c) this other compare_partial.

(** [cmp_by].  The wrapping lambda is declared
    [-> std::optional<OutType>]: the value [comparisonFunction] returns is
    converted to the item type ([to_OutType]) and from there, inside
    [partial_cmp_by], to [char].  The final dereference of the optional
    never meets an empty one (lemma [cmp_by_some]); [0] stands there. *)
Definition cmp_by {OtherIterType R : Type} `{Iterator OtherIterType A} `{ItemType A}
  (to_OutType : R -> A) (this : IterType) (other : OtherIterType)
  (comparisonFunction : A -> A -> R)
  : Fuel (Z * (IterType * OtherIterType)) :=
  let partialComparisonFunction := fun a b => Some (to_OutType (comparisonFunction a b)) in
  '(r, sts) <- partial_cmp_by to_char this other partialComparisonFunction ;;
  match r with
  | Some c => ret (c, sts)
  | None => ret (0, sts)
  end.

Definition cmp {OtherIterType : Type} `{Iterator OtherIterType A} `{ItemType A}
  (this : IterType) (other : OtherIterType)
  : Fuel (Z * (IterType * OtherIterType)) :=
  cmp_by of_char this other compare.

(** ** Consumers *)

(** [for_each]: call the callback on every remaining item.  What the
    callback does is written to memory it captures; [C] is this memory and
    [observe] one call.  Returns the memory after the last call and the
    final iterator state. *)
Definition for_each {C : Type} `{Callback C A} (this : IterType) (callback : C)
  : Fuel (C * IterType) :=
  loop (fun '(cb, st) =>
          '(value, st') <- next st ;;
          match value with
          | Some v => ret (inl (observe cb v, st'))
          | None => ret (inr (cb, st'))
          end) (callback, this).

(** [partition]: [for_each] with the lambda that pushes each item to the
    collection its predicate value selects. *)
Definition partition (this : IterType) (predicate : A -> bool)
  : Fuel ((list A * list A) * IterType) :=
  '(lambda, st) <- for_each this (PartitionLambda.mk predicate ([], [])) ;;
  ret (PartitionLambda._result lambda, st).

(** [reduce]: the first item is the initial accumulator. *)
Definition reduce (this : IterType) (reduceFunction : A -> A -> A)
  : Fuel (option A * IterType) :=
  '(first, st) <- next this ;;
  match first with
  | None => ret (None, st)
  | Some f =>
      '(reduced, st') <-
        loop (fun '(reduced, st) =>
                '(value, st') <- next st ;;
                match value with
                | Some v => ret (inl (reduceFunction reduced v, st'))
                | None => ret (inr (reduced, st'))
                end) (f, st) ;;
      ret (Some reduced, st')
  end.

Definition fold {T : Type} (this : IterType) (initialValue : T)
  (foldFunction : T -> A -> T) : Fuel (T * IterType) :=
  loop (fun '(initialValue, st) =>
          '(value, st') <- next st ;;
          match value with
          | Some v => ret (inl (foldFunction initialValue v, st'))
          | None => ret (inr (initialValue, st'))
          end) (initialValue, this).

Definition last (this : IterType) : Fuel (option A * IterType) :=
  '(first, st) <- next this ;;
  match first with
  | None => ret (None, st)
  | Some f =>
      '(last, st') <-
        loop (fun '(last, st) =>
                '(value, st') <- next st ;;
                match value with
                | Some v => ret (inl (v, st'))
                | None => ret (inr (last, st'))
                end) (f, st) ;;
      ret (Some last, st')
  end.

(** [nth]: [currentIdx] is compared with [idx] and then incremented. *)
Definition nth (this : IterType) (idx : Z) : Fuel (option A * IterType) :=
  loop (fun '(currentIdx, st) =>
          '(value, st') <- next st ;;
          match value with
          | Some v =>
              if currentIdx =? idx then ret (inr (Some v, st'))
              else ret (inl (currentIdx + 1, st'))
          | None => ret (inr (None, st'))
          end) (0, this).

Definition all (this : IterType) (predicate : A -> bool) : Fuel (bool * IterType) :=
  loop (fun st =>
          '(value, st') <- next st ;;
          match value with
          | Some v => if negb (predicate v) then ret (inr (false, st')) else ret (inl st')
          | None => ret (inr (true, st'))
          end) this.

Definition any (this : IterType) (predicate : A -> bool) : Fuel (bool * IterType) :=
  loop (fun st =>
          '(value, st') <- next st ;;
          match value with
          | Some v => if predicate v then ret (inr (true, st')) else ret (inl st')
          | None => ret (inr (false, st'))
          end) this.

Definition find (this : IterType) (predicate : A -> bool)
  : Fuel (option A * IterType) :=
  loop (fun st =>
          '(value, st') <- next st ;;
          match value with
          | Some v => if predicate v then ret (inr (Some v, st')) else ret (inl st')
          | None => ret (inr (None, st'))
          end) this.

Definition position (this : IterType) (predicate : A -> bool)
  : Fuel (option Z * IterType) :=
  loop (fun '(pos, st) =>
          '(value, st') <- next st ;;
          match value with
          | Some v =>
              if predicate v then ret (inr (Some pos, st'))
              else ret (inl (pos + 1, st'))
          | None => ret (inr (None, st'))
          end) (0, this).

(** [min_by]: a later item replaces the minimum only if it compares
    strictly below it. *)
Definition min_by (this : IterType) (comparer : A -> A -> Z)
  : Fuel (option A * IterType) :=
  '(first, st) <- next this ;;
  match first with
  | None => ret (None, st)
  | Some f =>
      '(minValue, st') <-
        loop (fun '(minValue, st) =>
                '(value, st') <- next st ;;
                match value with
                | Some v =>
                    if comparer v minValue <? 0 then ret (inl (v, st'))
                    else ret (inl (minValue, st'))
                | None => ret (inr (minValue, st'))
                end) (f, st) ;;
      ret (Some minValue, st')
  end.

Definition min `{ItemType A} (this : IterType) : Fuel (option A * IterType) :=
  min_by this compare.

Definition max_by (this : IterType) (comparer : A -> A -> Z)
  : Fuel (option A * IterType) :=
  '(first, st) <- next this ;;
  match first with
  | None => ret (None, st)
  | Some f =>
      '(maxValue, st') <-
        loop (fun '(maxValue, st) =>
                '(value, st') <- next st ;;
                match value with
                | Some v =>
                    if comparer v maxValue >? 0 then ret (inl (v, st'))
                    else ret (inl (maxValue, st'))
                | None => ret (inr (maxValue, st'))
                end) (f, st) ;;
      ret (Some maxValue, st')
  end.

Definition max `{ItemType A} (this : IterType) : Fuel (option A * IterType) :=
  max_by this compare.

Definition sum {T : Type} `{Accumulator T A} (this : IterType) : Fuel (T * IterType) :=
  loop (fun '(sum, st) =>
          '(value, st') <- next st ;;
          match value with
          | Some v => ret (inl (add_assign sum v, st'))
          | None => ret (inr (sum, st'))
          end) (of_int 0, this).

Definition product {T : Type} `{Accumulator T A} (this : IterType)
  : Fuel (T * IterType) :=
  loop (fun '(product, st) =>
          '(value, st') <- next st ;;
          match value with
          | Some v => ret (inl (mul_assign product v, st'))
          | None => ret (inr (product, st'))
          end) (of_int 1, this).

(** [is_sorted_by]: stops with [false] at the first item that compares
    below its predecessor. *)
Definition is_sorted_by (this : IterType) (comparer : A -> A -> Z)
  : Fuel (bool * IterType) :=
  '(first, st) <- next this ;;
  match first with
  | None => ret (true, st)
  | Some f =>
      loop (fun '(prev, st) =>
              '(value, st') <- next st ;;
              match value with
              | Some v =>
                  if comparer prev v >? 0 then ret (inr (false, st'))
                  else ret (inl (v, st'))
              | None => ret (inr (true, st'))
              end) (f, st)
  end.

Definition is_sorted_ascending `{ItemType A} (this : IterType)
  : Fuel (bool * IterType) := is_sorted_by this compare.

Definition is_sorted_descending `{ItemType A} (this : IterType)
  : Fuel (bool * IterType) := is_sorted_by this compare_reverse.

(** [eq_by]: both iterators are advanced in every round. *)
Definition eq_by {OtherIterType : Type} `{Iterator OtherIterType A}
  (this : IterType) (other : OtherIterType)
  (equalityComparerFunction : A -> A -> bool)
  : Fuel (bool * (IterType * OtherIterType)) :=
  loop (fun '(st, ot) =>
          '(thisValue, st') <- next st ;;
          '(otherValue, ot') <- next ot ;;
          match thisValue with
          | None =>
              match otherValue with
              | Some _ => ret (inr (false, (st', ot')))
              | None => ret (inr (true, (st', ot')))
              end
          | Some a =>
              match otherValue with
              | None => ret (inr (false, (st', ot')))
              | Some b =>
                  if negb (equalityComparerFunction a b)
                  then ret (inr (false, (st', ot')))
                  else ret (inl (st', ot'))
              end
          end) (this, other).

Definition eq {OtherIterType : Type} `{Iterator OtherIterType A} `{ItemType A}
  (this : IterType) (other : OtherIterType)
  : Fuel (bool * (IterType * OtherIterType)) :=
  eq_by this other (fun a b => equal a b).

Definition ne {OtherIterType : Type} `{Iterator OtherIterType A} `{ItemType A}
  (this : IterType) (other : OtherIterType)
  : Fuel (bool * (IterType * OtherIterType)) :=
  '(r, sts) <- eq this other ;;
  ret (negb r, sts).

(** [lt], [le], [gt], [ge]: [partial_cmp], then a test of its result that
    fails on an empty one. *)
Definition lt {OtherIterType : Type} `{Iterator OtherIterType A} `{ItemType A}
  (this : IterType) (other : OtherIterType)
  : Fuel (bool * (IterType * OtherIterType)) :=
  '(cmp, sts) <- partial_cmp this other ;;
  ret (match cmp with Some c => c <? 0 | None => false end, sts).

Definition le {OtherIterType : Type} `{Iterator OtherIterType A} `{ItemType A}
  (this : IterType) (other : OtherIterType)
  : Fuel (bool * (IterType * OtherIterType)) :=
  '(cmp, sts) <- partial_cmp this other ;;
  ret (match cmp with Some c => c <=? 0 | None => false end, sts).

Definition gt {OtherIterType : Type} `{Iterator OtherIterType A} `{ItemType A}
  (this : IterType) (other : OtherIterType)
  : Fuel (bool * (IterType * OtherIterType)) :=
  '(cmp, sts) <- partial_cmp this other ;;
  ret (match cmp with Some c => c >? 0 | None => false end, sts).

Definition ge {OtherIterType : Type} `{Iterator OtherIterType A} `{ItemType A}
  (this : IterType) (other : OtherIterType)
  : Fuel (bool * (IterType * OtherIterType)) :=
  '(cmp, sts) <- partial_cmp this other ;;
  ret (match cmp with Some c => c >=? 0 | None => false end, sts).

End Methods.
End IterBase.

(** ** Iterator creator functions ([namespace rusty]) *)

Module rusty.
Definition iter {A : Type} (collection : list A) : CppIteratorWrapper.t A :=
  CppIteratorWrapper.mk collection.

Definition infinite_generator {G : Type} (generatorFunction : G) : GeneratorIter.t G :=
  GeneratorIter.mk generatorFunction.

Definition finite_generator {G : Type} (generatorFunction : G) : FiniteGeneratorIter.t G :=
  FiniteGeneratorIter.new generatorFunction.

Definition infinite_range (min step : Z) : GeneratorIter.t InfiniteRangeGenerator.t :=
  infinite_generator (InfiniteRangeGenerator.mk min step).

Definition range_step (min max step : Z)
  : FiniteGeneratorIter.t (FiniteRangeGenerator.t false) :=
  finite_generator (FiniteRangeGenerator.mk false min max step).

Definition range (min max : Z) : FiniteGeneratorIter.t (FiniteRangeGenerator.t false) :=
  finite_generator (FiniteRangeGenerator.mk false min max 1).

Definition range_inclusive_step (min max step : Z)
  : FiniteGeneratorIter.t (FiniteRangeGenerator.t true) :=
  finite_generator (FiniteRangeGenerator.mk true min max step).

Definition range_inclusive (min max : Z)
  : FiniteGeneratorIter.t (FiniteRangeGenerator.t true) :=
  finite_generator (FiniteRangeGenerator.mk true min max 1).

Definition empty (T : Type) : EmptyIter.t T := EmptyIter.mk.

Definition once {T : Type} (value : T) : FiniteGeneratorIter.t (YieldOnce.t T) :=
  finite_generator (YieldOnce.new value).

Definition once_with {T : Type} (f : unit -> T)
  : FiniteGeneratorIter.t (YieldOnceWith.t T) :=
  finite_generator (YieldOnceWith.new f).

Definition repeat {T : Type} (value : T) : GeneratorIter.t (YieldValue.t T) :=
  infinite_generator (YieldValue.mk value).

Definition successors {T : Type} (initialValue : option T) (f : T -> option T)
  : FiniteGeneratorIter.t (SuccessorCalculator.t T) :=
  finite_generator (SuccessorCalculator.mk initialValue f).
End rusty.

(** ** Observing a sequence *)

(** [pulls s rs s']: calling [next] [length rs] times in a row on a sequence
    in state [s] returns the results [rs], in this order, and leaves the
    sequence in state [s']. *)
Inductive pulls {IterType A : Type} `{Iterator IterType A}
  : IterType -> list (option A) -> IterType -> Prop :=
| pulls_nil : forall s, pulls s [] s
| pulls_cons : forall s r s' rs s'',
    next s ~~> (r, s') -> pulls s' rs s'' -> pulls s (r :: rs) s''.

(** The sequence yields exactly the items [l] and then signals exhaustion. *)
Definition yields {IterType A : Type} `{Iterator IterType A}
  (s : IterType) (l : list A) (s' : IterType) : Prop :=
  pulls s (List.map Some l ++ [None]) s'.

(** Every further call returns, and signals exhaustion. *)
Definition exhausted_forever {IterType A : Type} `{Iterator IterType A}
  (s : IterType) : Prop :=
  forall k : nat, exists s', pulls s (List.repeat None k) s'.

(** What every [next] obeys: fuel only decides whether the call finishes,
    and the representation invariant is kept. *)
Class IteratorLaws (IterType A : Type) `{Iterator IterType A} : Prop := {
  next_mono :: forall s : IterType, Mono (next s);
  next_inv : forall (s : IterType) r s', inv s -> next s ~~> (r, s') -> inv s'
}.

(** Sticky exhaustion, one call at a time: the call that follows an
    exhausted call returns and is exhausted too. *)
Class Sticky (IterType A : Type) `{Iterator IterType A} : Prop :=
  sticky : forall s s' : IterType,
    inv s -> next s ~~> (None, s') -> exists s'', next s' ~~> (None, s'').

(** [pull_n k s]: call [next] [k] times in a row and collect the results. *)
Fixpoint pull_n {IterType A : Type} `{Iterator IterType A} (k : nat) (s : IterType)
  : Fuel (list (option A) * IterType) :=
  match k with
  | O => ret ([], s)
  | S k' =>
      '(r, s') <- next s ;;
      '(rs, s'') <- pull_n k' s' ;;
      ret (r :: rs, s'')
  end.

(** Permanent exhaustion of a sequence type: after a call of [next] that
    signalled exhaustion, every later call returns and signals exhaustion. *)
Definition permanently_exhausting (IterType A : Type) `{Iterator IterType A} : Prop :=
  forall s s' : IterType, inv s -> next s ~~> (None, s') -> exhausted_forever s'.

(** ** A probe for upstream calls *)

(** [Counted.t] wraps any sequence and counts the calls of its [next] that
    returned; it forwards every call unchanged.  It is used to observe how
    often a stage advances its upstream. *)
Module Counted.
Record t (IterType : Type) : Type := mk { _inner : IterType; _calls : nat }.
Arguments mk {IterType}.
Arguments _inner {IterType}.
Arguments _calls {IterType}.

Definition new {IterType : Type} (inner : IterType) : t IterType := mk inner 0.

Definition next_internal {IterType A : Type} `{Iterator IterType A} (it : t IterType)
  : Fuel (option A * t IterType) :=
  '(r, inner) <- next (_inner it) ;;
  ret (r, mk inner (S (_calls it))).
End Counted.

#[global] Instance Counted_Iterator (IterType A : Type) `{Iterator IterType A}
  : Iterator (Counted.t IterType) A :=
  {| next := Counted.next_internal; inv := fun it => inv (Counted._inner it) |}.

(** ** The lexicographic order of two item lists *)

(** The order the comparison consumers are documented to compute: a proper
    prefix is less, equal lists are equal, otherwise the first pair that
    does not compare equal decides ([None]: the pair cannot be compared). *)
Fixpoint lexicographic {A : Type} (cmp : A -> A -> option Z) (la lb : list A)
  : option Z :=
  match la, lb with
  | [], [] => Some 0
  | [], _ :: _ => Some (-1)
  | _ :: _, [] => Some 1
  | a :: la', b :: lb' =>
      match cmp a b with
      | None => None
      | Some c => if c =? 0 then lexicographic cmp la' lb' else Some c
      end
  end.

(** ** A list with a separator between consecutive items *)

Fixpoint interspersed {A : Type} (sep : A) (l : list A) : list A :=
  match l with
  | [] => []
  | x :: rest =>
      x :: match rest with
           | [] => []
           | _ :: _ => sep :: interspersed sep rest
           end
  end.

(** ** Upstream calls made while a stage is built *)

(** [built_after k build upstream_of]: building a stage over a probed
    upstream calls this upstream exactly [k] times. *)
Definition built_after {IterType X : Type} (k : nat)
  (build : Counted.t IterType -> Fuel X) (upstream_of : X -> Counted.t IterType)
  : Prop :=
  forall (s : Counted.t IterType) (x : X),
    build s ~~> x -> Counted._calls (upstream_of x) = (Counted._calls s + k)%nat.

(** ** Upstream calls made by one call of a stage *)

(** One call of [step] makes at most [k] calls of the upstream's [next]. *)
Definition calls_at_most {X IterType A R : Type} `{Iterator IterType A} (k : nat)
  (step : X -> Fuel (R * X)) (upstream_of : X -> IterType) : Prop :=
  forall (z : X) (r : R) (z' : X),
    step z ~~> (r, z') ->
    exists rs, pulls (upstream_of z) rs (upstream_of z') /\ (length rs <= k)%nat.

(** One call of [step] makes no upstream call after the one whose result
    it returns: what it returns is [via] applied to the result of its last
    upstream call (to "exhausted" when it made none). *)
Definition stops_at_result {X IterType A B : Type} `{Iterator IterType A}
  (via : X -> option A -> option B)
  (step : X -> Fuel (option B * X)) (upstream_of : X -> IterType) : Prop :=
  forall (z : X) (r : option B) (z' : X),
    step z ~~> (r, z') ->
    exists rs, pulls (upstream_of z) rs (upstream_of z') /\
               r = via z (List.last rs None).

(** ** The C++ iterator bridge ([IterBase::CppIterator]) *)

(** A [CppIterator] holds a pointer to the sequence it steps and the item
    it stands on.  The pointer is either null or the address of that one
    sequence, so the record keeps whether it is set ([_iter]); the sequence
    itself is passed to and returned by [step]. *)
Module CppIterator.
Record t (A : Type) : Type := mk { _iter : bool; _value : option A }.
Arguments mk {A}.
Arguments _iter {A}.
Arguments _value {A}.

Definition step {IterType A : Type} `{Iterator IterType A} (obj : IterType) (it : t A)
  : Fuel (IterType * t A) :=
  if negb (_iter it) then ret (obj, it)
  else
    '(first, obj') <- next obj ;;
    match first with
    | Some v => ret (obj', mk (_iter it) (Some v))
    | None => ret (obj', mk false None)
    end.

Definition is_done {A : Type} (it : t A) : bool :=
  match _value it with Some _ => false | None => true end.

(** [operator==] and [operator!=]. *)
Definition equal {A : Type} (a b : t A) : bool :=
  Bool.eqb (_iter a) (_iter b) && is_done a && is_done b.

Definition not_equal {A : Type} (a b : t A) : bool := negb (equal a b).

(** [begin()] steps once; [end()] holds the null pointer. *)
Definition begin {IterType A : Type} `{Iterator IterType A} (obj : IterType)
  : Fuel (IterType * t A) := step obj (mk true None).

Definition end_ {A : Type} : t A := mk false None.

(** [for (const OutType& item : obj) callback(item);], that is
    [for (it = obj.begin(), e = obj.end(); it != e; ++it) callback( *it )].
    Dereferencing an iterator that holds no item is undefined; the loop
    then ends with [None]. *)
Definition range_for {IterType A C : Type} `{Iterator IterType A} `{Callback C A}
  (obj : IterType) (callback : C) : Fuel (option (C * IterType)) :=
  '(obj0, it0) <- begin obj ;;
  loop (fun '(cb, obj, it) =>
          if not_equal it end_ then
            match _value it with
            | Some item =>
                '(obj', it') <- step obj it ;;
                ret (inl (observe cb item, obj', it'))
            | None => ret (inr None)
            end
          else ret (inr (Some (cb, obj)))) (callback, obj0, it0).
End CppIterator.

(** ** Reference functions on lists *)

(** The items from the first one the predicate rejects. *)
Fixpoint drop_while {A : Type} (p : A -> bool) (l : list A) : list A :=
  match l with
  | [] => []
  | x :: rest => if p x then drop_while p rest else x :: rest
  end.

(** The items before the first one the predicate rejects. *)
Fixpoint take_while_prefix {A : Type} (p : A -> bool) (l : list A) : list A :=
  match l with
  | [] => []
  | x :: rest => if p x then x :: take_while_prefix p rest else []
  end.

(** The values a partial function gives, in order. *)
Fixpoint filter_mapped {A B : Type} (f : A -> option B) (l : list A) : list B :=
  match l with
  | [] => []
  | x :: rest =>
      match f x with
      | Some y => y :: filter_mapped f rest
      | None => filter_mapped f rest
      end
  end.

(** [start, start + step, ...]: [k] numbers. *)
Fixpoint arithmetic (start step : Z) (k : nat) : list Z :=
  match k with
  | O => []
  | S k' => start :: arithmetic (start + step) step k'
  end.

(** The index of the first item the predicate accepts. *)
Fixpoint first_index {A : Type} (p : A -> bool) (l : list A) : option nat :=
  match l with
  | [] => None
  | x :: rest => if p x then Some O else option_map S (first_index p rest)
  end.

(** [x0, f x0, f (f x0), ...] up to the first value without successor;
    at most [k] values. *)
Fixpoint orbit {T : Type} (f : T -> option T) (x : option T) (k : nat) : list T :=
  match k with
  | O => []
  | S k' =>
      match x with
      | None => []
      | Some v => v :: orbit f (f v) k'
      end
  end.

(** No item compares above its successor. *)
Fixpoint sorted_by {A : Type} (comparer : A -> A -> Z) (l : list A) : bool :=
  match l with
  | [] => true
  | x :: rest =>
      match rest with
      | [] => true
      | y :: _ => negb (comparer x y >? 0) && sorted_by comparer rest
      end
  end.

(** Two lists of the same length whose items are pairwise related. *)
Fixpoint pairwise {A : Type} (r : A -> A -> bool) (la lb : list A) : bool :=
  match la, lb with
  | [], [] => true
  | a :: la', b :: lb' => r a b && pairwise r la' lb'
  | _, _ => false
  end.

(* ================================================================== *)
(** * Part II: properties                                              *)
(* ================================================================== *)

(** ** The partiality monad *)

Lemma ret_returns {X : Type} (x y : X) : ret x ~~> y <-> x = y.
Proof.
  split.
  - intros [n Hn]. now inversion Hn.
  - intros ->. now exists O.
Qed.

Lemma bind_returns_inv {X Y : Type} (m : Fuel X) (k : X -> Fuel Y) (y : Y) :
  bind m k ~~> y -> exists x, m ~~> x /\ k x ~~> y.
Proof.
  intros [n Hn]. unfold bind in Hn.
  destruct (m n) as [x|] eqn:Hm; [|discriminate].
  exists x. split; now exists n.
Qed.

Lemma bind_returns_intro {X Y : Type} (m : Fuel X) (k : X -> Fuel Y) (x : X) (y : Y) :
  Mono m -> Mono (k x) -> m ~~> x -> k x ~~> y -> bind m k ~~> y.
Proof.
  intros Hm Hk [n1 H1] [n2 H2]. exists (Nat.max n1 n2). unfold bind.
  rewrite (Hm n1 (Nat.max n1 n2) x H1 (Nat.le_max_l _ _)).
  exact (Hk n2 (Nat.max n1 n2) y H2 (Nat.le_max_r _ _)).
Qed.

Lemma returns_det {X : Type} (m : Fuel X) (x y : X) :
  Mono m -> m ~~> x -> m ~~> y -> x = y.
Proof.
  intros Hm [n1 H1] [n2 H2].
  pose proof (Hm n1 (Nat.max n1 n2) x H1 (Nat.le_max_l _ _)) as E1.
  pose proof (Hm n2 (Nat.max n1 n2) y H2 (Nat.le_max_r _ _)) as E2.
  congruence.
Qed.

#[global] Instance Mono_ret {X : Type} (x : X) : Mono (ret x).
Proof. intros n n' y H _. exact H. Qed.

#[global] Instance Mono_bind {X Y : Type} (m : Fuel X) (k : X -> Fuel Y) :
  Mono m -> (forall x, Mono (k x)) -> Mono (bind m k).
Proof.
  intros Hm Hk n n' y H Hle. unfold bind in *.
  destruct (m n) as [x|] eqn:E; [|discriminate].
  rewrite (Hm n n' x E Hle). exact (Hk x n n' y H Hle).
Qed.

#[global] Instance Mono_loop {St R : Type} (body : St -> Fuel (St + R)) (s : St) :
  (forall s, Mono (body s)) -> Mono (loop body s).
Proof.
  intros Hb n. revert s.
  induction n as [|n IH]; intros s n' r H Hle; [discriminate|].
  destruct n' as [|n']; [lia|]. simpl in *.
  destruct (body s n) as [[s1|r1]|] eqn:E; try discriminate.
  - rewrite (Hb s n n' _ E ltac:(lia)). apply IH; [exact H | lia].
  - rewrite (Hb s n n' _ E ltac:(lia)). exact H.
Qed.

Lemma loop_returns_exit {St R : Type} (body : St -> Fuel (St + R)) (s : St) (r : R) :
  body s ~~> inr r -> loop body s ~~> r.
Proof. intros [n Hn]. exists (S n). simpl. now rewrite Hn. Qed.

Lemma loop_returns_continue {St R : Type} (body : St -> Fuel (St + R)) (s s' : St) (r : R) :
  (forall s, Mono (body s)) ->
  body s ~~> inl s' -> loop body s' ~~> r -> loop body s ~~> r.
Proof.
  intros Hb [n1 H1] [n2 H2]. exists (S (Nat.max n1 n2)). simpl.
  rewrite (Hb s n1 (Nat.max n1 n2) _ H1 (Nat.le_max_l _ _)).
  exact (Mono_loop body s' Hb n2 (Nat.max n1 n2) r H2 (Nat.le_max_r _ _)).
Qed.

(** Induction along the iterations of a terminating loop. *)
Lemma loop_returns_ind {St R : Type} (body : St -> Fuel (St + R)) (P : St -> R -> Prop) :
  (forall s r, body s ~~> inr r -> P s r) ->
  (forall s s' r, body s ~~> inl s' -> loop body s' ~~> r -> P s' r -> P s r) ->
  forall s r, loop body s ~~> r -> P s r.
Proof.
  intros Hexit Hcont s r [n Hn]. revert s Hn.
  induction n as [|n IH]; intros s Hn; [discriminate|]. simpl in Hn.
  destruct (body s n) as [[s1|r1]|] eqn:E; try discriminate.
  - apply (Hcont s s1 r); [now exists n | now exists n | now apply IH].
  - inversion Hn; subst. apply Hexit. now exists n.
Qed.

(** Proof steps shared by all stages. *)

(** Fuel monotonicity of a term built from [ret], [bind], [loop], [next]
    and case distinctions. *)
Ltac solve_mono :=
  solve [ repeat (first
    [ apply Mono_ret
    | apply next_mono
    | apply Mono_bind; [ | intros ? ]
    | apply Mono_loop; intros ?
    | match goal with
      | |- Mono (match ?x with _ => _ end) => destruct x
      end
    | solve [ typeclasses eauto ] ]) ].

(** Take a terminating run apart along its [bind]s and case distinctions. *)
Ltac invert_run :=
  repeat match goal with
  | H : ret _ ~~> _ |- _ =>
      apply ret_returns in H; try (inversion H; clear H); subst
  | H : bind _ _ ~~> _ |- _ =>
      apply bind_returns_inv in H; destruct H as (? & ? & H)
  | H : (match ?x with _ => _ end) ~~> _ |- _ => destruct x eqn:?
  end.

(** Run one [bind] whose first computation is known to return. *)
Ltac run_bind H :=
  eapply bind_returns_intro; [ solve_mono | solve_mono | exact H | cbn beta iota ].

Ltac run_ret := apply ret_returns; reflexivity.

Lemma bind_returns {X Y : Type} (m : Fuel X) (k : X -> Fuel Y) (y : Y) :
  Mono m -> (forall x, Mono (k x)) ->
  (bind m k ~~> y <-> exists x, m ~~> x /\ k x ~~> y).
Proof.
  intros Hm Hk. split.
  - apply bind_returns_inv.
  - intros (x & H1 & H2). now apply (bind_returns_intro m k x y).
Qed.

(** ** Traces of [next] calls *)

Section Traces.
Context {IterType A : Type} `{IteratorLaws IterType A}.

Lemma next_det (s : IterType) r1 s1 r2 s2 :
  next s ~~> (r1, s1) -> next s ~~> (r2, s2) -> r1 = r2 /\ s1 = s2.
Proof.
  intros H1 H2.
  pose proof (returns_det (next s) _ _ (next_mono s) H1 H2) as E.
  now inversion E.
Qed.

Lemma pulls_app (s s' s'' : IterType) rs rs' :
  pulls s rs s' -> pulls s' rs' s'' -> pulls s (rs ++ rs') s''.
Proof.
  induction 1 as [|s r s1 rs s2 Hn Hp IH]; intros Hq; simpl; [exact Hq|].
  eapply pulls_cons; [exact Hn | now apply IH].
Qed.

Lemma pulls_app_inv (s s'' : IterType) rs rs' :
  pulls s (rs ++ rs') s'' -> exists s', pulls s rs s' /\ pulls s' rs' s''.
Proof.
  revert s. induction rs as [|r rs IH]; intros s Hp; simpl in Hp.
  - exists s. split; [constructor | exact Hp].
  - inversion Hp as [|? ? s1 ? ? Hn Hq]; subst.
    destruct (IH _ Hq) as (s' & H1 & H2).
    exists s'. split; [eapply pulls_cons; eassumption | exact H2].
Qed.

Lemma pulls_one (s s' : IterType) r : next s ~~> (r, s') <-> pulls s [r] s'.
Proof.
  split.
  - intros Hn. eapply pulls_cons; [exact Hn | constructor].
  - intros Hp. inversion Hp as [|? ? s1 ? ? Hn Hq]; subst.
    inversion Hq; subst. exact Hn.
Qed.

Lemma pulls_inv (s s' : IterType) rs : inv s -> pulls s rs s' -> inv s'.
Proof.
  intros Hi Hp. induction Hp as [|s r s1 rs s2 Hn Hp IH]; [exact Hi|].
  apply IH. exact (next_inv s r s1 Hi Hn).
Qed.

(** The same number of calls from the same state gives the same results. *)
Lemma pulls_det (s s1 s2 : IterType) rs1 rs2 :
  pulls s rs1 s1 -> pulls s rs2 s2 -> length rs1 = length rs2 ->
  rs1 = rs2 /\ s1 = s2.
Proof.
  intros Hp. revert rs2 s2.
  induction Hp as [|s r sa rs sb Hn Hp IH]; intros rs2 s2 Hq Hlen.
  - destruct rs2; [|discriminate]. inversion Hq; subst. now split.
  - destruct rs2 as [|r2 rs2]; [discriminate|].
    inversion Hq as [|? ? sa2 ? ? Hn2 Hq2]; subst.
    destruct (next_det _ _ _ _ _ Hn Hn2) as [-> ->].
    destruct (IH _ _ Hq2 ltac:(simpl in Hlen; lia)) as [-> ->]. now split.
Qed.

(** A run of [pull_n] is a trace. *)
Lemma pull_n_pulls (k : nat) (fuel : nat) :
  forall (s s' : IterType) rs,
  pull_n k s fuel = Some (rs, s') -> pulls s rs s'.
Proof.
  induction k as [|k IH]; intros s s' rs Hr; simpl in Hr.
  - inversion Hr; subst. constructor.
  - unfold bind in Hr.
    destruct (next s fuel) as [[r s1]|] eqn:En; [|discriminate].
    destruct (pull_n k s1 fuel) as [[rs1 s2]|] eqn:Ep; [|discriminate].
    inversion Hr; subst.
    eapply pulls_cons; [exists fuel; exact En | exact (IH _ _ _ Ep)].
Qed.

(** One-call stickiness gives exhaustion for every later call. *)
Lemma sticky_forever `{!Sticky IterType A} (s s' : IterType) :
  inv s -> next s ~~> (None, s') -> exhausted_forever s'.
Proof.
  intros Hi Hn k. revert s s' Hi Hn.
  induction k as [|k IH]; intros s s' Hi Hn.
  - exists s'. constructor.
  - destruct (sticky s s' Hi Hn) as (s'' & Hn').
    destruct (IH s' s'' (next_inv _ _ _ Hi Hn) Hn') as (s3 & Hp).
    exists s3. simpl. eapply pulls_cons; eassumption.
Qed.

Lemma exhausted_forever_next (s : IterType) :
  exhausted_forever s -> exists s', next s ~~> (None, s') /\ exhausted_forever s'.
Proof.
  intros He. destruct (He 1%nat) as (s' & Hp). simpl in Hp.
  apply pulls_one in Hp. exists s'. split; [exact Hp|].
  intros k. destruct (He (S k)) as (s2 & Hq). simpl in Hq.
  inversion Hq as [|? ? s1 ? ? Hn Hr]; subst.
  destruct (next_det _ _ _ _ _ Hp Hn) as [_ ->]. now exists s2.
Qed.

Lemma exhausted_forever_cons (s s' : IterType) :
  next s ~~> (None, s') -> exhausted_forever s' -> exhausted_forever s.
Proof.
  intros Hn He [|k]; [eexists; constructor|].
  destruct (He k) as (s'' & Hp). exists s''. simpl. eapply pulls_cons; eassumption.
Qed.

End Traces.

(** ** Every stage obeys the laws of [next] *)

#[global] Instance CppIteratorWrapper_Laws (A : Type)
  : IteratorLaws (CppIteratorWrapper.t A) A.
Proof.
  split.
  - intros it. cbn. unfold CppIteratorWrapper.next_internal. solve_mono.
  - intros; exact I.
Qed.

#[global] Instance GeneratorIter_Laws (G A : Type) `{Generator G A}
  : IteratorLaws (GeneratorIter.t G) A.
Proof.
  split.
  - intros it. cbn. unfold GeneratorIter.next_internal. solve_mono.
  - intros; exact I.
Qed.

#[global] Instance FiniteGeneratorIter_Laws (G A : Type) `{Generator G (option A)}
  : IteratorLaws (FiniteGeneratorIter.t G) A.
Proof.
  split.
  - intros it. cbn. unfold FiniteGeneratorIter.next_internal. solve_mono.
  - intros; exact I.
Qed.

#[global] Instance EmptyIter_Laws (T : Type) : IteratorLaws (EmptyIter.t T) T.
Proof.
  split.
  - intros it. cbn. unfold EmptyIter.next_internal. solve_mono.
  - intros; exact I.
Qed.

#[global] Instance Mono_stride {IterType A : Type} `{IteratorLaws IterType A}
  (count : nat) (last : option A) (iter : IterType)
  : Mono (StepByIter.stride count last iter).
Proof.
  revert last iter. induction count as [|count IH]; intros last iter; simpl.
  - solve_mono.
  - apply Mono_bind; [apply next_mono|]. intros [r s]. apply IH.
Qed.

Lemma last_nonempty_default {X : Type} (x : X) (l : list X) (d d' : X) :
  List.last (x :: l) d = List.last (x :: l) d'.
Proof.
  revert x. induction l as [|y l IH]; intros x; [reflexivity|].
  change (List.last (y :: l) d = List.last (y :: l) d'). apply IH.
Qed.

Lemma last_cons_default {X : Type} (x : X) (l : list X) (d : X) :
  List.last (x :: l) d = List.last l x.
Proof.
  destruct l as [|y l]; [reflexivity|].
  change (List.last (y :: l) d = List.last (y :: l) x).
  apply last_nonempty_default.
Qed.

(** The striding loop is [count] calls of the upstream's [next]; it returns
    the result of the last of them. *)
Lemma stride_pulls {IterType A : Type} `{IteratorLaws IterType A}
  (count : nat) (last : option A) (iter : IterType) r iter' :
  StepByIter.stride count last iter ~~> (r, iter') <->
  exists rs, length rs = count /\ pulls iter rs iter' /\ r = List.last rs last.
Proof.
  revert last iter. induction count as [|count IH]; intros last iter; simpl.
  - rewrite ret_returns. split.
    + intros E. inversion E; subst. exists []. repeat split. constructor.
    + intros (rs & Hl & Hp & ->). destruct rs; [|discriminate].
      inversion Hp; subst. reflexivity.
  - rewrite bind_returns; [| apply next_mono | intros [? ?]; apply Mono_stride ].
    split.
    + intros ([r1 s1] & Hn & Hs). apply IH in Hs.
      destruct Hs as (rs & Hl & Hp & ->).
      exists (r1 :: rs). repeat split; [simpl; lia | eapply pulls_cons; eassumption |].
      symmetry. apply last_cons_default.
    + intros (rs & Hl & Hp & ->). destruct rs as [|r1 rs]; [discriminate|].
      inversion Hp as [|? ? s1 ? ? Hn Hq]; subst.
      exists (r1, s1). split; [exact Hn|]. apply IH.
      exists rs. repeat split; [simpl in Hl; lia | exact Hq |].
      apply last_cons_default.
Qed.

Lemma stride_inv {IterType A : Type} `{IteratorLaws IterType A}
  (count : nat) (last : option A) (iter : IterType) r iter' :
  inv iter -> StepByIter.stride count last iter ~~> (r, iter') -> inv iter'.
Proof.
  intros Hi Hs. apply stride_pulls in Hs. destruct Hs as (rs & _ & Hp & _).
  exact (pulls_inv _ _ _ Hi Hp).
Qed.

#[global] Instance StepByIter_Laws (IterType A : Type) `{IteratorLaws IterType A}
  : IteratorLaws (StepByIter.t IterType) A.
Proof.
  split.
  - intros it. cbn. unfold StepByIter.next_internal.
    destruct (StepByIter._invalid it); [solve_mono|].
    destruct (StepByIter._first it); [solve_mono|].
    apply Mono_bind; [apply Mono_stride|]. intros [? ?]. solve_mono.
  - intros it r it' Hi Hn. cbn in *. unfold StepByIter.next_internal in Hn.
    destruct (StepByIter._invalid it); [invert_run; exact Hi|].
    destruct (StepByIter._first it); invert_run; cbn.
    + eapply next_inv; eassumption.
    + eapply stride_inv; eassumption.
Qed.

#[global] Instance ChainIter_Laws (IterType ChainedIterType A : Type)
  `{IteratorLaws IterType A} `{IteratorLaws ChainedIterType A}
  : IteratorLaws (ChainIter.t IterType ChainedIterType) A.
Proof.
  split.
  - intros it. cbn. unfold ChainIter.next_internal. solve_mono.
  - intros it r it' [Hi Hc] Hn. cbn in *. unfold ChainIter.next_internal in Hn.
    invert_run; cbn; split; eauto using next_inv.
Qed.

#[global] Instance ZipIter_Laws (IterType ZippedIterType A B : Type)
  `{IteratorLaws IterType A} `{IteratorLaws ZippedIterType B}
  : IteratorLaws (ZipIter.t IterType ZippedIterType) (A * B).
Proof.
  split.
  - intros it. cbn. unfold ZipIter.next_internal. solve_mono.
  - intros it r it' [Hi Hz] Hn. cbn in *. unfold ZipIter.next_internal in Hn.
    invert_run; cbn; split; eauto using next_inv.
Qed.

#[global] Instance IntersperseWithIter_Laws (IterType SeparatorGetter A : Type)
  `{IteratorLaws IterType A} `{Generator SeparatorGetter A}
  : IteratorLaws (IntersperseWithIter.t IterType SeparatorGetter A) A.
Proof.
  split.
  - intros it. cbn. unfold IntersperseWithIter.next_internal. solve_mono.
  - intros it r it' Hi Hn. cbn in *. unfold IntersperseWithIter.next_internal in Hn.
    invert_run; cbn; eauto using next_inv.
Qed.

#[global] Instance MapIter_Laws (IterType A B : Type) `{IteratorLaws IterType A}
  : IteratorLaws (MapIter.t IterType A B) B.
Proof.
  split.
  - intros it. cbn. unfold MapIter.next_internal. solve_mono.
  - intros it r it' Hi Hn. cbn in *. unfold MapIter.next_internal in Hn.
    invert_run; cbn; eauto using next_inv.
Qed.

#[global] Instance FilterIter_Laws (IterType FilterFunction A : Type)
  `{IteratorLaws IterType A} `{Predicate FilterFunction A}
  : IteratorLaws (FilterIter.t IterType FilterFunction) A.
Proof.
  split.
  - intros it. cbn. unfold FilterIter.next_internal. solve_mono.
  - intros it r it' Hi Hn. cbn in *. unfold FilterIter.next_internal in Hn.
    refine (loop_returns_ind _
              (fun st res => inv (FilterIter._iter st) -> inv (FilterIter._iter (snd res)))
              _ _ it (r, it') Hn Hi).
    + intros st res Hb Hst. invert_run; cbn; eauto using next_inv.
    + intros st st' res Hb _ IH Hst. apply IH.
      invert_run; cbn; eauto using next_inv.
Qed.

#[global] Instance FilterMapIter_Laws (IterType A B : Type) `{IteratorLaws IterType A}
  : IteratorLaws (FilterMapIter.t IterType A B) B.
Proof.
  split.
  - intros it. cbn. unfold FilterMapIter.next_internal. solve_mono.
  - intros it r it' Hi Hn. cbn in *. unfold FilterMapIter.next_internal in Hn.
    refine (loop_returns_ind _
              (fun st res => inv (FilterMapIter._iter st) -> inv (FilterMapIter._iter (snd res)))
              _ _ it (r, it') Hn Hi).
    + intros st res Hb Hst. invert_run; cbn; eauto using next_inv.
    + intros st st' res Hb _ IH Hst. apply IH.
      invert_run; cbn; eauto using next_inv.
Qed.

#[global] Instance PeekableIter_Laws (IterType A : Type) `{IteratorLaws IterType A}
  : IteratorLaws (PeekableIter.t IterType A) A.
Proof.
  split.
  - intros it. cbn. unfold PeekableIter.next_internal. solve_mono.
  - intros it r it' [Hi Hk] Hn. cbn in *. unfold PeekableIter.next_internal in Hn.
    invert_run; cbn; split; eauto using next_inv; discriminate.
Qed.

#[global] Instance SkipWhileIter_Laws (IterType Pred A : Type)
  `{IteratorLaws IterType A} `{Predicate Pred A}
  : IteratorLaws (SkipWhileIter.t IterType Pred) A.
Proof.
  split.
  - intros it. cbn. unfold SkipWhileIter.next_internal. solve_mono.
  - intros it r it' Hi Hn. cbn in *. unfold SkipWhileIter.next_internal in Hn.
    destruct (negb (SkipWhileIter._done it)).
    + refine (loop_returns_ind _
                (fun st res => inv (SkipWhileIter._iter st)
                               -> inv (SkipWhileIter._iter (snd res)))
                _ _ _ (r, it') Hn Hi).
      * intros st res Hb Hst. invert_run; cbn; eauto using next_inv.
      * intros st st' res Hb _ IH Hst. apply IH.
        invert_run; cbn; eauto using next_inv.
    + invert_run; cbn; eauto using next_inv.
Qed.

#[global] Instance TakeWhileIter_Laws (IterType Pred A : Type)
  `{IteratorLaws IterType A} `{Predicate Pred A}
  : IteratorLaws (TakeWhileIter.t IterType Pred) A.
Proof.
  split.
  - intros it. cbn. unfold TakeWhileIter.next_internal. solve_mono.
  - intros it r it' Hi Hn. cbn in *. unfold TakeWhileIter.next_internal in Hn.
    invert_run; cbn; eauto using next_inv.
Qed.

#[global] Instance Mono_advance {IterType InnerIterType : Type}
  `{IteratorLaws IterType InnerIterType} (it : FlattenIter.t IterType InnerIterType)
  : Mono (FlattenIter.advance it).
Proof. unfold FlattenIter.advance. solve_mono. Qed.

#[global] Instance FlattenIter_Laws (IterType InnerIterType A : Type)
  `{IteratorLaws IterType InnerIterType} `{IteratorLaws InnerIterType A}
  : IteratorLaws (FlattenIter.t IterType InnerIterType) A.
Proof.
  split.
  - intros it. cbn. unfold FlattenIter.next_internal.
    apply Mono_loop. intros st. destruct (FlattenIter._innerIter st); [|solve_mono].
    apply Mono_bind; [apply next_mono|]. intros [[v|] inner']; [solve_mono|].
    apply Mono_bind; [apply Mono_advance|]. intros [[|] st']; solve_mono.
  - intros it r it' Hi Hn. cbn in *. unfold FlattenIter.next_internal in Hn.
    refine (loop_returns_ind _
              (fun st res => inv (FlattenIter._iter st) -> inv (FlattenIter._iter (snd res)))
              _ _ it (r, it') Hn Hi).
    + intros st res Hb Hst. unfold FlattenIter.advance in Hb.
      invert_run; cbn in *; eauto using next_inv.
    + intros st st' res Hb _ IH Hst. apply IH. unfold FlattenIter.advance in Hb.
      invert_run; cbn in *; eauto using next_inv.
Qed.

#[global] Instance InspectIter_Laws (IterType InspectCallback A : Type)
  `{IteratorLaws IterType A} `{Callback InspectCallback A}
  : IteratorLaws (InspectIter.t IterType InspectCallback) A.
Proof.
  split.
  - intros it. cbn. unfold InspectIter.next_internal. solve_mono.
  - intros it r it' Hi Hn. cbn in *. unfold InspectIter.next_internal in Hn.
    invert_run; cbn; eauto using next_inv.
Qed.

#[global] Instance CycleIter_Laws (IterType A : Type) `{IteratorLaws IterType A}
  : IteratorLaws (CycleIter.t IterType) A.
Proof.
  split.
  - intros it. cbn. unfold CycleIter.next_internal. solve_mono.
  - intros it r it' [Ho Hi] Hn. cbn in *. unfold CycleIter.next_internal in Hn.
    invert_run; cbn; split; eauto using next_inv.
Qed.

#[global] Instance Counted_Laws (IterType A : Type) `{IteratorLaws IterType A}
  : IteratorLaws (Counted.t IterType) A.
Proof.
  split.
  - intros it. cbn. unfold Counted.next_internal. solve_mono.
  - intros it r it' Hi Hn. cbn in *. unfold Counted.next_internal in Hn.
    invert_run; cbn; eauto using next_inv.
Qed.

(** ** The constructors establish the invariant *)

(** The invariant of a stage is that of its upstreams; [peekable] adds that
    the look-ahead slot never holds "known, but has no value".  Only the
    three constructors below do more than store their arguments. *)
Lemma peekable_new_inv {IterType A : Type} `{Iterator IterType A} (this : IterType) :
  inv this -> inv (IterBase.peekable (A := A) this).
Proof. intros Hi. split; [exact Hi | discriminate]. Qed.

Lemma intersperse_with_new_inv {IterType G A : Type} `{IteratorLaws IterType A}
  `{Generator G A} (this : IterType) (g : G) it :
  inv this -> IterBase.intersperse_with this g ~~> it -> inv it.
Proof.
  intros Hi Hb. unfold IterBase.intersperse_with, IntersperseWithIter.new in Hb.
  invert_run; cbn; eauto using next_inv.
Qed.

Lemma flatten_new_inv {IterType InnerIterType A : Type}
  `{IteratorLaws IterType InnerIterType} `{Iterator InnerIterType A}
  (this : IterType) (it : FlattenIter.t IterType InnerIterType) :
  inv this -> IterBase.flatten this ~~> it -> inv it.
Proof.
  intros Hi Hb. unfold IterBase.flatten, FlattenIter.new, FlattenIter.advance in Hb.
  invert_run; cbn; eauto using next_inv.
Qed.

(** ** Exhaustion is permanent *)

#[global] Instance CppIteratorWrapper_Sticky (A : Type)
  : Sticky (CppIteratorWrapper.t A) A.
Proof.
  intros s s' _ Hn. cbn in *. unfold CppIteratorWrapper.next_internal in *.
  destruct (CppIteratorWrapper._range s) eqn:E; invert_run.
  exists s'. rewrite E. run_ret.
Qed.

#[global] Instance GeneratorIter_Sticky (G A : Type) `{Generator G A}
  : Sticky (GeneratorIter.t G) A.
Proof.
  intros s s' _ Hn. cbn in *. unfold GeneratorIter.next_internal in *.
  invert_run.
Qed.

#[global] Instance FiniteGeneratorIter_Sticky (G A : Type) `{Generator G (option A)}
  : Sticky (FiniteGeneratorIter.t G) A.
Proof.
  intros s s' _ Hn. cbn in *. unfold FiniteGeneratorIter.next_internal in *.
  destruct (FiniteGeneratorIter._done s) eqn:E; invert_run.
  - exists s'. rewrite E. run_ret.
  - eexists. cbn. run_ret.
Qed.

#[global] Instance EmptyIter_Sticky (T : Type) : Sticky (EmptyIter.t T) T.
Proof. intros s s' _ _. exists s'. cbn. run_ret. Qed.

Lemma last_repeat_None {A : Type} (k : nat) :
  List.last (List.repeat (@None A) k) None = None.
Proof.
  induction k as [|k IH]; [reflexivity|].
  simpl List.repeat. rewrite last_cons_default. exact IH.
Qed.

(** Striding over an exhausted upstream returns null. *)
Lemma stride_exhausted {IterType A : Type} `{IteratorLaws IterType A}
  (count : nat) (iter : IterType) :
  exhausted_forever iter ->
  exists iter', StepByIter.stride count None iter ~~> (None, iter').
Proof.
  intros He. destruct (He count) as (iter' & Hp). exists iter'.
  apply stride_pulls. exists (List.repeat None count).
  rewrite repeat_length, last_repeat_None. now repeat split.
Qed.

#[global] Instance StepByIter_Sticky (IterType A : Type)
  `{IteratorLaws IterType A} `{!Sticky IterType A}
  : Sticky (StepByIter.t IterType) A.
Proof.
  intros s s' Hi Hn. cbn in *. unfold StepByIter.next_internal in *.
  destruct (StepByIter._invalid s) eqn:Ev.
  { invert_run. exists s'. rewrite Ev. run_ret. }
  assert (Hgo : forall iter, exhausted_forever iter ->
            exists s'', StepByIter.next_internal
              (StepByIter.mk iter (StepByIter._stepSize s) false false)
              ~~> (None, s'')).
  { intros iter He.
    destruct (stride_exhausted (Z.to_nat (StepByIter._stepSize s)) iter He)
      as (iter' & Hs).
    eexists. unfold StepByIter.next_internal. cbn.
    run_bind Hs. run_ret. }
  destruct (StepByIter._first s) eqn:Ef; invert_run.
  - apply Hgo. eapply sticky_forever; eassumption.
  - match goal with
    | Hs : StepByIter.stride _ _ _ ~~> _ |- _ =>
        apply stride_pulls in Hs; destruct Hs as (rs & Hl & Hp & Hlast)
    end.
    destruct rs as [|r0 rs0 _] using rev_ind.
    + (* no stride at all: the state does not change *)
      inversion Hp; subst. simpl in Hl.
      eexists. unfold StepByIter.next_internal. cbn. rewrite <- Hl. cbn.
      run_bind (proj2 (ret_returns (@None A, StepByIter._iter s) _) eq_refl).
      run_ret.
    + apply Hgo. rewrite last_last in Hlast. subst.
      apply pulls_app_inv in Hp. destruct Hp as (s1 & Hp1 & Hp2).
      apply pulls_one in Hp2.
      eapply sticky_forever; [exact (pulls_inv _ _ _ Hi Hp1) | exact Hp2].
Qed.


(** The upstream was exhausted by the call just made: ask it again. *)
Ltac upstream_again u2 Hu2 :=
  match goal with
  | Hi : inv ?u, Hu : next ?u ~~> (None, ?u') |- _ =>
      destruct (sticky u u' Hi Hu) as (u2 & Hu2)
  end.

#[global] Instance ChainIter_Sticky (IterType ChainedIterType A : Type)
  `{IteratorLaws IterType A} `{IteratorLaws ChainedIterType A}
  `{!Sticky ChainedIterType A}
  : Sticky (ChainIter.t IterType ChainedIterType) A.
Proof.
  intros s s' [Hi Hc] Hn. cbn in *. unfold ChainIter.next_internal in *.
  destruct (ChainIter._firstDone s) eqn:E; cbn in Hn; invert_run;
    upstream_again c2 Hc2; eexists; cbn; run_bind Hc2; run_ret.
Qed.

#[global] Instance ZipIter_Sticky (IterType ZippedIterType A B : Type)
  `{Iterator IterType A} `{Iterator ZippedIterType B}
  : Sticky (ZipIter.t IterType ZippedIterType) (A * B).
Proof.
  intros s s' _ Hn. cbn in *. unfold ZipIter.next_internal in *.
  destruct (ZipIter._anyDone s) eqn:E; invert_run.
  - exists s'. rewrite E. run_ret.
  - eexists. cbn. run_ret.
  - eexists. cbn. run_ret.
Qed.

#[global] Instance IntersperseWithIter_Sticky (IterType SeparatorGetter A : Type)
  `{Iterator IterType A} `{Generator SeparatorGetter A}
  : Sticky (IntersperseWithIter.t IterType SeparatorGetter A) A.
Proof.
  intros s s' _ Hn. cbn in *. unfold IntersperseWithIter.next_internal in *.
  destruct (IntersperseWithIter._separatorIsNext s) eqn:E;
    destruct (IntersperseWithIter._nextResult s) eqn:E'; invert_run.
  exists s'. rewrite E, E'. run_ret.
Qed.

#[global] Instance MapIter_Sticky (IterType A B : Type)
  `{IteratorLaws IterType A} `{!Sticky IterType A}
  : Sticky (MapIter.t IterType A B) B.
Proof.
  intros s s' Hi Hn. cbn in *. unfold MapIter.next_internal in *.
  invert_run. upstream_again u2 Hu2. eexists. cbn. run_bind Hu2. run_ret.
Qed.

#[global] Instance FilterIter_Sticky (IterType FilterFunction A : Type)
  `{IteratorLaws IterType A} `{!Sticky IterType A} `{Predicate FilterFunction A}
  : Sticky (FilterIter.t IterType FilterFunction) A.
Proof.
  intros s s' Hi Hn. cbn in *. unfold FilterIter.next_internal in Hn.
  refine (loop_returns_ind _
            (fun st res => inv (FilterIter._iter st) -> fst res = None ->
                           exists s'', FilterIter.next_internal (snd res) ~~> (None, s''))
            _ _ s (None, s') Hn Hi eq_refl).
  - intros st res Hb Hst Hres. invert_run; try discriminate.
    upstream_again u2 Hu2. eexists. unfold FilterIter.next_internal.
    apply loop_returns_exit. cbn. run_bind Hu2. run_ret.
  - intros st st' res Hb _ IH Hst. apply IH.
    invert_run; cbn; eauto using next_inv.
Qed.

#[global] Instance FilterMapIter_Sticky (IterType A B : Type)
  `{IteratorLaws IterType A} `{!Sticky IterType A}
  : Sticky (FilterMapIter.t IterType A B) B.
Proof.
  intros s s' Hi Hn. cbn in *. unfold FilterMapIter.next_internal in Hn.
  refine (loop_returns_ind _
            (fun st res => inv (FilterMapIter._iter st) -> fst res = None ->
                           exists s'', FilterMapIter.next_internal (snd res) ~~> (None, s''))
            _ _ s (None, s') Hn Hi eq_refl).
  - intros st res Hb Hst Hres. invert_run; try discriminate.
    upstream_again u2 Hu2. eexists. unfold FilterMapIter.next_internal.
    apply loop_returns_exit. cbn. run_bind Hu2. run_ret.
  - intros st st' res Hb _ IH Hst. apply IH.
    invert_run; cbn; eauto using next_inv.
Qed.

#[global] Instance PeekableIter_Sticky (IterType A : Type)
  `{IteratorLaws IterType A} `{!Sticky IterType A}
  : Sticky (PeekableIter.t IterType A) A.
Proof.
  intros s s' [Hi Hk] Hn. cbn in *. unfold PeekableIter.next_internal in *.
  destruct (PeekableIter._nextItem s) as [[v|]|] eqn:E; invert_run.
  - now elim Hk.
  - upstream_again u2 Hu2. eexists. cbn. run_bind Hu2. run_ret.
Qed.

#[global] Instance SkipWhileIter_Sticky (IterType Pred A : Type)
  `{IteratorLaws IterType A} `{!Sticky IterType A} `{Predicate Pred A}
  : Sticky (SkipWhileIter.t IterType Pred) A.
Proof.
  intros s s' Hi Hn. cbn in *. unfold SkipWhileIter.next_internal in Hn.
  destruct (SkipWhileIter._done s) eqn:E; cbn in Hn.
  - invert_run. upstream_again u2 Hu2. eexists.
    unfold SkipWhileIter.next_internal. cbn.
    run_bind Hu2. run_ret.
  - refine (loop_returns_ind _
              (fun st res => inv (SkipWhileIter._iter st) -> fst res = None ->
                 exists s'', SkipWhileIter.next_internal (snd res) ~~> (None, s''))
              _ _ _ (None, s') Hn Hi eq_refl).
    + intros st res Hb Hst Hres. invert_run; try discriminate.
      upstream_again u2 Hu2. eexists. unfold SkipWhileIter.next_internal. cbn.
      run_bind Hu2. run_ret.
    + intros st st' res Hb _ IH Hst. apply IH.
      invert_run; cbn; eauto using next_inv.
Qed.

#[global] Instance TakeWhileIter_Sticky (IterType Pred A : Type)
  `{Iterator IterType A} `{Predicate Pred A}
  : Sticky (TakeWhileIter.t IterType Pred) A.
Proof.
  intros s s' _ Hn. cbn in *. unfold TakeWhileIter.next_internal in *.
  destruct (TakeWhileIter._done s) eqn:E; invert_run.
  - exists s'. rewrite E. run_ret.
  - eexists. cbn. run_ret.
  - eexists. cbn. run_ret.
Qed.

#[global] Instance FlattenIter_Sticky (IterType InnerIterType A : Type)
  `{Iterator IterType InnerIterType} `{Iterator InnerIterType A}
  : Sticky (FlattenIter.t IterType InnerIterType) A.
Proof.
  intros s s' _ Hn. cbn in *. unfold FlattenIter.next_internal in Hn.
  refine (loop_returns_ind _
            (fun st res => fst res = None ->
               exists s'', FlattenIter.next_internal (snd res) ~~> (None, s''))
            _ _ s (None, s') Hn eq_refl).
  - intros st res Hb Hres. unfold FlattenIter.advance in Hb.
    destruct (FlattenIter._innerIter st) eqn:E; invert_run; try discriminate.
    + eexists. unfold FlattenIter.next_internal. apply loop_returns_exit. cbn.
      run_ret.
    + eexists. unfold FlattenIter.next_internal. apply loop_returns_exit.
      cbn. rewrite E. run_ret.
  - intros st st' res Hb _ IH. exact IH.
Qed.

#[global] Instance InspectIter_Sticky (IterType InspectCallback A : Type)
  `{IteratorLaws IterType A} `{!Sticky IterType A} `{Callback InspectCallback A}
  : Sticky (InspectIter.t IterType InspectCallback) A.
Proof.
  intros s s' Hi Hn. cbn in *. unfold InspectIter.next_internal in *.
  invert_run. upstream_again u2 Hu2. eexists. cbn. run_bind Hu2. run_ret.
Qed.

#[global] Instance CycleIter_Sticky (IterType A : Type)
  `{IteratorLaws IterType A} `{!Sticky IterType A}
  : Sticky (CycleIter.t IterType) A.
Proof.
  intros s s' [Ho Hi] Hn. cbn in *. unfold CycleIter.next_internal in *.
  destruct (CycleIter._iterIsEmpty s) eqn:E; invert_run.
  - (* the first pass was empty *)
    upstream_again u2 Hu2. eexists. cbn. run_bind Hu2. run_ret.
  - (* a fresh copy of the original signalled exhaustion at once *)
    match goal with
    | Hf : next (CycleIter._originalIter s) ~~> (None, ?f) |- _ =>
        destruct (sticky _ _ Ho Hf) as (f2 & Hf2);
        eexists; cbn; run_bind Hf2; run_bind Hf; run_ret
    end.
Qed.

#[global] Instance Counted_Sticky (IterType A : Type)
  `{IteratorLaws IterType A} `{!Sticky IterType A}
  : Sticky (Counted.t IterType) A.
Proof.
  intros s s' Hi Hn. cbn in *. unfold Counted.next_internal in *.
  invert_run. upstream_again u2 Hu2. eexists. cbn. run_bind Hu2. run_ret.
Qed.

Lemma permanently_of_sticky (IterType A : Type) `{IteratorLaws IterType A} :
  Sticky IterType A -> permanently_exhausting IterType A.
Proof. intros Hs s s' Hi Hn. eapply sticky_forever; eassumption. Qed.

Lemma sticky_of_permanently (IterType A : Type) `{IteratorLaws IterType A} :
  permanently_exhausting IterType A -> Sticky IterType A.
Proof.
  intros Hp s s' Hi Hn. destruct (Hp s s' Hi Hn 1%nat) as (s'' & Hq).
  exists s''. now apply pulls_one.
Qed.

Ltac permanent :=
  intros;
  repeat match goal with
  | Hp : permanently_exhausting _ _ |- _ =>
      apply sticky_of_permanently in Hp; [ | assumption ]
  end;
  apply permanently_of_sticky; typeclasses eauto.

(** C1. Exhaustion is permanent.  For every leaf producer, and for every
    adaptor whose upstream sequences obey the protocol and exhaust
    permanently: once a call of [next] has signalled exhaustion, each of the
    following calls returns (it is well defined, it does not fail or run
    forever) and signals exhaustion again. *)
Theorem exhaustion_is_permanent :
  (forall A : Type, permanently_exhausting (CppIteratorWrapper.t A) A) /\
  (forall (G A : Type) `(Generator G A), permanently_exhausting (GeneratorIter.t G) A) /\
  (forall (G A : Type) `(Generator G (option A)),
      permanently_exhausting (FiniteGeneratorIter.t G) A) /\
  (forall T : Type, permanently_exhausting (EmptyIter.t T) T) /\
  (forall (I A : Type) `(IteratorLaws I A),
      permanently_exhausting I A -> permanently_exhausting (StepByIter.t I) A) /\
  (forall (I J A : Type) `(IteratorLaws I A) `(IteratorLaws J A),
      permanently_exhausting I A -> permanently_exhausting J A ->
      permanently_exhausting (ChainIter.t I J) A) /\
  (forall (I J A B : Type) `(IteratorLaws I A) `(IteratorLaws J B),
      permanently_exhausting I A -> permanently_exhausting J B ->
      permanently_exhausting (ZipIter.t I J) (A * B)) /\
  (forall (I G A : Type) `(IteratorLaws I A) `(Generator G A),
      permanently_exhausting I A ->
      permanently_exhausting (IntersperseWithIter.t I G A) A) /\
  (forall (I A B : Type) `(IteratorLaws I A),
      permanently_exhausting I A -> permanently_exhausting (MapIter.t I A B) B) /\
  (forall (I F A : Type) `(IteratorLaws I A) `(Predicate F A),
      permanently_exhausting I A -> permanently_exhausting (FilterIter.t I F) A) /\
  (forall (I A B : Type) `(IteratorLaws I A),
      permanently_exhausting I A -> permanently_exhausting (FilterMapIter.t I A B) B) /\
  (forall (I A : Type) `(IteratorLaws I A),
      permanently_exhausting I A -> permanently_exhausting (PeekableIter.t I A) A) /\
  (forall (I P A : Type) `(IteratorLaws I A) `(Predicate P A),
      permanently_exhausting I A -> permanently_exhausting (SkipWhileIter.t I P) A) /\
  (forall (I P A : Type) `(IteratorLaws I A) `(Predicate P A),
      permanently_exhausting I A -> permanently_exhausting (TakeWhileIter.t I P) A) /\
  (forall (I J A : Type) `(IteratorLaws I J) `(IteratorLaws J A),
      permanently_exhausting I J -> permanently_exhausting J A ->
      permanently_exhausting (FlattenIter.t I J) A) /\
  (forall (I C A : Type) `(IteratorLaws I A) `(Callback C A),
      permanently_exhausting I A -> permanently_exhausting (InspectIter.t I C) A) /\
  (forall (I A : Type) `(IteratorLaws I A),
      permanently_exhausting I A -> permanently_exhausting (CycleIter.t I) A).
Proof.
  repeat match goal with |- _ /\ _ => split end; permanent.
Qed.

(** ** Finite sequences *)

Section Yields.
Context {IterType A : Type} `{IteratorLaws IterType A}.

Lemma yields_nil (s s' : IterType) : yields s [] s' <-> next s ~~> (None, s').
Proof. unfold yields. simpl. symmetry. apply pulls_one. Qed.

Lemma yields_cons (a : A) (l : list A) (s s' : IterType) :
  yields s (a :: l) s' <-> exists s1, next s ~~> (Some a, s1) /\ yields s1 l s'.
Proof.
  unfold yields. simpl. split.
  - intros Hp. inversion Hp as [|? ? s1 ? ? Hn Hq]; subst. now exists s1.
  - intros (s1 & Hn & Hq). eapply pulls_cons; eassumption.
Qed.

(** A finite sequence yields one list of items only. *)
Lemma yields_det (s s1 s2 : IterType) (l1 l2 : list A) :
  yields s l1 s1 -> yields s l2 s2 -> l1 = l2 /\ s1 = s2.
Proof.
  revert s l2. induction l1 as [|a l1 IH]; intros s l2 H1 H2.
  - apply yields_nil in H1. destruct l2 as [|b l2].
    + apply yields_nil in H2. destruct (next_det _ _ _ _ _ H1 H2) as [_ ->]. now split.
    + apply yields_cons in H2. destruct H2 as (sx & Hn & _).
      destruct (next_det _ _ _ _ _ H1 Hn) as [E _]. discriminate.
  - apply yields_cons in H1. destruct H1 as (sx & Hn & Hy). destruct l2 as [|b l2].
    + apply yields_nil in H2. destruct (next_det _ _ _ _ _ Hn H2) as [E _]. discriminate.
    + apply yields_cons in H2. destruct H2 as (sy & Hn2 & Hy2).
      destruct (next_det _ _ _ _ _ Hn Hn2) as [E ->]. inversion E; subst.
      destruct (IH _ _ Hy Hy2) as [-> ->]. now split.
Qed.

(** [collect] returns the items a finite sequence yields. *)
Lemma collect_yields (l : list A) :
  forall (s s' : IterType) (acc : list A),
  yields s l s' ->
  loop (fun '(coll, st) =>
          '(value, st') <- next st ;;
          match value with
          | Some v => ret (inl (coll ++ [v], st'))
          | None => ret (inr (coll, st'))
          end) (acc, s) ~~> (acc ++ l, s').
Proof.
  induction l as [|a l IH]; intros s s' acc Hy.
  - apply yields_nil in Hy. rewrite app_nil_r.
    apply loop_returns_exit. run_bind Hy. run_ret.
  - apply yields_cons in Hy. destruct Hy as (s1 & Hn & Hy).
    eapply loop_returns_continue.
    + intros [coll st]. solve_mono.
    + run_bind Hn. run_ret.
    + replace (acc ++ a :: l) with ((acc ++ [a]) ++ l) by now rewrite <- app_assoc.
      now apply IH.
Qed.

Lemma collect_of_yields (s s' : IterType) (l : list A) :
  yields s l s' -> IterBase.collect s ~~> (l, s').
Proof. intros Hy. exact (collect_yields l s s' [] Hy). Qed.

End Yields.

(** ** [zip] *)

Section Zip.
Context {IterType ZippedIterType A B : Type}.
Context `{IteratorLaws IterType A} `{IteratorLaws ZippedIterType B}.

(** One step of [zip] on a sequence that is not done: both upstreams are
    advanced, whatever they return. *)
Lemma zip_next_run (sa sa1 : IterType) (sb sb1 : ZippedIterType) ra rb :
  next sa ~~> (ra, sa1) -> next sb ~~> (rb, sb1) ->
  next (ZipIter.mk sa sb false)
    ~~> (match ra, rb with
         | Some a, Some b => (Some (a, b), ZipIter.mk sa1 sb1 false)
         | _, _ => (None, ZipIter.mk sa1 sb1 true)
         end).
Proof.
  intros Ha Hb. cbn. unfold ZipIter.next_internal. cbn.
  run_bind Ha. run_bind Hb. destruct ra, rb; run_ret.
Qed.

(** [zip] runs its sources in lockstep and stops at the first step in which
    one of them is exhausted, whatever the other one returned in that step. *)
Lemma zip_lockstep (la : list A) :
  forall (lb : list B) (sa sa1 : IterType) (sb sb1 : ZippedIterType) ra rb,
  length la = length lb -> ra = None \/ rb = None ->
  pulls sa (List.map Some la ++ [ra]) sa1 ->
  pulls sb (List.map Some lb ++ [rb]) sb1 ->
  yields (ZipIter.mk sa sb false) (combine la lb) (ZipIter.mk sa1 sb1 true).
Proof.
  induction la as [|a la IH]; intros lb sa sa1 sb sb1 ra rb Hl Hr Ha Hb;
    destruct lb as [|b lb]; try discriminate; simpl in Ha, Hb.
  - apply pulls_one in Ha. apply pulls_one in Hb. apply yields_nil.
    pose proof (zip_next_run _ _ _ _ ra rb Ha Hb) as Hz.
    destruct Hr as [-> | ->]; [exact Hz | destruct ra; exact Hz].
  - inversion Ha as [|? ? sa2 ? ? Hna Hpa]; subst.
    inversion Hb as [|? ? sb2 ? ? Hnb Hpb]; subst.
    simpl combine. apply yields_cons. exists (ZipIter.mk sa2 sb2 false). split.
    + exact (zip_next_run _ _ _ _ (Some a) (Some b) Hna Hnb).
    + apply (IH lb sa2 sa1 sb2 sb1 ra rb); auto.
Qed.

Lemma zip_yields_combine (la : list A) :
  forall (lb : list B) (sa sa' : IterType) (sb sb' : ZippedIterType),
  yields sa la sa' -> yields sb lb sb' ->
  exists z',
    yields (ZipIter.mk sa sb false) (combine la lb) z' /\
    ZipIter._anyDone z' = true /\
    pulls sa (firstn (S (Nat.min (length la) (length lb))) (List.map Some la ++ [None]))
          (ZipIter._iter z') /\
    pulls sb (firstn (S (Nat.min (length la) (length lb))) (List.map Some lb ++ [None]))
          (ZipIter._zippedIter z').
Proof.
  induction la as [|a la IH]; intros lb sa sa' sb sb' Ha Hb.
  - apply yields_nil in Ha.
    assert (Hb1 : exists rb sb1, next sb ~~> (rb, sb1) /\
                    firstn 1 (List.map Some lb ++ [None]) = [rb]).
    { destruct lb as [|b lb].
      - apply yields_nil in Hb. now exists None, sb'.
      - apply yields_cons in Hb. destruct Hb as (sb1 & Hn & _). now exists (Some b), sb1. }
    destruct Hb1 as (rb & sb1 & Hn & Hf).
    exists (ZipIter.mk sa' sb1 true). simpl combine. simpl Nat.min.
    rewrite Hf. repeat split.
    + apply yields_nil. exact (zip_next_run _ _ _ _ None rb Ha Hn).
    + simpl. now apply pulls_one.
    + now apply pulls_one.
  - apply yields_cons in Ha. destruct Ha as (sa1 & Hna & Hya).
    destruct lb as [|b lb].
    + apply yields_nil in Hb.
      exists (ZipIter.mk sa1 sb' true). simpl. repeat split.
      * apply yields_nil. exact (zip_next_run _ _ _ _ (Some a) None Hna Hb).
      * now apply pulls_one.
      * now apply pulls_one.
    + apply yields_cons in Hb. destruct Hb as (sb1 & Hnb & Hyb).
      destruct (IH lb sa1 sa' sb1 sb' Hya Hyb) as (z' & Hy & Hd & Hpa & Hpb).
      exists z'. repeat split.
      * simpl combine. apply yields_cons. exists (ZipIter.mk sa1 sb1 false).
        split; [|exact Hy]. exact (zip_next_run _ _ _ _ (Some a) (Some b) Hna Hnb).
      * exact Hd.
      * simpl. simpl in Hpa. eapply pulls_cons; eassumption.
      * simpl. simpl in Hpb. eapply pulls_cons; eassumption.
Qed.

End Zip.

Lemma nth_error_combine {A B : Type} (la : list A) (lb : list B) (i : nat) (a : A) (b : B) :
  nth_error la i = Some a -> nth_error lb i = Some b ->
  nth_error (combine la lb) i = Some (a, b).
Proof.
  revert lb i. induction la as [|x la IH]; intros lb i Ha Hb.
  - destruct i; discriminate.
  - destruct lb as [|y lb]; [destruct i; discriminate|].
    destruct i as [|i]; simpl in *; [congruence | now apply IH].
Qed.

(** C3. [zip(A, B)] of two finite sequences yields exactly
    [min(length A, length B)] pairs, the i-th pair holding the i-th item of
    [A] and the i-th item of [B]; the call after the last pair signals
    exhaustion and marks the zip as done.  By then each source has been
    advanced [min + 1] times: the results of the last step, among them the
    item of the longer source, are dropped.  More generally (one source may
    be infinite): if both sources return items for [k] steps and one of them
    is exhausted in step [k + 1], the zip yields the [k] pairs and is then
    exhausted, both sources having made step [k + 1]. *)
Theorem zip_yields_min_pairs
  (IterType ZippedIterType A B : Type)
  `(IteratorLaws IterType A) `(IteratorLaws ZippedIterType B) :
  (forall (sa sa' : IterType) (sb sb' : ZippedIterType) (la : list A) (lb : list B),
      yields sa la sa' -> yields sb lb sb' ->
      let n := Nat.min (length la) (length lb) in
      exists (out : list (A * B)) (z' : ZipIter.t IterType ZippedIterType),
        yields (IterBase.zip sa sb) out z' /\
        IterBase.collect (IterBase.zip sa sb) ~~> (out, z') /\
        length out = n /\
        (forall i a b, nth_error la i = Some a -> nth_error lb i = Some b ->
                       nth_error out i = Some (a, b)) /\
        ZipIter._anyDone z' = true /\
        pulls sa (firstn (S n) (List.map Some la ++ [None])) (ZipIter._iter z') /\
        pulls sb (firstn (S n) (List.map Some lb ++ [None])) (ZipIter._zippedIter z')) /\
  (forall (sa sa1 : IterType) (sb sb1 : ZippedIterType) (la : list A) (lb : list B)
          (ra : option A) (rb : option B),
      length la = length lb -> ra = None \/ rb = None ->
      pulls sa (List.map Some la ++ [ra]) sa1 ->
      pulls sb (List.map Some lb ++ [rb]) sb1 ->
      yields (IterBase.zip sa sb) (combine la lb) (ZipIter.mk sa1 sb1 true)).
Proof.
  split.
  - intros sa sa' sb sb' la lb Ha Hb n.
    destruct (zip_yields_combine la lb sa sa' sb sb' Ha Hb)
      as (z' & Hy & Hd & Hpa & Hpb).
    exists (combine la lb), z'. repeat split; try assumption.
    + now apply collect_of_yields.
    + apply length_combine.
    + intros i a b. apply nth_error_combine.
  - intros sa sa1 sb sb1 la lb ra rb. apply zip_lockstep.
Qed.

(** ** [step_by] *)

(** C5. For every upstream sequence, even one whose [next] would never
    return, and every step size [n <= 0]: each call of [next] on
    [step_by(n)], from the very first one, returns at once with "exhausted"
    and leaves the stage as it was built, the captured upstream included
    (it is never advanced); collecting it gives the empty collection. *)
Theorem step_by_nonpositive_is_empty
  (IterType A : Type) `(Iterator IterType A) (this : IterType) (stepSize : Z) :
  stepSize <= 0 ->
  (forall fuel : nat,
      next (IterBase.step_by this stepSize) fuel
      = Some (None, IterBase.step_by this stepSize)) /\
  StepByIter._iter (IterBase.step_by this stepSize) = this /\
  (forall k : nat,
      pulls (IterBase.step_by this stepSize) (List.repeat None k)
            (IterBase.step_by this stepSize)) /\
  IterBase.collect (IterBase.step_by this stepSize)
    ~~> ([], IterBase.step_by this stepSize).
Proof.
  intros Hle.
  assert (Hnext : forall fuel : nat,
             next (IterBase.step_by this stepSize) fuel
             = Some (None, IterBase.step_by this stepSize)).
  { intros fuel. cbn. unfold StepByIter.next_internal, IterBase.step_by, StepByIter.new.
    cbn. apply Z.leb_le in Hle. rewrite Hle. reflexivity. }
  repeat split.
  - exact Hnext.
  - induction k as [|k IH]; simpl; [constructor|].
    eapply pulls_cons; [|exact IH]. exists O. apply Hnext.
  - exists 1%nat. unfold IterBase.collect. cbn [loop]. unfold bind.
    rewrite Hnext. reflexivity.
Qed.

Lemma last_nth_error {X : Type} (l : list X) (d : X) :
  l <> [] -> nth_error l (length l - 1) = Some (List.last l d).
Proof.
  induction l as [|x l IH]; intros Hne; [congruence|].
  destruct l as [|y l]; [reflexivity|].
  change (List.last (x :: y :: l) d) with (List.last (y :: l) d).
  rewrite <- IH by discriminate. simpl. now rewrite Nat.sub_0_r.
Qed.

Section StepBy.
Context {IterType A : Type} `{IteratorLaws IterType A}.
Variable stepSize : Z.
Hypothesis stepSize_pos : 1 <= stepSize.

Local Abbreviation n := (Z.to_nat stepSize).
Local Abbreviation later s := (StepByIter.mk s stepSize false false).

Lemma step_by_n_pos : (1 <= n)%nat.
Proof. lia. Qed.

(** The first call forwards one upstream call. *)
Lemma step_by_first (this s1 : IterType) r :
  next this ~~> (r, s1) -> next (IterBase.step_by this stepSize) ~~> (r, later s1).
Proof.
  intros Hn. cbn. unfold StepByIter.next_internal, IterBase.step_by, StepByIter.new.
  cbn. replace (stepSize <=? 0) with false by (symmetry; apply Z.leb_gt; lia).
  run_bind Hn. run_ret.
Qed.

(** Every later call makes [n] upstream calls and returns the last result. *)
Lemma step_by_later (s s1 : IterType) rs :
  pulls s rs s1 -> length rs = n -> next (later s) ~~> (List.last rs None, later s1).
Proof.
  intros Hp Hl. cbn. unfold StepByIter.next_internal. cbn.
  assert (Hs : StepByIter.stride (Z.to_nat stepSize) None s ~~> (List.last rs None, s1)).
  { apply stride_pulls. exists rs. now repeat split. }
  run_bind Hs. run_ret.
Qed.

Lemma yields_app (s s' : IterType) (l1 l2 : list A) :
  yields s (l1 ++ l2) s' <->
  exists mid, pulls s (List.map Some l1) mid /\ yields mid l2 s'.
Proof.
  unfold yields. rewrite map_app, <- app_assoc. split.
  - apply pulls_app_inv.
  - intros (mid & H1 & H2). eapply pulls_app; eassumption.
Qed.

Lemma step_by_later_item (s s' : IterType) (l1 l2 : list A) (x : A) :
  length l1 = (n - 1)%nat -> yields s (l1 ++ x :: l2) s' ->
  exists mid, next (later s) ~~> (Some x, later mid) /\ yields mid l2 s'.
Proof.
  intros Hl Hy. apply yields_app in Hy. destruct Hy as (m1 & Hp1 & Hy).
  apply yields_cons in Hy. destruct Hy as (mid & Hn & Hy).
  exists mid. split; [|exact Hy].
  assert (Hp : pulls s (List.map Some l1 ++ [Some x]) mid).
  { eapply pulls_app; [exact Hp1|]. now apply pulls_one. }
  pose proof (step_by_later s mid _ Hp) as Hrun.
  rewrite last_last in Hrun. apply Hrun.
  rewrite length_app, length_map, Hl. simpl. pose proof step_by_n_pos. lia.
Qed.

Lemma step_by_later_short (s s' : IterType) (l : list A) :
  (length l < n)%nat -> yields s l s' -> exhausted_forever s' ->
  exists t, next (later s) ~~> (None, t).
Proof.
  intros Hl Hy He. destruct (He (n - length l - 1)%nat) as (s'' & Hq).
  assert (Hp : pulls s ((List.map Some l ++ List.repeat None (n - length l - 1)) ++ [None]) s'').
  { rewrite <- app_assoc, <- repeat_cons. simpl.
    unfold yields in Hy. apply pulls_app_inv in Hy. destruct Hy as (m1 & Hp1 & Hp2).
    eapply pulls_app; [exact Hp1|]. apply pulls_one in Hp2.
    eapply pulls_cons; eassumption. }
  pose proof (step_by_later s s'' _ Hp) as Hrun. rewrite last_last in Hrun.
  eexists. apply Hrun.
  rewrite !length_app, length_map, repeat_length. simpl. lia.
Qed.

Lemma step_by_later_yields (m : nat) :
  forall (l : list A) (s s' : IterType),
  (length l <= m)%nat -> yields s l s' -> exhausted_forever s' ->
  exists out t, yields (later s) out t /\
                forall k, nth_error out k = nth_error l (k * n + (n - 1)).
Proof.
  pose proof step_by_n_pos as Hn.
  induction m as [|m IH]; intros l s s' Hm Hy He.
  - destruct l; [|simpl in Hm; lia].
    destruct (step_by_later_short s s' [] ltac:(simpl; lia) Hy He) as (t & Ht).
    exists [], t. split; [now apply yields_nil|].
    intros k. replace (nth_error [] k) with (@None A) by (now destruct k).
    symmetry. apply nth_error_None. simpl. lia.
  - destruct (nth_error l (n - 1)) as [x|] eqn:Ex.
    + destruct (nth_error_split l (n - 1) Ex) as (l1 & l2 & -> & Hl1).
      destruct (step_by_later_item s s' l1 l2 x Hl1 Hy) as (mid & Hrun & Hy2).
      destruct (IH l2 mid s') as (out & t & Hout & Hnth); [|exact Hy2|exact He|].
      { rewrite length_app in Hm. simpl in Hm. lia. }
      exists (x :: out), t. split.
      * apply yields_cons. now exists (later mid).
      * intros [|k]; simpl.
        -- now rewrite Ex.
        -- rewrite Hnth. rewrite nth_error_app2 by lia.
           replace (n + k * n + (n - 1) - length l1)%nat
             with (S (k * n + (n - 1)))%nat by lia.
           reflexivity.
    + apply nth_error_None in Ex.
      destruct (step_by_later_short s s' l ltac:(lia) Hy He) as (t & Ht).
      exists [], t. split; [now apply yields_nil|].
      intros k. replace (nth_error [] k) with (@None A) by (now destruct k).
      symmetry. apply nth_error_None. lia.
Qed.

(** The calls after the first one, on any upstream: [j] calls make [j * n]
    upstream calls, and call [k] returns upstream result [k * n + (n - 1)]. *)
Lemma step_by_later_trace (j : nat) :
  forall (s s' : IterType) rs,
  pulls s rs s' -> length rs = (j * n)%nat ->
  exists out, pulls (later s) out (later s') /\ length out = j /\
              forall k, (k < j)%nat -> nth_error out k = nth_error rs (k * n + (n - 1)).
Proof.
  pose proof step_by_n_pos as Hn.
  induction j as [|j IH]; intros s s' rs Hp Hl.
  - destruct rs; [|discriminate]. inversion Hp; subst.
    exists []. repeat split; [constructor | intros k Hk; lia].
  - rewrite <- (firstn_skipn n rs) in Hp. apply pulls_app_inv in Hp.
    destruct Hp as (mid & Hp1 & Hp2).
    assert (Hl1 : length (firstn n rs) = n) by (rewrite length_firstn; simpl in Hl; lia).
    destruct (IH mid s' (skipn n rs) Hp2) as (out & Hout & Hlo & Hnth).
    { rewrite length_skipn. simpl in Hl. lia. }
    exists (List.last (firstn n rs) None :: out). repeat split.
    + eapply pulls_cons; [|exact Hout]. now apply step_by_later.
    + simpl. now rewrite Hlo.
    + intros [|k] Hk; simpl.
      * rewrite <- (last_nth_error (firstn n rs) None).
        -- rewrite Hl1, nth_error_firstn.
           destruct (Nat.ltb_spec (n - 1) n); [reflexivity | lia].
        -- intros E. rewrite E in Hl1. simpl in Hl1. lia.
      * rewrite Hnth by lia. rewrite nth_error_skipn. f_equal. lia.
Qed.

End StepBy.

(** C6. For every upstream sequence and every step size [n >= 1],
    [step_by(n)] returns the first upstream result and then strides by [n]:
    its [k]-th result is the upstream's result number [k * n].  For a finite
    upstream yielding the items [l] the items yielded are those of [l] at
    the positions 0, n, 2n, ... and nothing else;
    [range(0,10).step_by(3)] collects to [[0; 3; 6; 9]]. *)
Theorem step_by_strides :
  (forall (IterType A : Type) `(IteratorLaws IterType A) (this : IterType) (stepSize : Z),
      1 <= stepSize ->
      let n := Z.to_nat stepSize in
      (forall (j : nat) (rs : list (option A)) (this' : IterType),
          pulls this rs this' -> length rs = S (j * n) ->
          exists out t,
            pulls (IterBase.step_by this stepSize) out t /\ length out = S j /\
            forall k, (k <= j)%nat -> nth_error out k = nth_error rs (k * n)) /\
      (forall (l : list A) (this' : IterType),
          yields this l this' -> exhausted_forever this' ->
          exists out t,
            yields (IterBase.step_by this stepSize) out t /\
            forall k, nth_error out k = nth_error l (k * n))) /\
  (exists t,
      IterBase.collect (IterBase.step_by (rusty.range 0 10) 3) ~~> ([0; 3; 6; 9], t)).
Proof.
  split; [|eexists; exists 20%nat; vm_compute; reflexivity].
  intros IterType A H H0 this stepSize Hpos n.
  assert (Hn : (1 <= n)%nat) by (unfold n; lia).
  split.
  - intros j rs this' Hp Hl.
    destruct rs as [|r0 rs]; [discriminate|].
    inversion Hp as [|? ? s1 ? ? Hn0 Hq]; subst.
    destruct (step_by_later_trace stepSize Hpos j s1 this' rs Hq) as (out & Hout & Hlo & Hnth).
    { simpl in Hl. fold n. lia. }
    exists (r0 :: out). eexists. repeat split.
    + eapply pulls_cons; [|exact Hout]. now apply step_by_first.
    + simpl. now rewrite Hlo.
    + intros [|k] Hk; [reflexivity|]. simpl nth_error at 1.
      rewrite Hnth by lia. fold n.
      replace (S k * n)%nat with (S (k * n + (n - 1)))%nat by lia. reflexivity.
  - intros l this' Hy He. destruct l as [|a l].
    + apply yields_nil in Hy. exists []. eexists. split.
      * apply yields_nil. apply step_by_first; eassumption.
      * intros k. replace (nth_error [] k) with (@None A) by (now destruct k).
        symmetry. apply nth_error_None. simpl. lia.
    + apply yields_cons in Hy. destruct Hy as (s1 & Hn0 & Hy).
      destruct (step_by_later_yields stepSize Hpos (length l) l s1 this' (le_n _) Hy He)
        as (out & t & Hout & Hnth).
      exists (a :: out), t. split.
      * apply yields_cons. eexists. split; [|exact Hout]. now apply step_by_first.
      * intros [|k]; [reflexivity|]. simpl nth_error at 1.
        rewrite Hnth. fold n.
        replace (S k * n)%nat with (S (k * n + (n - 1)))%nat by lia. reflexivity.
Qed.

(** ** The probe *)

Lemma Counted_next {IterType A : Type} `{IteratorLaws IterType A}
  (s s' : IterType) (c : nat) r :
  next s ~~> (r, s') -> next (Counted.mk s c) ~~> (r, Counted.mk s' (S c)).
Proof.
  intros Hn. cbn. unfold Counted.next_internal. cbn. run_bind Hn. run_ret.
Qed.

(** The probe forwards its upstream's results and counts the calls. *)
Lemma Counted_pulls {IterType A : Type} `{IteratorLaws IterType A}
  (s s' : IterType) rs :
  pulls s rs s' ->
  forall c, pulls (Counted.mk s c) rs (Counted.mk s' (c + length rs)).
Proof.
  induction 1 as [|s r s1 rs s2 Hn Hp IH]; intros c; simpl.
  - rewrite Nat.add_0_r. constructor.
  - eapply pulls_cons; [apply Counted_next; exact Hn|].
    replace (c + S (length rs))%nat with (S c + length rs)%nat by lia. apply IH.
Qed.

(** ** [take] *)

Section Take.
Context {IterType A : Type} `{IteratorLaws IterType A}.

(** [take] with [c] items already counted and [length l] still to come. *)
Lemma take_yields_then_pulls_one (count : Z) (x : A) (this' : IterType) (l : list A) :
  forall (c : Z) (this : IterType),
  count = c + Z.of_nat (length l) ->
  pulls this (List.map Some l ++ [Some x]) this' ->
  yields (TakeWhileIter.mk this (Counter.mk c count) false) l
         (TakeWhileIter.mk this' (Counter.mk (count + 1) count) true).
Proof.
  induction l as [|a l IH]; intros c this Hc Hp; simpl in Hp.
  - apply pulls_one in Hp. apply yields_nil. simpl in Hc.
    cbn. unfold TakeWhileIter.next_internal. cbn. run_bind Hp.
    unfold test, Counter_Predicate, Counter.call. cbn.
    replace (c <? count) with false by (symmetry; apply Z.ltb_ge; lia).
    replace (c + 1) with (count + 1) by lia. run_ret.
  - revert Hc. inversion Hp as [|? ? s1 ? ? Hn Hq]; subst. intros Hc.
    apply yields_cons. exists (TakeWhileIter.mk s1 (Counter.mk (c + 1) count) false).
    split.
    + cbn. unfold TakeWhileIter.next_internal. cbn. run_bind Hn.
      unfold test, Counter_Predicate, Counter.call. cbn.
      replace (c <? count) with true
        by (symmetry; apply Z.ltb_lt; simpl length in Hc; lia).
      run_ret.
    + apply IH; [simpl length in Hc; lia | exact Hq].
Qed.

End Take.

(** C10. If the first [n + 1] results of the upstream are items (it has more
    than [n] items), [take(n)] yields exactly the first [n] of them and is
    then exhausted, with its upstream in the state reached after [n + 1]
    calls: item [n + 1] was pulled and dropped when the counter predicate
    failed.  Run over the probe, the upstream has been called [n + 1] times.
    In particular [take(0)] yields nothing and has advanced a non-empty
    upstream once. *)
Theorem take_advances_upstream_once_more
  (IterType A : Type) `(IteratorLaws IterType A) (this this' : IterType)
  (count : Z) (l : list A) (x : A) :
  0 <= count -> length l = Z.to_nat count ->
  pulls this (List.map Some l ++ [Some x]) this' ->
  yields (IterBase.take this count) l
         (TakeWhileIter.mk this' (Counter.mk (count + 1) count) true) /\
  yields (IterBase.take (Counted.new this) count) l
         (TakeWhileIter.mk (Counted.mk this' (S (length l)))
                           (Counter.mk (count + 1) count) true) /\
  (count = 0 ->
   l = [] /\
   next (IterBase.take (Counted.new this) 0)
     ~~> (None, TakeWhileIter.mk (Counted.mk this' 1) (Counter.mk 1 0) true)).
Proof.
  intros Hc Hl Hp.
  assert (Hcount : count = 0 + Z.of_nat (length l)) by lia.
  split; [|split].
  - exact (take_yields_then_pulls_one count x this' l 0 this Hcount Hp).
  - pose proof (Counted_pulls this this' _ Hp 0%nat) as Hq.
    rewrite length_app, length_map in Hq. simpl in Hq.
    replace (length l + 1)%nat with (S (length l)) in Hq by lia.
    exact (take_yields_then_pulls_one count x _ l 0 _ Hcount Hq).
  - intros ->. destruct l; [|discriminate]. split; [reflexivity|].
    pose proof (Counted_pulls this this' _ Hp 0%nat) as Hq. simpl in Hq.
    apply yields_nil.
    exact (take_yields_then_pulls_one 0 x _ [] 0 _ eq_refl Hq).
Qed.

(** ** [cycle] *)

Section Cycle.
Context {IterType A : Type} `{IteratorLaws IterType A}.

(** Inside a pass the running copy supplies the item. *)
Lemma cycle_next_item (orig cur cur' : IterType) (e : bool) (v : A) :
  next cur ~~> (Some v, cur') ->
  next (CycleIter.mk orig cur e) ~~> (Some v, CycleIter.mk orig cur' false).
Proof.
  intros Hn. cbn. unfold CycleIter.next_internal. cbn. run_bind Hn. run_ret.
Qed.

(** At the end of a pass a fresh copy of the original is started. *)
Lemma cycle_next_restart (orig cur cur' fresh : IterType) r :
  next cur ~~> (None, cur') -> next orig ~~> (r, fresh) ->
  next (CycleIter.mk orig cur false) ~~> (r, CycleIter.mk orig fresh false).
Proof.
  intros Hn Ho. cbn. unfold CycleIter.next_internal. cbn.
  run_bind Hn. run_bind Ho. run_ret.
Qed.

(** Nothing was ever yielded: no restart. *)
Lemma cycle_next_empty (orig cur cur' : IterType) :
  next cur ~~> (None, cur') ->
  next (CycleIter.mk orig cur true) ~~> (None, CycleIter.mk orig cur' true).
Proof.
  intros Hn. cbn. unfold CycleIter.next_internal. cbn. run_bind Hn. run_ret.
Qed.

Lemma yields_skipn_step (l : list A) (p : nat) (x : A) (cur s' : IterType) :
  nth_error l p = Some x -> yields cur (skipn p l) s' ->
  exists cur1, next cur ~~> (Some x, cur1) /\ yields cur1 (skipn (S p) l) s'.
Proof.
  intros Hx Hy. destruct (nth_error_split l p Hx) as (l1 & l2 & -> & <-).
  rewrite skipn_app, Nat.sub_diag, skipn_all in Hy. simpl in Hy.
  apply yields_cons in Hy. destruct Hy as (cur1 & Hn & Hy).
  exists cur1. split; [exact Hn|].
  replace (l1 ++ x :: l2) with ((l1 ++ [x]) ++ l2) by now rewrite <- app_assoc.
  rewrite skipn_app.
  rewrite (skipn_all2 (n := S (length l1)) (l1 ++ [x]))
    by (rewrite length_app; simpl; lia).
  rewrite length_app. simpl length.
  replace (S (length l1) - (length l1 + 1))%nat with O by lia.
  exact Hy.
Qed.

(** From position [p] of a pass, the next [k] results are the items of [l]
    at the positions [p], [p + 1], ... taken modulo [length l]. *)
Lemma cycle_pulls (orig s_end : IterType) (l : list A) :
  l <> [] -> yields orig l s_end ->
  forall (k p : nat) (cur : IterType) (e : bool),
  (p <= length l)%nat -> (e = false \/ p < length l)%nat ->
  yields cur (skipn p l) s_end ->
  exists out c',
    pulls (CycleIter.mk orig cur e) (List.map Some out) c' /\ length out = k /\
    forall i, (i < k)%nat -> nth_error out i = nth_error l ((p + i) mod length l).
Proof.
  intros Hne Hyo.
  assert (Hlen : (0 < length l)%nat) by (destruct l; [congruence | simpl; lia]).
  induction k as [|k IH]; intros p cur e Hp He Hy.
  - exists []. eexists. repeat split; [constructor | intros i Hi; lia].
  - destruct (nth_error l p) as [x|] eqn:Ex.
    + assert (Hpl : (p < length l)%nat) by (apply nth_error_Some; congruence).
      destruct (yields_skipn_step l p x cur s_end Ex Hy) as (cur1 & Hn & Hy1).
      destruct (IH (S p) cur1 false ltac:(lia) (or_introl eq_refl) Hy1)
        as (out & c' & Hout & Hlo & Hnth).
      exists (x :: out), c'. repeat split.
      * simpl. eapply pulls_cons; [|exact Hout]. now apply cycle_next_item.
      * simpl. now rewrite Hlo.
      * intros [|i] Hi; simpl.
        -- now rewrite Nat.add_0_r, Nat.mod_small.
        -- rewrite Hnth by lia. f_equal. f_equal. lia.
    + apply nth_error_None in Ex. assert (p = length l) by lia. subst p.
      destruct He as [-> | He]; [|lia].
      rewrite skipn_all in Hy. apply yields_nil in Hy.
      destruct l as [|a l']; [congruence|].
      pose proof Hyo as Hyo'. apply yields_cons in Hyo'.
      destruct Hyo' as (s1 & Hn & Hy1).
      destruct (IH 1%nat s1 false ltac:(simpl; lia) (or_introl eq_refl) Hy1)
        as (out & c' & Hout & Hlo & Hnth).
      exists (a :: out), c'. repeat split.
      * simpl List.map. eapply pulls_cons; [|exact Hout].
        eapply cycle_next_restart; eassumption.
      * simpl. now rewrite Hlo.
      * intros [|i] Hi.
        -- rewrite Nat.add_0_r, Nat.Div0.mod_same. reflexivity.
        -- simpl nth_error at 1. rewrite Hnth by lia. f_equal.
           replace (length (a :: l') + S i)%nat
             with (1 + i + 1 * length (a :: l'))%nat by lia.
           now rewrite Nat.Div0.mod_add.
Qed.

(** A cycle over a sequence that is exhausted from the start stays so. *)
Lemma cycle_empty (orig : IterType) (k : nat) :
  forall cur : IterType, exhausted_forever cur ->
  exists c', pulls (CycleIter.mk orig cur true) (List.repeat None k) c'.
Proof.
  induction k as [|k IH]; intros cur He.
  - eexists. constructor.
  - destruct (exhausted_forever_next cur He) as (cur' & Hn & He').
    destruct (IH cur' He') as (c' & Hp).
    exists c'. simpl. eapply pulls_cons; [|exact Hp]. now apply cycle_next_empty.
Qed.

(** The original sequence is kept as it was captured. *)
Lemma cycle_original_kept (c c' : CycleIter.t IterType) rs :
  pulls c rs c' -> CycleIter._originalIter c' = CycleIter._originalIter c.
Proof.
  induction 1 as [|s r s1 rs s2 Hn Hp IH]; [reflexivity|].
  rewrite IH. cbn in Hn. unfold CycleIter.next_internal in Hn.
  invert_run; reflexivity.
Qed.

End Cycle.

(** C7. [cycle()] over a sequence that yields the items [l], [l] not empty,
    never ends: its results are the items of [l] over and over, result [i]
    being item [i mod length l], each pass running on a fresh copy of the
    sequence as it was when the cycle was built.  If the first pass yields
    nothing (and the upstream stays exhausted), every call of the cycle
    signals exhaustion.  Taking 10 items of [range(0,3).cycle()] gives
    [[0; 1; 2; 0; 1; 2; 0; 1; 2; 0]]. *)
Theorem cycle_repeats_upstream :
  (forall (IterType A : Type) `(IteratorLaws IterType A)
          (this this' : IterType) (l : list A),
      yields this l this' ->
      (l <> [] ->
       forall k : nat, exists out c',
         pulls (IterBase.cycle this) (List.map Some out) c' /\ length out = k /\
         CycleIter._originalIter c' = this /\
         forall i, (i < k)%nat -> nth_error out i = nth_error l (i mod length l)) /\
      (l = [] -> exhausted_forever this' -> exhausted_forever (IterBase.cycle this))) /\
  (exists t, IterBase.collect (IterBase.take (IterBase.cycle (rusty.range 0 3)) 10)
             ~~> ([0; 1; 2; 0; 1; 2; 0; 1; 2; 0], t)) /\
  exhausted_forever (IterBase.cycle (rusty.range 0 0)).
Proof.
  split; [|split].
  - intros IterType A H H0 this this' l Hy. split.
    + intros Hne k.
      destruct (cycle_pulls this this' l Hne Hy k 0%nat this true ltac:(lia))
        as (out & c' & Hout & Hlo & Hnth).
      * right. destruct l; [congruence | simpl; lia].
      * exact Hy.
      * exists out, c'. repeat split; try assumption.
        now rewrite (cycle_original_kept _ _ _ Hout).
    + intros -> He k. apply yields_nil in Hy.
      apply (cycle_empty this k this). exact (exhausted_forever_cons _ _ Hy He).
  - eexists. exists 40%nat. vm_compute. reflexivity.
  - intros k. apply (cycle_empty _ k).
    assert (Hn : next (rusty.range 0 0)
                 ~~> (None, FiniteGeneratorIter.mk
                              (FiniteRangeGenerator.mk false 0 0 1) true))
      by (exists O; reflexivity).
    apply (exhausted_forever_cons _ _ Hn).
    eapply sticky_forever; [exact I | exact Hn].
Qed.

(** ** [intersperse] *)

Lemma nth_error_empty {X : Type} (i : nat) : nth_error (@nil X) i = None.
Proof. now destruct i. Qed.

Lemma interspersed_length {A : Type} (sep : A) (l : list A) :
  length (interspersed sep l) = (2 * length l - 1)%nat.
Proof.
  induction l as [|x l IH]; [reflexivity|].
  destruct l as [|y l]; [reflexivity|].
  change (interspersed sep (x :: y :: l)) with (x :: sep :: interspersed sep (y :: l)).
  simpl length in *. rewrite IH. lia.
Qed.

Lemma interspersed_even {A : Type} (sep : A) (l : list A) (i : nat) :
  nth_error (interspersed sep l) (2 * i) = nth_error l i.
Proof.
  revert i. induction l as [|x l IH]; intros i.
  - simpl. now rewrite !nth_error_empty.
  - destruct i as [|i]; [reflexivity|].
    replace (2 * S i)%nat with (S (S (2 * i))) by lia.
    destruct l as [|y l].
    + simpl. now rewrite !nth_error_empty.
    + change (interspersed sep (x :: y :: l))
        with (x :: sep :: interspersed sep (y :: l)).
      cbn [nth_error]. rewrite IH. reflexivity.
Qed.

Lemma interspersed_odd {A : Type} (sep : A) (l : list A) (i : nat) :
  (2 * i + 1 < length (interspersed sep l))%nat ->
  nth_error (interspersed sep l) (2 * i + 1) = Some sep.
Proof.
  revert i. induction l as [|x l IH]; intros i Hi; [simpl in Hi; lia|].
  destruct l as [|y l]; [simpl in Hi; lia|].
  change (interspersed sep (x :: y :: l))
    with (x :: sep :: interspersed sep (y :: l)) in *.
  destruct i as [|i]; [reflexivity|].
  replace (2 * S i + 1)%nat with (S (S (2 * i + 1))) by lia.
  cbn [nth_error]. apply IH. cbn [length] in Hi. lia.
Qed.

Section Intersperse.
Context {IterType A : Type} `{IteratorLaws IterType A}.
Variable separator : A.

Local Abbreviation getter := (Getter.mk separator).

(** With the item [x] buffered in [_nextResult] and the items [l] still
    upstream, the stage yields [x] and then each item of [l] after a
    separator. *)
Lemma intersperse_yields (s_end : IterType) (l : list A) :
  forall (x : A) (cur : IterType),
  yields cur l s_end ->
  yields (IntersperseWithIter.mk cur getter (Some x) false)
         (interspersed separator (x :: l))
         (IntersperseWithIter.mk s_end getter None false).
Proof.
  induction l as [|y l IH]; intros x cur Hy.
  - apply yields_nil in Hy. apply yields_cons.
    exists (IntersperseWithIter.mk s_end getter None false). split.
    + cbn. unfold IntersperseWithIter.next_internal. cbn. run_bind Hy. run_ret.
    + apply yields_nil. exists O. reflexivity.
  - apply yields_cons in Hy. destruct Hy as (c1 & Hn & Hy).
    change (interspersed separator (x :: y :: l))
      with (x :: separator :: interspersed separator (y :: l)).
    apply yields_cons.
    exists (IntersperseWithIter.mk c1 getter (Some y) true). split.
    { cbn. unfold IntersperseWithIter.next_internal. cbn. run_bind Hn. run_ret. }
    apply yields_cons.
    exists (IntersperseWithIter.mk c1 getter (Some y) false). split.
    { exists O. reflexivity. }
    now apply IH.
Qed.

Lemma intersperse_built_and_yields (this s_end : IterType) (l : list A) :
  yields this l s_end ->
  exists it,
    IterBase.intersperse this separator ~~> it /\
    yields it (interspersed separator l)
           (IntersperseWithIter.mk s_end getter None false).
Proof.
  intros Hy. destruct l as [|x l].
  - apply yields_nil in Hy.
    exists (IntersperseWithIter.mk s_end getter None false). split.
    + unfold IterBase.intersperse, IntersperseWithIter.new. run_bind Hy. run_ret.
    + apply yields_nil. exists O. reflexivity.
  - apply yields_cons in Hy. destruct Hy as (c1 & Hn & Hy).
    exists (IntersperseWithIter.mk c1 getter (Some x) false). split.
    + unfold IterBase.intersperse, IntersperseWithIter.new. run_bind Hn. run_ret.
    + now apply intersperse_yields.
Qed.

End Intersperse.

(** C8. [intersperse(sep)] over a finite upstream of [L] items yields, for
    [L >= 1], exactly [2L - 1] items: the upstream items at the even
    positions, in order, and the separator at every odd position, which puts
    a separator between consecutive items and none before the first or
    after the last.  For [L = 0] it yields nothing. *)
Theorem intersperse_between_items
  (IterType A : Type) `(IteratorLaws IterType A) (this this' : IterType)
  (separator : A) (l : list A) :
  yields this l this' ->
  exists it out t,
    IterBase.intersperse this separator ~~> it /\
    yields it out t /\
    (length l = 0%nat -> out = []) /\
    ((1 <= length l)%nat -> Z.of_nat (length out) = 2 * Z.of_nat (length l) - 1) /\
    (forall i, nth_error out (2 * i) = nth_error l i) /\
    (forall i, (2 * i + 1 < length out)%nat -> nth_error out (2 * i + 1) = Some separator).
Proof.
  intros Hy.
  destruct (intersperse_built_and_yields separator this this' l Hy) as (it & Hb & Hout).
  exists it, (interspersed separator l). eexists. repeat split.
  - exact Hb.
  - exact Hout.
  - intros Hl. destruct l; [reflexivity | discriminate].
  - intros Hl. rewrite interspersed_length. lia.
  - intros i. apply interspersed_even.
  - intros i. apply interspersed_odd.
Qed.

(** ** Comparison consumers *)

Section Compare.
Context {IterType OtherIterType A R : Type}.
Context `{IteratorLaws IterType A} `{IteratorLaws OtherIterType A}.
Variable as_char : R -> Z.
Variable partialComparisonFunction : A -> A -> option R.

Local Abbreviation converted :=
  (fun a b : A => option_map as_char (partialComparisonFunction a b)).

(** On two finite sequences [partial_cmp_by] terminates with the
    lexicographic order of their items under the comparison function,
    taken after the conversion of its result to [char]. *)
Lemma partial_cmp_by_lexicographic (la : list A) :
  forall (lb : list A) (this this' : IterType) (other other' : OtherIterType),
  yields this la this' -> yields other lb other' ->
  exists st, IterBase.partial_cmp_by as_char this other partialComparisonFunction
             ~~> (lexicographic converted la lb, st).
Proof.
  unfold IterBase.partial_cmp_by.
  induction la as [|a la IH]; intros lb this this' other other' Ha Hb.
  - apply yields_nil in Ha. destruct lb as [|b lb].
    + apply yields_nil in Hb. eexists. apply loop_returns_exit.
      run_bind Ha. run_bind Hb. run_ret.
    + apply yields_cons in Hb. destruct Hb as (o1 & Hb & _).
      eexists. apply loop_returns_exit. run_bind Ha. run_bind Hb. run_ret.
  - apply yields_cons in Ha. destruct Ha as (s1 & Ha & Hya).
    destruct lb as [|b lb].
    + apply yields_nil in Hb. eexists. apply loop_returns_exit.
      run_bind Ha. run_bind Hb. run_ret.
    + apply yields_cons in Hb. destruct Hb as (o1 & Hb & Hyb). cbn [lexicographic].
      cbn beta.
      destruct (option_map as_char (partialComparisonFunction a b)) as [c|] eqn:Ec.
      * destruct (c =? 0) eqn:Ez.
        -- destruct (IH lb s1 this' o1 other' Hya Hyb) as (st & Hst).
           exists st. eapply loop_returns_continue; [| |exact Hst].
           ++ intros [s o]. solve_mono.
           ++ run_bind Ha. run_bind Hb. rewrite Ec, Ez. run_ret.
        -- eexists. apply loop_returns_exit.
           run_bind Ha. run_bind Hb. rewrite Ec, Ez. run_ret.
      * eexists. apply loop_returns_exit.
        run_bind Ha. run_bind Hb. rewrite Ec. run_ret.
Qed.

End Compare.

(** The comparison function [cmp_by] hands to [partial_cmp_by] never returns
    an empty optional, so neither does [partial_cmp_by]. *)
Lemma cmp_by_some {IterType OtherIterType A R : Type}
  `{Iterator IterType A} `{Iterator OtherIterType A}
  (as_char : R -> Z) (f : A -> A -> R) (this : IterType) (other : OtherIterType) r st :
  IterBase.partial_cmp_by as_char this other (fun a b => Some (f a b)) ~~> (r, st) ->
  r <> None.
Proof.
  unfold IterBase.partial_cmp_by. intros Hr.
  refine (loop_returns_ind _ (fun _ res => fst res <> None) _ _ _ (r, st) Hr).
  - intros [s o] res Hb. invert_run; cbn in *; congruence.
  - intros s s' res _ _ IH. exact IH.
Qed.

Lemma lexicographic_ext {A : Type} (f g : A -> A -> option Z) (la : list A) :
  (forall a b, f a b = g a b) ->
  forall lb, lexicographic f la lb = lexicographic g la lb.
Proof.
  intros Hfg. induction la as [|a la IH]; intros [|b lb]; simpl; try reflexivity.
  rewrite Hfg. destruct (g a b) as [c|]; [|reflexivity].
  destruct (c =? 0); [apply IH | reflexivity].
Qed.

(** [partial_cmp] of two finite sequences is their lexicographic order under
    [compare_partial], for every item type. *)
Lemma partial_cmp_lexicographic {IterType OtherIterType A : Type}
  `{IteratorLaws IterType A} `{IteratorLaws OtherIterType A} `{ItemType A}
  (this this' : IterType) (other other' : OtherIterType) (la lb : list A) :
  yields this la this' -> yields other lb other' ->
  exists st, IterBase.partial_cmp this other
             ~~> (lexicographic compare_partial la lb, st).
Proof.
  intros Ha Hb. unfold IterBase.partial_cmp.
  destruct (partial_cmp_by_lexicographic (fun c : Z => c) compare_partial
              la lb this this' other other' Ha Hb) as (st & Hst).
  exists st.
  rewrite (lexicographic_ext compare_partial
             (fun a b => option_map (fun c : Z => c) (compare_partial a b))); [exact Hst|].
  intros a b. now destruct (compare_partial a b).
Qed.

(** On [int] items the conversions in [cmp_by] keep the three values of
    [compare]: [cmp] of two finite sequences is their lexicographic order. *)
Lemma cmp_int_items_lexicographic {IterType OtherIterType : Type}
  `{IteratorLaws IterType Z} `{IteratorLaws OtherIterType Z}
  (this this' : IterType) (other other' : OtherIterType) (la lb : list Z) :
  yields this la this' -> yields other lb other' ->
  exists c st,
    IterBase.cmp this other ~~> (c, st) /\
    lexicographic (fun a b => Some (compare a b)) la lb = Some c.
Proof.
  intros Ha Hb. unfold IterBase.cmp, IterBase.cmp_by.
  destruct (partial_cmp_by_lexicographic (to_char (A := Z))
              (fun a b : Z => Some (of_char (A := Z) (compare a b)))
              la lb this this' other other' Ha Hb) as (st & Hst).
  rewrite (lexicographic_ext _ (fun a b : Z => Some (compare a b))) in Hst.
  - assert (Hsome : exists c, lexicographic (fun a b : Z => Some (compare a b)) la lb
                              = Some c).
    { clear. revert lb. induction la as [|a la IH]; intros [|b lb]; simpl; eauto.
      destruct (compare a b =? 0); eauto. }
    destruct Hsome as (c & Hc). rewrite Hc in Hst.
    exists c, st. split; [|exact Hc].
    eapply bind_returns_intro; [ | | exact Hst | ].
    + unfold IterBase.partial_cmp_by. apply Mono_loop. intros [s o]. solve_mono.
    + solve_mono.
    + run_ret.
  - intros a b. cbn. f_equal. unfold compare. cbn.
    destruct (a <? b); [reflexivity|]. now destruct (a >? b).
Qed.

(** Comparing [[0; 1]] with [[0; 1; ...; 9]]: the first is less. *)
Lemma cmp_shorter_prefix_is_less :
  (exists st, IterBase.cmp (rusty.iter [0; 1]) (rusty.iter [0; 1; 2; 3; 4; 5; 6; 7; 8; 9])
              ~~> (-1, st)) /\
  (exists st, IterBase.partial_cmp (rusty.iter [0; 1])
                (rusty.iter [0; 1; 2; 3; 4; 5; 6; 7; 8; 9]) ~~> (Some (-1), st)).
Proof.
  split; eexists; exists 10%nat; vm_compute; reflexivity.
Qed.

(** C4. On [bool] items [cmp] reports "greater" (1) for [[false]] against
    [[true]], although [false < true], the lexicographic order of the two
    sequences is "less" (-1) and [partial_cmp] on the same input returns -1:
    the lambda in [cmp_by] converts the [char] that [compare] returns to the
    item type before [partial_cmp_by] converts it back, and [bool] keeps
    only whether it was non-zero.  The conversion to [char] also makes
    [cmp_by] with the comparison [a - b] report "equal" (0) for [[256]]
    against [[0]], where the first pair differs. *)
Theorem cmp_bool_items_reports_greater :
  (exists st, IterBase.cmp (rusty.once false) (rusty.once true) ~~> (1, st)) /\
  (exists st, IterBase.partial_cmp (rusty.once false) (rusty.once true)
              ~~> (Some (-1), st)) /\
  lexicographic (fun a b : bool => Some (compare a b)) [false] [true] = Some (-1) /\
  (exists st, IterBase.cmp_by (fun z : Z => z) (rusty.iter [256]) (rusty.iter [0])
                (fun a b : Z => a - b) ~~> (0, st)) /\
  lexicographic (fun a b : Z => Some (a - b)) [256] [0] = Some 256.
Proof.
  repeat split; try reflexivity; eexists; exists 10%nat; vm_compute; reflexivity.
Qed.

(** ** [peekable] *)

Section Peekable.
Context {IterType A : Type} `{IteratorLaws IterType A}.

(** [peek] and [next] keep the invariant of the stage. *)
Lemma peek_inv (p p' : PeekableIter.t IterType A) r :
  inv p -> PeekableIter.peek p ~~> (r, p') -> inv p'.
Proof.
  intros [Hi Hk] Hp. unfold PeekableIter.peek in Hp.
  destruct (PeekableIter._nextItem p) as [[v|]|] eqn:E; invert_run; cbn;
    try rewrite E; try (now elim Hk);
    (split; [eauto using next_inv | congruence]).
Qed.

(** After a [peek] that found an item, a second [peek] returns the same
    item and changes nothing: the upstream is not touched. *)
Lemma peek_twice_item (p p1 : PeekableIter.t IterType A) (v : A) :
  PeekableIter.peek p ~~> (Some v, p1) ->
  forall fuel, PeekableIter.peek p1 fuel = Some (Some v, p1).
Proof.
  intros Hp fuel. unfold PeekableIter.peek in Hp.
  destruct (PeekableIter._nextItem p) as [[w|]|] eqn:E; invert_run.
  - unfold PeekableIter.peek. now rewrite E.
  - reflexivity.
Qed.

(** After a [peek] that found the upstream exhausted nothing is recorded, and
    a second [peek] asks the upstream again. *)
Lemma peek_twice_exhausted (p p1 : PeekableIter.t IterType A) :
  inv p -> PeekableIter.peek p ~~> (None, p1) ->
  PeekableIter._nextItem p1 = None /\
  forall r p2, PeekableIter.peek p1 ~~> (r, p2) ->
               next (PeekableIter._iter p1) ~~> (r, PeekableIter._iter p2).
Proof.
  intros [Hi Hk] Hp. unfold PeekableIter.peek in Hp.
  destruct (PeekableIter._nextItem p) as [[w|]|] eqn:E; invert_run.
  - now elim Hk.
  - split; [reflexivity|]. intros r p2 Hp2. unfold PeekableIter.peek in Hp2.
    cbn in Hp2. invert_run; assumption.
Qed.

End Peekable.

(** C9. A [peekable] over an exhausted upstream, here [empty<int>()]: the
    first [peek] returns "exhausted" and leaves the look-ahead slot at
    "unknown" (the state "known, but has no value" is never stored), so the
    second [peek], which returns "exhausted" too, calls the upstream's
    [next] again: run over the probe, two peeks make two upstream calls. *)
Theorem peek_on_exhausted_calls_upstream_again :
  PeekableIter.peek (IterBase.peekable (rusty.empty Z))
    ~~> (None, PeekableIter.mk (rusty.empty Z) None) /\
  exists p1 p2,
    PeekableIter.peek (IterBase.peekable (Counted.new (rusty.empty Z))) ~~> (None, p1) /\
    PeekableIter.peek p1 ~~> (None, p2) /\
    PeekableIter._nextItem p1 = None /\
    Counted._calls (PeekableIter._iter p1) = 1%nat /\
    Counted._calls (PeekableIter._iter p2) = 2%nat.
Proof.
  split; [exists O; reflexivity|].
  do 2 eexists.
  split; [exists O; vm_compute; reflexivity|].
  split; [exists O; vm_compute; reflexivity|].
  repeat split.
Qed.

(** ** What a stage asks of its upstream *)

Section Demand.
Context {IterType A : Type} `{IteratorLaws IterType A}.

Ltac one_call :=
  match goal with
  | Hn : next ?u ~~> (?r, ?u') |- exists rs, pulls ?u rs ?u' /\ _ =>
      exists [r]; split; [now apply pulls_one | simpl; lia]
  | |- exists rs, pulls ?u rs ?u /\ _ =>
      exists []; split; [constructor | simpl; lia]
  end.

Lemma map_calls_once (B : Type) :
  calls_at_most 1 (@next (MapIter.t IterType A B) B _) MapIter._iter.
Proof.
  intros z r z' Hn. cbn in Hn. unfold MapIter.next_internal in Hn.
  invert_run; cbn; one_call.
Qed.

Lemma inspect_calls_once (C : Type) `{Callback C A} :
  calls_at_most 1 (@next (InspectIter.t IterType C) A _) InspectIter._iter.
Proof.
  intros z r z' Hn. cbn in Hn. unfold InspectIter.next_internal in Hn.
  invert_run; cbn; one_call.
Qed.

Lemma take_while_calls_once (P : Type) `{Predicate P A} :
  calls_at_most 1 (@next (TakeWhileIter.t IterType P) A _) TakeWhileIter._iter.
Proof.
  intros z r z' Hn. cbn in Hn. unfold TakeWhileIter.next_internal in Hn.
  invert_run; cbn; one_call.
Qed.

Lemma peekable_next_calls_once :
  calls_at_most 1 (@next (PeekableIter.t IterType A) A _) PeekableIter._iter.
Proof.
  intros z r z' Hn. cbn in Hn. unfold PeekableIter.next_internal in Hn.
  invert_run; cbn; one_call.
Qed.

Lemma peek_calls_once :
  calls_at_most 1 (@PeekableIter.peek IterType A _) PeekableIter._iter.
Proof.
  intros z r z' Hn. unfold PeekableIter.peek in Hn.
  invert_run; cbn; one_call.
Qed.

Lemma intersperse_calls_once (G : Type) `{Generator G A} :
  calls_at_most 1 (@next (IntersperseWithIter.t IterType G A) A _)
                IntersperseWithIter._iter.
Proof.
  intros z r z' Hn. cbn in Hn. unfold IntersperseWithIter.next_internal in Hn.
  invert_run; cbn; one_call.
Qed.

Lemma chain_calls_once (J : Type) `{IteratorLaws J A} :
  calls_at_most 1 (@next (ChainIter.t IterType J) A _) ChainIter._iter /\
  calls_at_most 1 (@next (ChainIter.t IterType J) A _) ChainIter._chainedIter.
Proof.
  split; intros z r z' Hn; cbn in Hn; unfold ChainIter.next_internal in Hn;
    invert_run; cbn; one_call.
Qed.

Lemma zip_calls_once (J B : Type) `{IteratorLaws J B} :
  calls_at_most 1 (@next (ZipIter.t IterType J) (A * B) _) ZipIter._iter /\
  calls_at_most 1 (@next (ZipIter.t IterType J) (A * B) _) ZipIter._zippedIter.
Proof.
  split; intros z r z' Hn; cbn in Hn; unfold ZipIter.next_internal in Hn;
    invert_run; cbn; one_call.
Qed.

(** [cycle]: one call on the running copy; when that copy is exhausted after
    a non-empty pass, one call on a fresh copy of the original. *)
Lemma cycle_calls (z z' : CycleIter.t IterType) r :
  next z ~~> (r, z') ->
  (r <> None /\ next (CycleIter._iter z) ~~> (r, CycleIter._iter z')) \/
  (exists c, next (CycleIter._iter z) ~~> (None, c) /\
             ((r = None /\ CycleIter._iter z' = c) \/
              next (CycleIter._originalIter z) ~~> (r, CycleIter._iter z'))).
Proof.
  intros Hn. cbn in Hn. unfold CycleIter.next_internal in Hn.
  invert_run; cbn.
  - left. split; [discriminate | assumption].
  - right. eexists. split; [eassumption|]. now left.
  - right. eexists. split; [eassumption|]. now right.
Qed.

(** [step_by]: one upstream call the first time, [n] calls later, none when
    the step is invalid; the result of the last call is returned. *)
Lemma step_by_stops_at_result :
  stops_at_result (fun _ u => u) (@next (StepByIter.t IterType) A _) StepByIter._iter /\
  forall z r z',
    @next (StepByIter.t IterType) A _ z ~~> (r, z') ->
    exists rs, pulls (StepByIter._iter z) rs (StepByIter._iter z') /\
               (length rs <= Nat.max 1 (Z.to_nat (StepByIter._stepSize z)))%nat.
Proof.
  assert (Hboth : forall z r z',
    @next (StepByIter.t IterType) A _ z ~~> (r, z') ->
    exists rs, pulls (StepByIter._iter z) rs (StepByIter._iter z') /\
               r = List.last rs None /\
               (length rs <= Nat.max 1 (Z.to_nat (StepByIter._stepSize z)))%nat).
  { intros z r z' Hn. cbn in Hn. unfold StepByIter.next_internal in Hn.
    destruct (StepByIter._invalid z).
    { invert_run. exists []. repeat split; [constructor | simpl; lia]. }
    destruct (StepByIter._first z); invert_run; cbn [StepByIter._iter].
    - match goal with
      | Hu : next _ ~~> (?u, _) |- _ =>
          exists [u]; split; [now apply pulls_one | split; [reflexivity|]]
      end.
      simpl length. lia.
    - match goal with
      | Hs : StepByIter.stride _ _ _ ~~> _ |- _ =>
          apply stride_pulls in Hs; destruct Hs as (rs & Hl & Hp & ->)
      end.
      exists rs. split; [exact Hp | split; [reflexivity | lia]]. }
  split; intros z r z' Hn; destruct (Hboth z r z' Hn) as (rs & Hp & Hr & Hl);
    exists rs; now split.
Qed.

Lemma last_cons_nonempty {X : Type} (x : X) (l : list X) (d : X) :
  l <> [] -> List.last (x :: l) d = List.last l d.
Proof. destruct l; [congruence | reflexivity]. Qed.

Lemma filter_stops_at_result (F : Type) `{Predicate F A} :
  stops_at_result (fun _ u => u) (@next (FilterIter.t IterType F) A _) FilterIter._iter.
Proof.
  intros z r z' Hn. cbn in Hn. unfold FilterIter.next_internal in Hn.
  assert (Hx : exists rs,
             pulls (FilterIter._iter z) rs (FilterIter._iter (snd (r, z'))) /\
             rs <> [] /\ fst (r, z') = List.last rs None).
  { refine (loop_returns_ind _
              (fun st res => exists rs,
                 pulls (FilterIter._iter st) rs (FilterIter._iter (snd res)) /\
                 rs <> [] /\ fst res = List.last rs None)
              _ _ z (r, z') Hn).
    - intros st res Hb. invert_run; cbn;
        match goal with
        | Hu : next _ ~~> (?u, _) |- _ =>
            exists [u]; split; [now apply pulls_one | split; [discriminate | reflexivity]]
        end.
    - intros st st' res Hb _ (rs & Hp & Hne & Hr). invert_run; cbn in *.
      match goal with
      | Hu : next _ ~~> (?u, _) |- _ =>
          exists (u :: rs); split; [eapply pulls_cons; eassumption|];
          split; [discriminate | now rewrite last_cons_nonempty]
      end. }
  destruct Hx as (rs & Hp & _ & Hr). exists rs. now split.
Qed.

Lemma filter_map_stops_at_result (B : Type) :
  stops_at_result
    (fun z u => match u with
                | Some c => FilterMapIter._filterMapFunction z c
                | None => None
                end)
    (@next (FilterMapIter.t IterType A B) B _) FilterMapIter._iter.
Proof.
  intros z r z' Hn. cbn in Hn. unfold FilterMapIter.next_internal in Hn.
  assert (Hx : exists rs,
             pulls (FilterMapIter._iter z) rs (FilterMapIter._iter (snd (r, z'))) /\
             rs <> [] /\
             fst (r, z') = match List.last rs None with
                           | Some c => FilterMapIter._filterMapFunction z c
                           | None => None
                           end).
  { refine (loop_returns_ind _
              (fun st res => exists rs,
                 pulls (FilterMapIter._iter st) rs (FilterMapIter._iter (snd res)) /\
                 rs <> [] /\
                 fst res = match List.last rs None with
                           | Some c => FilterMapIter._filterMapFunction st c
                           | None => None
                           end)
              _ _ z (r, z') Hn).
    - intros st res Hb. invert_run; cbn;
        match goal with
        | Hu : next _ ~~> (?u, _) |- _ =>
            exists [u]; split; [now apply pulls_one | split; [discriminate|]]
        end; cbn; congruence.
    - intros st st' res Hb _ (rs & Hp & Hne & Hr). invert_run; cbn in *.
      match goal with
      | Hu : next _ ~~> (?u, _) |- _ =>
          exists (u :: rs); split; [eapply pulls_cons; eassumption|];
          split; [discriminate | now rewrite last_cons_nonempty]
      end. }
  destruct Hx as (rs & Hp & _ & Hr). exists rs. now split.
Qed.

Lemma skip_while_stops_at_result (P : Type) `{Predicate P A} :
  stops_at_result (fun _ u => u) (@next (SkipWhileIter.t IterType P) A _)
                  SkipWhileIter._iter.
Proof.
  intros z r z' Hn. cbn in Hn. unfold SkipWhileIter.next_internal in Hn.
  destruct (SkipWhileIter._done z); cbn in Hn.
  { invert_run; cbn.
    match goal with
    | Hu : next _ ~~> (?u, _) |- _ =>
        exists [u]; split; [now apply pulls_one | reflexivity]
    end. }
  assert (Hx : exists rs,
             pulls (SkipWhileIter._iter z) rs (SkipWhileIter._iter (snd (r, z'))) /\
             rs <> [] /\ fst (r, z') = List.last rs None).
  { refine (loop_returns_ind _
              (fun st res => exists rs,
                 pulls (SkipWhileIter._iter st) rs (SkipWhileIter._iter (snd res)) /\
                 rs <> [] /\ fst res = List.last rs None)
              _ _ _ (r, z') Hn).
    - intros st res Hb. invert_run; cbn;
        match goal with
        | Hu : next _ ~~> (?u, _) |- _ =>
            exists [u]; split; [now apply pulls_one | split; [discriminate | reflexivity]]
        end.
    - intros st st' res Hb _ (rs & Hp & Hne & Hr). invert_run; cbn in *.
      match goal with
      | Hu : next _ ~~> (?u, _) |- _ =>
          exists (u :: rs); split; [eapply pulls_cons; eassumption|];
          split; [discriminate | now rewrite last_cons_nonempty]
      end. }
  destruct Hx as (rs & Hp & _ & Hr). exists rs. now split.
Qed.

(** [flatten] does not touch the outer sequence while the current inner
    sequence has an item. *)
Lemma flatten_keeps_outer (J : Type) `{IteratorLaws J IterType}
  (z : FlattenIter.t J IterType) (inner inner' : IterType) (v : A) :
  FlattenIter._innerIter z = Some inner ->
  next inner ~~> (Some v, inner') ->
  next z ~~> (Some v, FlattenIter.mk (FlattenIter._iter z) (Some inner')).
Proof.
  intros Ez Hn. cbn. unfold FlattenIter.next_internal.
  apply loop_returns_exit. rewrite Ez. run_bind Hn. run_ret.
Qed.

End Demand.

(** ** Laziness of construction *)

Ltac built_pure :=
  intros s x Hx; apply ret_returns in Hx; subst x; cbn; lia.

Ltac built_pulling :=
  intros s x Hx;
  unfold IterBase.intersperse, IterBase.intersperse_with, IntersperseWithIter.new,
    IterBase.flatten, FlattenIter.new, FlattenIter.advance in Hx;
  cbn in Hx; unfold Counted.next_internal in Hx;
  invert_run; cbn; lia.

(** Building [intersperse] over a probed [range(0,3)] calls the upstream:
    it is not built without advancing it. *)
Lemma intersperse_construction_pulls_upstream :
  ~ built_after 0
      (fun s : Counted.t (FiniteGeneratorIter.t (FiniteRangeGenerator.t false)) =>
         IterBase.intersperse s (-1))
      IntersperseWithIter._iter.
Proof.
  intros Hb.
  specialize (Hb (Counted.new (rusty.range 0 3)) _ (ex_intro _ O eq_refl)).
  cbn in Hb. discriminate.
Qed.

(** C2 (amended). Building a stage makes no call of its upstream's [next],
    except for [intersperse] / [intersperse_with] and [flatten], whose
    constructors make exactly one (they fetch the first item, the first
    inner sequence).  In operation no stage asks for more than one item
    ahead: a call of [next] on [map], [inspect], [take_while], [peekable]
    (also [peek]) and [intersperse_with] makes at most one upstream call, on
    [chain] and [zip] at most one on each upstream, on [cycle] one on the
    running copy and at most one on a fresh copy; [step_by] makes at most
    [max 1 n] calls and, like [filter], [filter_map] and [skip_while],
    returns the result of the last call it made; [flatten] leaves the outer
    sequence alone while the current inner sequence has an item. *)
Theorem stages_pull_on_demand
  (IterType A : Type) `(IteratorLaws IterType A) :
  (* construction without an upstream call *)
  ((forall n : Z,
       built_after 0 (fun s : Counted.t IterType => ret (IterBase.step_by s n))
                   StepByIter._iter) /\
   (forall (J : Type) (other : J),
       built_after 0 (fun s : Counted.t IterType => ret (IterBase.chain s other))
                   ChainIter._iter) /\
   (forall (J : Type) (first : J),
       built_after 0 (fun s : Counted.t IterType => ret (IterBase.chain first s))
                   ChainIter._chainedIter) /\
   (forall (J : Type) (other : J),
       built_after 0 (fun s : Counted.t IterType => ret (IterBase.zip s other))
                   ZipIter._iter) /\
   (forall (J : Type) (first : J),
       built_after 0 (fun s : Counted.t IterType => ret (IterBase.zip first s))
                   ZipIter._zippedIter) /\
   (forall (B : Type) (f : A -> B),
       built_after 0 (fun s : Counted.t IterType => ret (IterBase.map s f))
                   MapIter._iter) /\
   (forall (F : Type) (f : F),
       built_after 0 (fun s : Counted.t IterType => ret (IterBase.filter s f))
                   FilterIter._iter) /\
   (forall (B : Type) (f : A -> option B),
       built_after 0 (fun s : Counted.t IterType => ret (IterBase.filter_map s f))
                   FilterMapIter._iter) /\
   built_after 0 (fun s : Counted.t IterType => ret (IterBase.peekable (A := A) s))
               PeekableIter._iter /\
   (forall (P : Type) (p : P),
       built_after 0 (fun s : Counted.t IterType => ret (IterBase.skip_while s p))
                   SkipWhileIter._iter) /\
   (forall (P : Type) (p : P),
       built_after 0 (fun s : Counted.t IterType => ret (IterBase.take_while s p))
                   TakeWhileIter._iter) /\
   (forall n : Z,
       built_after 0 (fun s : Counted.t IterType => ret (IterBase.skip s n))
                   SkipWhileIter._iter) /\
   (forall n : Z,
       built_after 0 (fun s : Counted.t IterType => ret (IterBase.take s n))
                   TakeWhileIter._iter) /\
   built_after 0 (fun s : Counted.t IterType => ret (IterBase.enumerate s))
               ZipIter._zippedIter /\
   (forall (C : Type) (f : C),
       built_after 0 (fun s : Counted.t IterType => ret (IterBase.inspect s f))
                   InspectIter._iter) /\
   built_after 0 (fun s : Counted.t IterType => ret (IterBase.cycle s))
               CycleIter._iter /\
   built_after 0 (fun s : Counted.t IterType => ret (IterBase.cycle s))
               CycleIter._originalIter) /\
  (* construction with one upstream call *)
  ((forall separator : A,
       built_after 1 (fun s : Counted.t IterType => IterBase.intersperse s separator)
                   IntersperseWithIter._iter) /\
   (forall (G : Type) (g : G),
       built_after 1 (fun s : Counted.t IterType => IterBase.intersperse_with s g)
                   IntersperseWithIter._iter) /\
   (forall (Outer : Type) `(Iterator Outer IterType),
       built_after 1 (fun s : Counted.t Outer => IterBase.flatten s)
                   FlattenIter._iter)) /\
  (* operation *)
  ((forall B : Type,
       calls_at_most 1 (@next (MapIter.t IterType A B) B _) MapIter._iter) /\
   (forall (C : Type) `(Callback C A),
       calls_at_most 1 (@next (InspectIter.t IterType C) A _) InspectIter._iter) /\
   (forall (P : Type) `(Predicate P A),
       calls_at_most 1 (@next (TakeWhileIter.t IterType P) A _) TakeWhileIter._iter) /\
   calls_at_most 1 (@next (PeekableIter.t IterType A) A _) PeekableIter._iter /\
   calls_at_most 1 (@PeekableIter.peek IterType A _) PeekableIter._iter /\
   (forall (G : Type) `(Generator G A),
       calls_at_most 1 (@next (IntersperseWithIter.t IterType G A) A _)
                     IntersperseWithIter._iter) /\
   (forall (J : Type) `(IteratorLaws J A),
       calls_at_most 1 (@next (ChainIter.t IterType J) A _) ChainIter._iter /\
       calls_at_most 1 (@next (ChainIter.t IterType J) A _) ChainIter._chainedIter) /\
   (forall (J B : Type) `(IteratorLaws J B),
       calls_at_most 1 (@next (ZipIter.t IterType J) (A * B) _) ZipIter._iter /\
       calls_at_most 1 (@next (ZipIter.t IterType J) (A * B) _) ZipIter._zippedIter) /\
   (forall (z z' : CycleIter.t IterType) r,
       next z ~~> (r, z') ->
       (r <> None /\ next (CycleIter._iter z) ~~> (r, CycleIter._iter z')) \/
       (exists c, next (CycleIter._iter z) ~~> (None, c) /\
                  ((r = None /\ CycleIter._iter z' = c) \/
                   next (CycleIter._originalIter z) ~~> (r, CycleIter._iter z')))) /\
   (stops_at_result (fun _ u => u) (@next (StepByIter.t IterType) A _) StepByIter._iter /\
    forall z r z',
      @next (StepByIter.t IterType) A _ z ~~> (r, z') ->
      exists rs, pulls (StepByIter._iter z) rs (StepByIter._iter z') /\
                 (length rs <= Nat.max 1 (Z.to_nat (StepByIter._stepSize z)))%nat) /\
   (forall (F : Type) `(Predicate F A),
       stops_at_result (fun _ u => u) (@next (FilterIter.t IterType F) A _)
                       FilterIter._iter) /\
   (forall B : Type,
       stops_at_result
         (fun z u => match u with
                     | Some c => FilterMapIter._filterMapFunction z c
                     | None => None
                     end)
         (@next (FilterMapIter.t IterType A B) B _) FilterMapIter._iter) /\
   (forall (P : Type) `(Predicate P A),
       stops_at_result (fun _ u => u) (@next (SkipWhileIter.t IterType P) A _)
                       SkipWhileIter._iter) /\
   (forall (J : Type) `(IteratorLaws J IterType)
           (z : FlattenIter.t J IterType) (inner inner' : IterType) (v : A),
       FlattenIter._innerIter z = Some inner ->
       next inner ~~> (Some v, inner') ->
       next z ~~> (Some v, FlattenIter.mk (FlattenIter._iter z) (Some inner')))).
Proof.
  split; [|split].
  - repeat match goal with |- _ /\ _ => split end; intros; built_pure.
  - repeat match goal with |- _ /\ _ => split end; intros; built_pulling.
  - split; [intros; apply map_calls_once|].
    split; [intros; apply inspect_calls_once|].
    split; [intros; apply take_while_calls_once|].
    split; [apply peekable_next_calls_once|].
    split; [apply peek_calls_once|].
    split; [intros; apply intersperse_calls_once|].
    split; [intros; now apply chain_calls_once|].
    split; [intros; now apply zip_calls_once|].
    split; [intros z z' r; apply cycle_calls|].
    split; [apply step_by_stops_at_result|].
    split; [intros; apply filter_stops_at_result|].
    split; [intros; apply filter_map_stops_at_result|].
    split; [intros; apply skip_while_stops_at_result|].
    intros; eapply flatten_keeps_outer; eassumption.
Qed.

(** ** Concrete runs *)

(** The theorems above at concrete sequences; traces are obtained by
    running [pull_n]. *)

Lemma exhaustion_is_permanent_witness :
  next (IterBase.step_by (rusty.range 0 0) 2)
    ~~> (None, StepByIter.mk (FiniteGeneratorIter.mk
                                (FiniteRangeGenerator.mk false 0 0 1) true)
                             2 false false) /\
  exhausted_forever
    (StepByIter.mk (FiniteGeneratorIter.mk (FiniteRangeGenerator.mk false 0 0 1) true)
                   2 false false).
Proof.
  assert (Hn : next (IterBase.step_by (rusty.range 0 0) 2)
                 ~~> (None, StepByIter.mk (FiniteGeneratorIter.mk
                                (FiniteRangeGenerator.mk false 0 0 1) true)
                             2 false false))
    by (exists O; reflexivity).
  split; [exact Hn|].
  destruct exhaustion_is_permanent as (_ & _ & Hfin & _ & Hstep & _).
  exact (Hstep _ Z _ _ (Hfin _ Z _) _ _ I Hn).
Defined.

Lemma stages_pull_on_demand_witness :
  exists it,
    IterBase.intersperse (Counted.new (rusty.range 0 3)) (-1) ~~> it /\
    Counted._calls (IntersperseWithIter._iter it) = 1%nat.
Proof.
  eexists. split; [exists O; reflexivity|].
  destruct (@stages_pull_on_demand
              (FiniteGeneratorIter.t (FiniteRangeGenerator.t false)) Z _ _)
    as (_ & (Hi & _) & _).
  apply (Hi (-1) (Counted.new (rusty.range 0 3))). exists O. reflexivity.
Defined.

Lemma zip_yields_min_pairs_witness :
  exists out z',
    yields (IterBase.zip (rusty.range 0 5) (rusty.iter [7; 8; 9])) out z' /\
    length out = 3%nat /\
    nth_error out 2 = Some (2, 9).
Proof.
  assert (Ha : exists s', yields (rusty.range 0 5) [0; 1; 2; 3; 4] s').
  { eexists. apply (pull_n_pulls 6 O). vm_compute. reflexivity. }
  assert (Hb : exists s', yields (rusty.iter [7; 8; 9]) [7; 8; 9] s').
  { eexists. apply (pull_n_pulls 4 O). vm_compute. reflexivity. }
  destruct Ha as (sa' & Ha). destruct Hb as (sb' & Hb).
  destruct (@zip_yields_min_pairs
              (FiniteGeneratorIter.t (FiniteRangeGenerator.t false))
              (CppIteratorWrapper.t Z) Z Z _ _ _ _) as (Hfin & _).
  destruct (Hfin _ _ _ _ _ _ Ha Hb) as (out & z' & Hy & _ & Hl & Hnth & _).
  exists out, z'. split; [exact Hy|]. split; [exact Hl|].
  apply Hnth; reflexivity.
Defined.

Lemma step_by_nonpositive_is_empty_witness :
  -1 <= 0 /\
  IterBase.collect (IterBase.step_by (rusty.range 0 10) (-1))
    ~~> ([], IterBase.step_by (rusty.range 0 10) (-1)).
Proof.
  assert (Hle : -1 <= 0) by lia.
  split; [exact Hle|].
  destruct (@step_by_nonpositive_is_empty _ Z _ (rusty.range 0 10) (-1) Hle)
    as (_ & _ & _ & Hc).
  exact Hc.
Defined.

Lemma step_by_strides_witness :
  1 <= 3 /\
  exists out t,
    yields (IterBase.step_by (rusty.range 0 10) 3) out t /\
    forall k, nth_error out k = nth_error [0; 1; 2; 3; 4; 5; 6; 7; 8; 9] (k * 3).
Proof.
  assert (Hpos : 1 <= 3) by lia.
  split; [exact Hpos|].
  assert (Hy : yields (rusty.range 0 10) [0; 1; 2; 3; 4; 5; 6; 7; 8; 9]
                 (FiniteGeneratorIter.mk (FiniteRangeGenerator.mk false 10 10 1) true)).
  { apply (pull_n_pulls 11 O). vm_compute. reflexivity. }
  assert (He : exhausted_forever
                 (FiniteGeneratorIter.mk (FiniteRangeGenerator.mk false 10 10 1) true)).
  { apply (sticky_forever
             (FiniteGeneratorIter.mk (FiniteRangeGenerator.mk false 10 10 1) false));
      [exact I | exists O; reflexivity]. }
  destruct step_by_strides as (Hgen & _).
  destruct (Hgen _ Z _ _ (rusty.range 0 10) 3 Hpos) as (_ & Hfin).
  exact (Hfin _ _ Hy He).
Defined.

Lemma cycle_repeats_upstream_witness :
  exists out c',
    pulls (IterBase.cycle (rusty.range 0 3)) (List.map Some out) c' /\
    length out = 7%nat /\
    forall i, (i < 7)%nat -> nth_error out i = nth_error [0; 1; 2] (i mod 3).
Proof.
  assert (Hy : yields (rusty.range 0 3) [0; 1; 2]
                 (FiniteGeneratorIter.mk (FiniteRangeGenerator.mk false 3 3 1) true)).
  { apply (pull_n_pulls 4 O). vm_compute. reflexivity. }
  destruct cycle_repeats_upstream as (Hgen & _).
  destruct (Hgen _ Z _ _ _ _ _ Hy) as (Hrep & _).
  destruct (Hrep ltac:(discriminate) 7%nat) as (out & c' & Hp & Hl & _ & Hnth).
  exists out, c'. split; [exact Hp|]. split; [exact Hl|]. exact Hnth.
Defined.

Lemma intersperse_between_items_witness :
  exists it out t,
    IterBase.intersperse (rusty.range 0 3) (-1) ~~> it /\
    yields it out t /\
    Z.of_nat (length out) = 5 /\
    nth_error out 1 = Some (-1) /\
    nth_error out 4 = Some 2.
Proof.
  assert (Hy : yields (rusty.range 0 3) [0; 1; 2]
                 (FiniteGeneratorIter.mk (FiniteRangeGenerator.mk false 3 3 1) true)).
  { apply (pull_n_pulls 4 O). vm_compute. reflexivity. }
  destruct (@intersperse_between_items _ Z _ _ _ _ (-1) _ Hy)
    as (it & out & t & Hb & Ho & _ & Hl & Hev & Hod).
  exists it, out, t. split; [exact Hb|]. split; [exact Ho|].
  assert (Hlen : Z.of_nat (length out) = 5) by (apply Hl; simpl; lia).
  split; [exact Hlen|]. split.
  - apply (Hod 0%nat). lia.
  - exact (Hev 2%nat).
Defined.

Lemma take_advances_upstream_once_more_witness :
  yields (IterBase.take (Counted.new (rusty.range 0 5)) 2) [0; 1]
         (TakeWhileIter.mk
            (Counted.mk (FiniteGeneratorIter.mk
                           (FiniteRangeGenerator.mk false 3 5 1) false) 3)
            (Counter.mk 3 2) true).
Proof.
  assert (Hp : pulls (rusty.range 0 5) (List.map Some [0; 1] ++ [Some 2])
                 (FiniteGeneratorIter.mk (FiniteRangeGenerator.mk false 3 5 1) false)).
  { apply (pull_n_pulls 3 O). vm_compute. reflexivity. }
  destruct (@take_advances_upstream_once_more _ Z _ _ _ _ 2 [0; 1] 2
              ltac:(lia) eq_refl Hp) as (_ & Hc & _).
  exact Hc.
Defined.

(* ================================================================== *)
(** * Part III: further properties of stages, producers and consumers  *)
(* ================================================================== *)

(** ** Stages over a finite upstream *)

(** Two states whose next call agrees yield the same items. *)
Lemma yields_same_first_call {I A : Type} `{Iterator I A} (x y t : I) (l : list A) :
  (forall r t', next x ~~> (r, t') -> next y ~~> (r, t')) ->
  yields x l t -> yields y l t.
Proof.
  intros Hxy. unfold yields.
  destruct l as [|a l]; simpl; intros Hp; inversion Hp; subst;
    eapply pulls_cons; eauto.
Qed.

(** *** [chain] *)

Lemma chain_second {I J A : Type} `{IteratorLaws I A} `{IteratorLaws J A}
  (sa : I) (lb : list A) :
  forall (sb sb' : J),
  yields sb lb sb' ->
  yields (ChainIter.mk sa sb true) lb (ChainIter.mk sa sb' true).
Proof.
  induction lb as [|b lb IH]; intros sb sb' Hy.
  - apply yields_nil in Hy. apply yields_nil.
    cbn. unfold ChainIter.next_internal. cbn. run_bind Hy. run_ret.
  - apply yields_cons in Hy. destruct Hy as (sb1 & Hn & Hy).
    apply yields_cons. exists (ChainIter.mk sa sb1 true). split; [|now apply IH].
    cbn. unfold ChainIter.next_internal. cbn. run_bind Hn. run_ret.
Qed.

(** X1 ([chain]).  A chain of two finite sequences yields all items of the
    first, then all items of the second, and is then exhausted.  The first
    sequence is left in the state of its first exhausted call: it is not
    asked again while the second one is drained. *)
Theorem chain_yields_first_then_second
  {I J A : Type} `{IteratorLaws I A} `{IteratorLaws J A}
  (sa sa' : I) (sb sb' : J) (la lb : list A) :
  yields sa la sa' -> yields sb lb sb' ->
  yields (IterBase.chain sa sb) (la ++ lb) (ChainIter.mk sa' sb' true).
Proof.
  unfold IterBase.chain, ChainIter.new.
  revert sa. induction la as [|a la IH]; intros sa Ha Hb.
  - apply yields_nil in Ha. simpl app. destruct lb as [|b lb].
    + apply yields_nil in Hb. apply yields_nil.
      cbn. unfold ChainIter.next_internal. cbn. run_bind Ha. run_bind Hb. run_ret.
    + apply yields_cons in Hb. destruct Hb as (sb1 & Hn & Hb).
      apply yields_cons. exists (ChainIter.mk sa' sb1 true). split.
      * cbn. unfold ChainIter.next_internal. cbn. run_bind Ha. run_bind Hn. run_ret.
      * now apply chain_second.
  - apply yields_cons in Ha. destruct Ha as (sa1 & Hn & Ha).
    simpl app. apply yields_cons. exists (ChainIter.mk sa1 sb false). split.
    + cbn. unfold ChainIter.next_internal. cbn. run_bind Hn. run_ret.
    + now apply IH.
Qed.

(** *** [map] *)

(** X2 ([map]).  Mapping a finite sequence yields the images of its items,
    in the same order and as many. *)
Theorem map_yields_images
  {I A B : Type} `{IteratorLaws I A} (f : A -> B) (l : list A) (s s' : I) :
  yields s l s' ->
  yields (IterBase.map s f) (List.map f l) (MapIter.mk s' f).
Proof.
  unfold IterBase.map, MapIter.new.
  revert s. induction l as [|a l IH]; intros s Hy.
  - apply yields_nil in Hy. apply yields_nil.
    cbn. unfold MapIter.next_internal. cbn. run_bind Hy. run_ret.
  - apply yields_cons in Hy. destruct Hy as (s1 & Hn & Hy).
    simpl List.map. apply yields_cons. exists (MapIter.mk s1 f). split; [|now apply IH].
    cbn. unfold MapIter.next_internal. cbn. run_bind Hn. run_ret.
Qed.

(** *** [filter] and [filter_map] *)

Section Filter.
Context {IterType A : Type} `{IteratorLaws IterType A}.
Variable p : A -> bool.

Lemma filter_next_rejected (s s1 : IterType) (a : A) r t :
  next s ~~> (Some a, s1) -> p a = false ->
  next (FilterIter.mk s1 p) ~~> (r, t) -> next (FilterIter.mk s p) ~~> (r, t).
Proof.
  intros Hn Hp Hr. cbn in *. unfold FilterIter.next_internal in *.
  eapply loop_returns_continue; [intros ?; solve_mono | | exact Hr].
  cbn. run_bind Hn. unfold test, fun_Predicate. rewrite Hp. run_ret.
Qed.

Lemma filter_next_accepted (s s1 : IterType) (a : A) :
  next s ~~> (Some a, s1) -> p a = true ->
  next (FilterIter.mk s p) ~~> (Some a, FilterIter.mk s1 p).
Proof.
  intros Hn Hp. cbn. unfold FilterIter.next_internal.
  apply loop_returns_exit. cbn. run_bind Hn.
  unfold test, fun_Predicate. rewrite Hp. run_ret.
Qed.

Lemma filter_next_end (s s1 : IterType) :
  next s ~~> (None, s1) -> next (FilterIter.mk s p) ~~> (None, FilterIter.mk s1 p).
Proof.
  intros Hn. cbn. unfold FilterIter.next_internal.
  apply loop_returns_exit. cbn. run_bind Hn. run_ret.
Qed.

Lemma filter_yields (l : list A) :
  forall s s' : IterType,
  yields s l s' ->
  yields (FilterIter.mk s p) (List.filter p l) (FilterIter.mk s' p).
Proof.
  induction l as [|a l IH]; intros s s' Hy.
  - apply yields_nil in Hy. apply yields_nil. now apply filter_next_end.
  - apply yields_cons in Hy. destruct Hy as (s1 & Hn & Hy). simpl List.filter.
    destruct (p a) eqn:Hp.
    + apply yields_cons. exists (FilterIter.mk s1 p). split; [|now apply IH].
      now apply filter_next_accepted.
    + apply (yields_same_first_call (FilterIter.mk s1 p)); [|now apply IH].
      intros r t. now apply filter_next_rejected with (a := a).
Qed.

Variable B : Type.
Variable f : A -> option B.

Lemma filter_map_next_rejected (s s1 : IterType) (a : A) r t :
  next s ~~> (Some a, s1) -> f a = None ->
  next (FilterMapIter.mk s1 f) ~~> (r, t) -> next (FilterMapIter.mk s f) ~~> (r, t).
Proof.
  intros Hn Hp Hr. cbn in *. unfold FilterMapIter.next_internal in *.
  eapply loop_returns_continue; [intros ?; solve_mono | | exact Hr].
  cbn. run_bind Hn. rewrite Hp. run_ret.
Qed.

Lemma filter_map_yields (l : list A) :
  forall s s' : IterType,
  yields s l s' ->
  yields (FilterMapIter.mk s f) (filter_mapped f l) (FilterMapIter.mk s' f).
Proof.
  induction l as [|a l IH]; intros s s' Hy.
  - apply yields_nil in Hy. apply yields_nil.
    cbn. unfold FilterMapIter.next_internal.
    apply loop_returns_exit. cbn. run_bind Hy. run_ret.
  - apply yields_cons in Hy. destruct Hy as (s1 & Hn & Hy). simpl filter_mapped.
    destruct (f a) as [b|] eqn:Hf.
    + apply yields_cons. exists (FilterMapIter.mk s1 f). split; [|now apply IH].
      cbn. unfold FilterMapIter.next_internal.
      apply loop_returns_exit. cbn. run_bind Hn. rewrite Hf. run_ret.
    + apply (yields_same_first_call (FilterMapIter.mk s1 f)); [|now apply IH].
      intros r t. now apply filter_map_next_rejected with (a := a).
Qed.

End Filter.

(** X3 ([filter]).  Filtering a finite sequence with a function yields
    exactly the items the function accepts, in upstream order; items it
    rejects are skipped inside one call. *)
Theorem filter_yields_accepted_items
  {I A : Type} `{IteratorLaws I A} (p : A -> bool) (l : list A) (s s' : I) :
  yields s l s' ->
  yields (IterBase.filter s p) (List.filter p l) (FilterIter.mk s' p).
Proof. apply filter_yields. Qed.

(** X4 ([filter_map]).  [filter_map] yields the values the function gives,
    in upstream order, and drops the items for which it gives none. *)
Theorem filter_map_yields_given_values
  {I A B : Type} `{IteratorLaws I A} (f : A -> option B) (l : list A) (s s' : I) :
  yields s l s' ->
  yields (IterBase.filter_map s f) (filter_mapped f l) (FilterMapIter.mk s' f).
Proof. apply filter_map_yields. Qed.

(** *** [skip_while] and [skip] *)

Section SkipWhile.
Context {IterType A P : Type} `{IteratorLaws IterType A} `{Predicate P A}.

(** After its first call a [skip_while] forwards its upstream. *)
Lemma skip_while_forwards (p : P) (l : list A) :
  forall s s' : IterType,
  yields s l s' ->
  yields (SkipWhileIter.mk s p true) l (SkipWhileIter.mk s' p true).
Proof.
  induction l as [|a l IH]; intros s s' Hy.
  - apply yields_nil in Hy. apply yields_nil.
    cbn. unfold SkipWhileIter.next_internal. cbn. run_bind Hy. run_ret.
  - apply yields_cons in Hy. destruct Hy as (s1 & Hn & Hy).
    apply yields_cons. exists (SkipWhileIter.mk s1 p true). split; [|now apply IH].
    cbn. unfold SkipWhileIter.next_internal. cbn. run_bind Hn. run_ret.
Qed.

(** The first call, on an item the predicate holds for: the call goes on as
    the first call behind this item would. *)
Lemma skip_while_next_dropped (p p1 : P) (s s1 : IterType) (a : A) r t :
  next s ~~> (Some a, s1) -> test p a = (true, p1) ->
  next (SkipWhileIter.mk s1 p1 false) ~~> (r, t) ->
  next (SkipWhileIter.mk s p false) ~~> (r, t).
Proof.
  intros Hn Hp Hr. cbn in *. unfold SkipWhileIter.next_internal in *. cbn in *.
  eapply loop_returns_continue; [intros ?; solve_mono | | exact Hr].
  cbn. run_bind Hn. rewrite Hp. cbn. run_ret.
Qed.

Lemma skip_while_next_kept (p p1 : P) (s s1 : IterType) (a : A) :
  next s ~~> (Some a, s1) -> test p a = (false, p1) ->
  next (SkipWhileIter.mk s p false) ~~> (Some a, SkipWhileIter.mk s1 p1 true).
Proof.
  intros Hn Hp. cbn. unfold SkipWhileIter.next_internal. cbn.
  apply loop_returns_exit. cbn. run_bind Hn. rewrite Hp. cbn. run_ret.
Qed.

Lemma skip_while_next_end (p : P) (s s1 : IterType) :
  next s ~~> (None, s1) ->
  next (SkipWhileIter.mk s p false) ~~> (None, SkipWhileIter.mk s1 p true).
Proof.
  intros Hn. cbn. unfold SkipWhileIter.next_internal. cbn.
  apply loop_returns_exit. cbn. run_bind Hn. run_ret.
Qed.

End SkipWhile.

(** X5 ([skip_while]).  [skip_while] drops the leading items the predicate
    holds for and yields everything from the first item it rejects,
    including later items the predicate would hold for again. *)
Theorem skip_while_drops_leading_items
  {I A : Type} `{IteratorLaws I A} (p : A -> bool) (l : list A) (s s' : I) :
  yields s l s' ->
  yields (IterBase.skip_while s p) (drop_while p l) (SkipWhileIter.mk s' p true).
Proof.
  unfold IterBase.skip_while, SkipWhileIter.new.
  revert s. induction l as [|a l IH]; intros s Hy.
  - apply yields_nil in Hy. apply yields_nil. now apply skip_while_next_end.
  - pose proof Hy as Hy0.
    apply yields_cons in Hy. destruct Hy as (s1 & Hn & Hy). simpl drop_while.
    destruct (p a) eqn:Hp.
    + apply (yields_same_first_call (SkipWhileIter.mk s1 p false)); [|now apply IH].
      intros r t. apply skip_while_next_dropped with (a := a); [exact Hn|].
      unfold test, fun_Predicate. now rewrite Hp.
    + apply yields_cons. exists (SkipWhileIter.mk s1 p true). split.
      * apply skip_while_next_kept; [exact Hn|].
        unfold test, fun_Predicate. now rewrite Hp.
      * now apply skip_while_forwards.
Qed.

Lemma skip_counter_yields {I A : Type} `{IteratorLaws I A} (n : Z) (l : list A) :
  forall (s s' : I) (c : Z),
  yields s l s' ->
  exists c',
    yields (SkipWhileIter.mk s (Counter.mk c n) false)
           (skipn (Z.to_nat (n - c)) l)
           (SkipWhileIter.mk s' (Counter.mk c' n) true).
Proof.
  induction l as [|a l IH]; intros s s' c Hy.
  - apply yields_nil in Hy. exists c. rewrite skipn_nil.
    apply yields_nil. now apply skip_while_next_end.
  - apply yields_cons in Hy. destruct Hy as (s1 & Hn & Hy).
    destruct (Z.ltb_spec c n) as [Hlt | Hge].
    + destruct (IH s1 s' (c + 1) Hy) as (c' & Hy').
      exists c'.
      replace (Z.to_nat (n - c)) with (S (Z.to_nat (n - (c + 1)))) by lia.
      simpl skipn.
      apply (yields_same_first_call
               (SkipWhileIter.mk s1 (Counter.mk (c + 1) n) false)); [|exact Hy'].
      intros r t. apply skip_while_next_dropped with (a := a); [exact Hn|].
      unfold test, Counter_Predicate, Counter.call. cbn.
      now destruct (Z.ltb_spec c n); [|lia].
    + exists (c + 1).
      replace (Z.to_nat (n - c)) with O by lia. simpl skipn.
      apply yields_cons. exists (SkipWhileIter.mk s1 (Counter.mk (c + 1) n) true). split.
      * apply skip_while_next_kept; [exact Hn|].
        unfold test, Counter_Predicate, Counter.call. cbn.
        now destruct (Z.ltb_spec c n); [lia|].
      * now apply skip_while_forwards.
Qed.

(** X6 ([skip]).  [skip(count)] drops the first [count] items of a finite
    sequence and yields the rest; when the sequence has no more than
    [count] items it yields nothing, and a [count] of zero or less drops
    nothing. *)
Theorem skip_drops_first_items
  {I A : Type} `{IteratorLaws I A} (count : Z) (l : list A) (s s' : I) :
  yields s l s' ->
  exists t, yields (IterBase.skip s count) (skipn (Z.to_nat count) l) t /\
            SkipWhileIter._iter t = s'.
Proof.
  intros Hy. unfold IterBase.skip, SkipWhileIter.new, Counter.new.
  destruct (skip_counter_yields count l s s' 0 Hy) as (c' & Hy').
  rewrite Z.sub_0_r in Hy'. eexists. split; [exact Hy' | reflexivity].
Qed.

(** *** [take_while] and [take] *)

(** X7 ([take_while]).  [take_while] yields the leading items the predicate
    holds for and is exhausted from the first item it rejects, whatever
    follows.  The rejected item is consumed: the upstream has been advanced
    once more than items were yielded. *)
Theorem take_while_yields_leading_items
  {I A : Type} `{IteratorLaws I A} (p : A -> bool) (l : list A) (s s' : I) :
  yields s l s' ->
  exists t,
    yields (IterBase.take_while s p) (take_while_prefix p l) t /\
    TakeWhileIter._done t = true /\
    pulls s (firstn (S (length (take_while_prefix p l))) (List.map Some l ++ [None]))
          (TakeWhileIter._iter t).
Proof.
  unfold IterBase.take_while, TakeWhileIter.new.
  revert s. induction l as [|a l IH]; intros s Hy.
  - apply yields_nil in Hy. exists (TakeWhileIter.mk s' p true).
    split; [|split; [reflexivity | now apply pulls_one]].
    apply yields_nil. cbn. unfold TakeWhileIter.next_internal. cbn.
    run_bind Hy. run_ret.
  - apply yields_cons in Hy. destruct Hy as (s1 & Hn & Hy). simpl take_while_prefix.
    destruct (p a) eqn:Hp.
    + destruct (IH s1 Hy) as (t & Ht & Hd & Hu).
      exists t. split; [|split; [exact Hd|]].
      * apply yields_cons. exists (TakeWhileIter.mk s1 p false). split; [|exact Ht].
        cbn. unfold TakeWhileIter.next_internal. cbn. run_bind Hn.
        unfold test, fun_Predicate. rewrite Hp. run_ret.
      * simpl. eapply pulls_cons; [exact Hn | exact Hu].
    + exists (TakeWhileIter.mk s1 p true).
      split; [|split; [reflexivity | now apply pulls_one]].
      apply yields_nil. cbn. unfold TakeWhileIter.next_internal. cbn. run_bind Hn.
      unfold test, fun_Predicate. rewrite Hp. run_ret.
Qed.

Lemma take_counter_yields {I A : Type} `{IteratorLaws I A} (n : Z) (l : list A) :
  forall (s s' : I) (c : Z),
  yields s l s' ->
  exists t,
    yields (TakeWhileIter.mk s (Counter.mk c n) false) (firstn (Z.to_nat (n - c)) l) t /\
    pulls s (firstn (S (Z.to_nat (n - c))) (List.map Some l ++ [None]))
          (TakeWhileIter._iter t).
Proof.
  induction l as [|a l IH]; intros s s' c Hy.
  - apply yields_nil in Hy. exists (TakeWhileIter.mk s' (Counter.mk c n) true).
    rewrite firstn_nil. split; [|simpl; rewrite firstn_nil; now apply pulls_one].
    apply yields_nil. cbn. unfold TakeWhileIter.next_internal. cbn.
    run_bind Hy. run_ret.
  - apply yields_cons in Hy. destruct Hy as (s1 & Hn & Hy).
    destruct (Z.ltb_spec c n) as [Hlt | Hge].
    + destruct (IH s1 s' (c + 1) Hy) as (t & Ht & Hu).
      exists t.
      replace (Z.to_nat (n - c)) with (S (Z.to_nat (n - (c + 1)))) by lia.
      split.
      * simpl firstn. apply yields_cons.
        exists (TakeWhileIter.mk s1 (Counter.mk (c + 1) n) false). split; [|exact Ht].
        cbn. unfold TakeWhileIter.next_internal. cbn. run_bind Hn.
        unfold test, Counter_Predicate, Counter.call. cbn.
        destruct (Z.ltb_spec c n); [run_ret | lia].
      * simpl. eapply pulls_cons; [exact Hn | exact Hu].
    + exists (TakeWhileIter.mk s1 (Counter.mk (c + 1) n) true).
      replace (Z.to_nat (n - c)) with O by lia.
      split; [|simpl; now apply pulls_one].
      apply yields_nil. cbn. unfold TakeWhileIter.next_internal. cbn. run_bind Hn.
      unfold test, Counter_Predicate, Counter.call. cbn.
      destruct (Z.ltb_spec c n); [lia | run_ret].
Qed.

(** X8 ([take]).  [take(count)] of a finite sequence yields its first
    [count] items, all of them when it has fewer, none when [count] is zero
    or less.  It advances its upstream once more than [count] times unless
    the upstream ends before: even [take(0)] consumes one upstream item. *)
Theorem take_yields_first_items
  {I A : Type} `{IteratorLaws I A} (count : Z) (l : list A) (s s' : I) :
  yields s l s' ->
  exists t,
    yields (IterBase.take s count) (firstn (Z.to_nat count) l) t /\
    pulls s (firstn (S (Z.to_nat count)) (List.map Some l ++ [None]))
          (TakeWhileIter._iter t).
Proof.
  intros Hy. unfold IterBase.take, TakeWhileIter.new, Counter.new.
  destruct (take_counter_yields count l s s' 0 Hy) as (t & Ht & Hu).
  rewrite Z.sub_0_r in Ht, Hu. now exists t.
Qed.

(** *** [enumerate] *)

Lemma arithmetic_snoc (k : nat) :
  forall start step,
  arithmetic start step (S k) = arithmetic start step k ++ [start + Z.of_nat k * step].
Proof.
  induction k as [|k IH]; intros start step.
  - simpl. f_equal. lia.
  - change (arithmetic start step (S (S k)))
      with (start :: arithmetic (start + step) step (S k)).
    rewrite IH. cbn [arithmetic app].
    replace (start + step + Z.of_nat k * step) with (start + Z.of_nat (S k) * step) by lia.
    reflexivity.
Qed.

Lemma arithmetic_length (k : nat) :
  forall start step, length (arithmetic start step k) = k.
Proof. induction k as [|k IH]; intros; simpl; [reflexivity | now rewrite IH]. Qed.

Lemma arithmetic_nth_error (k : nat) :
  forall start step i, (i < k)%nat ->
  nth_error (arithmetic start step k) i = Some (start + Z.of_nat i * step).
Proof.
  induction k as [|k IH]; intros start step i Hi; [lia|].
  destruct i as [|i]; cbn [arithmetic nth_error].
  - f_equal. lia.
  - rewrite IH by lia. f_equal. lia.
Qed.

Lemma infinite_range_pulls (k : nat) :
  forall start step,
  pulls (rusty.infinite_range start step)
        (List.map Some (arithmetic start step k))
        (rusty.infinite_range (start + Z.of_nat k * step) step).
Proof.
  unfold rusty.infinite_range, rusty.infinite_generator.
  induction k as [|k IH]; intros start step.
  - simpl. rewrite Z.add_0_r. constructor.
  - simpl arithmetic. simpl List.map.
    eapply pulls_cons; [exists O; reflexivity|].
    replace (start + Z.of_nat (S k) * step) with (start + step + Z.of_nat k * step) by lia.
    apply IH.
Qed.

(** X9 ([enumerate]).  [enumerate] pairs every item of a finite sequence
    with its position, counted from 0, and yields as many pairs as there
    are items. *)
Theorem enumerate_pairs_items_with_positions
  {I A : Type} `{IteratorLaws I A} (l : list A) (s s' : I) :
  yields s l s' ->
  exists out t,
    yields (IterBase.enumerate s) out t /\
    length out = length l /\
    forall i x, nth_error l i = Some x -> nth_error out i = Some (Z.of_nat i, x).
Proof.
  intros Hy. unfold IterBase.enumerate, ZipIter.new.
  exists (combine (arithmetic 0 1 (length l)) l).
  exists (ZipIter.mk (rusty.infinite_range (0 + Z.of_nat (S (length l)) * 1) 1) s' true).
  split; [|split].
  - apply (zip_lockstep (arithmetic 0 1 (length l)) l _ _ _ _
             (Some (0 + Z.of_nat (length l) * 1)) None).
    + apply arithmetic_length.
    + now right.
    + replace (List.map Some (arithmetic 0 1 (length l))
                 ++ [Some (0 + Z.of_nat (length l) * 1)])
        with (List.map Some (arithmetic 0 1 (S (length l))))
        by (rewrite arithmetic_snoc, map_app; reflexivity).
      apply (infinite_range_pulls (S (length l)) 0 1).
    + exact Hy.
  - rewrite length_combine, arithmetic_length. lia.
  - intros i x Hx. apply nth_error_combine; [|exact Hx].
    rewrite arithmetic_nth_error.
    + f_equal. lia.
    + apply nth_error_Some. congruence.
Qed.

(** *** [flatten] *)

Section Flatten.
Context {IterType InnerIterType A : Type}.
Context `{IteratorLaws IterType InnerIterType} `{IteratorLaws InnerIterType A}.

Lemma advance_stores (outer o1 : IterType) (j : InnerIterType) x :
  next outer ~~> (Some j, o1) ->
  FlattenIter.advance (FlattenIter.mk outer x) ~~> (true, FlattenIter.mk o1 (Some j)).
Proof. intros Hn. unfold FlattenIter.advance. cbn. run_bind Hn. run_ret. Qed.

Lemma advance_resets (outer o1 : IterType) (x : option InnerIterType) :
  next outer ~~> (None, o1) ->
  FlattenIter.advance (FlattenIter.mk outer x) ~~> (false, FlattenIter.mk o1 None).
Proof. intros Hn. unfold FlattenIter.advance. cbn. run_bind Hn. run_ret. Qed.

Lemma flatten_running (inners : list InnerIterType) :
  forall (ls : list (list A)) (outer outer' : IterType) (li : list A)
         (inner inner' : InnerIterType),
  yields outer inners outer' ->
  Forall2 (fun i l => exists e, yields i l e) inners ls ->
  yields inner li inner' ->
  exists t, yields (FlattenIter.mk outer (Some inner)) (li ++ concat ls) t /\
            FlattenIter._iter t = outer'.
Proof.
  induction inners as [|j inners IH]; intros ls outer outer' li.
  - induction li as [|a li IHli]; intros inner inner' Ho Hf Hi.
    + inversion Hf; subst. apply yields_nil in Ho. apply yields_nil in Hi.
      exists (FlattenIter.mk outer' None). split; [|reflexivity].
      apply yields_nil. cbn. unfold FlattenIter.next_internal.
      apply loop_returns_exit. cbn. run_bind Hi.
      pose proof (advance_resets _ _ (Some inner') Ho) as Ha.
      run_bind Ha. run_ret.
    + apply yields_cons in Hi. destruct Hi as (i1 & Hn & Hi).
      destruct (IHli i1 inner' Ho Hf Hi) as (t & Ht & Hu).
      exists t. split; [|exact Hu].
      simpl app. apply yields_cons. exists (FlattenIter.mk outer (Some i1)).
      split; [|exact Ht].
      cbn. unfold FlattenIter.next_internal.
      apply loop_returns_exit. cbn. run_bind Hn. run_ret.
  - induction li as [|a li IHli]; intros inner inner' Ho Hf Hi.
    + inversion Hf as [|? lj ? ls' (e & Hj) Hf']; subst.
      apply yields_cons in Ho. destruct Ho as (o1 & Hno & Ho).
      apply yields_nil in Hi.
      destruct (IH ls' o1 outer' lj j e Ho Hf' Hj) as (t & Ht & Hu).
      exists t. split; [|exact Hu].
      simpl app. simpl concat.
      apply (yields_same_first_call (FlattenIter.mk o1 (Some j))); [|exact Ht].
      intros r t' Hr. cbn in *. unfold FlattenIter.next_internal in *.
      eapply loop_returns_continue; [intros ?; solve_mono | | exact Hr].
      cbn. run_bind Hi.
      pose proof (advance_stores _ _ _ (Some inner') Hno) as Ha.
      run_bind Ha. run_ret.
    + apply yields_cons in Hi. destruct Hi as (i1 & Hn & Hi).
      destruct (IHli i1 inner' Ho Hf Hi) as (t & Ht & Hu).
      exists t. split; [|exact Hu].
      simpl app. apply yields_cons. exists (FlattenIter.mk outer (Some i1)).
      split; [|exact Ht].
      cbn. unfold FlattenIter.next_internal.
      apply loop_returns_exit. cbn. run_bind Hn. run_ret.
Qed.

End Flatten.


(** *** [inspect] *)

(** X11 ([inspect]).  [inspect] forwards the items of its upstream
    unchanged and calls the callback once on each yielded item, in order,
    and not on exhaustion. *)
Theorem inspect_forwards_and_observes
  {I A C : Type} `{IteratorLaws I A} `{Callback C A}
  (l : list A) (s s' : I) (callback : C) :
  yields s l s' ->
  yields (IterBase.inspect s callback) l
         (InspectIter.mk s' (fold_left observe l callback)).
Proof.
  unfold IterBase.inspect, InspectIter.new.
  revert s callback. induction l as [|a l IH]; intros s callback Hy.
  - apply yields_nil in Hy. apply yields_nil.
    cbn. unfold InspectIter.next_internal. cbn. run_bind Hy. run_ret.
  - apply yields_cons in Hy. destruct Hy as (s1 & Hn & Hy).
    apply yields_cons. exists (InspectIter.mk s1 (observe callback a)).
    split; [|now apply IH].
    cbn. unfold InspectIter.next_internal. cbn. run_bind Hn. run_ret.
Qed.

(** *** [peekable] *)

Lemma peekable_forwards {I A : Type} `{IteratorLaws I A} (l : list A) :
  forall s s' : I,
  yields s l s' ->
  yields (PeekableIter.mk s None) l (PeekableIter.mk s' None).
Proof.
  induction l as [|a l IH]; intros s s' Hy.
  - apply yields_nil in Hy. apply yields_nil.
    cbn. unfold PeekableIter.next_internal. cbn. run_bind Hy. run_ret.
  - apply yields_cons in Hy. destruct Hy as (s1 & Hn & Hy).
    apply yields_cons. exists (PeekableIter.mk s1 None). split; [|now apply IH].
    cbn. unfold PeekableIter.next_internal. cbn. run_bind Hn. run_ret.
Qed.

(** X12 ([peekable]).  A peekable sequence yields the items of its
    upstream.  Peeking at a sequence that has a next item returns this
    item, does so again when repeated, and loses nothing: the sequence
    still yields all items, the peeked one first. *)
Theorem peek_shows_next_item_without_consuming
  {I A : Type} `{IteratorLaws I A} (a : A) (l : list A) (s s' : I) :
  yields s (a :: l) s' ->
  yields (IterBase.peekable s) (a :: l) (PeekableIter.mk s' None) /\
  exists p,
    PeekableIter.peek (IterBase.peekable s) ~~> (Some a, p) /\
    PeekableIter.peek p ~~> (Some a, p) /\
    yields p (a :: l) (PeekableIter.mk s' None).
Proof.
  intros Hy. unfold IterBase.peekable, PeekableIter.new.
  split; [now apply peekable_forwards|].
  apply yields_cons in Hy. destruct Hy as (s1 & Hn & Hy).
  exists (PeekableIter.mk s1 (Some (Some a))). split; [|split].
  - unfold PeekableIter.peek. cbn. run_bind Hn. run_ret.
  - unfold PeekableIter.peek. cbn. run_ret.
  - apply yields_cons. exists (PeekableIter.mk s1 None). split.
    + cbn. unfold PeekableIter.next_internal. cbn. run_ret.
    + now apply peekable_forwards.
Qed.

(** ** Leaf producers *)

(** *** [iter] *)

Lemma iter_yields {A : Type} (l : list A) :
  yields (rusty.iter l) l (rusty.iter []).
Proof.
  unfold rusty.iter. induction l as [|a l IH].
  - apply yields_nil. exists O. reflexivity.
  - apply yields_cons. exists (CppIteratorWrapper.mk l). split; [|exact IH].
    exists O. reflexivity.
Qed.

(** X13 ([iter], [collect], [count]).  Iterating over a collection and
    collecting again gives the collection back, item for item, and [count]
    gives its size; both leave the sequence exhausted. *)
Theorem iter_collect_round_trip {A : Type} (l : list A) :
  IterBase.collect (rusty.iter l) ~~> (l, rusty.iter []) /\
  IterBase.count (rusty.iter l) ~~> (Z.of_nat (length l), rusty.iter []) /\
  exhausted_forever (rusty.iter (@nil A)).
Proof.
  split; [|split].
  - apply collect_of_yields. apply iter_yields.
  - unfold IterBase.count, rusty.iter.
    assert (Hc : forall (r : list A) (n : Z),
               loop (fun '(n, st) =>
                       '(value, st') <- next st ;;
                       match value with
                       | Some _ => ret (inl (n + 1, st'))
                       | None => ret (inr (n, st'))
                       end) (n, CppIteratorWrapper.mk r)
                 ~~> (n + Z.of_nat (length r), CppIteratorWrapper.mk [])).
    { induction r as [|a r IH]; intros n.
      - apply loop_returns_exit. exists O. cbn. now rewrite Z.add_0_r.
      - eapply loop_returns_continue.
        + intros [m st]. solve_mono.
        + exists O. reflexivity.
        + replace (n + Z.of_nat (length (a :: r))) with (n + 1 + Z.of_nat (length r))
            by (simpl length; lia).
          apply IH. }
    exact (Hc l 0).
  - intros k. exists (rusty.iter []).
    induction k as [|k IH]; simpl; [constructor|].
    eapply pulls_cons; [exists O; reflexivity | exact IH].
Qed.

(** *** [range] and [range_inclusive] *)

Section Range.
Variable Inclusive : bool.
Variables max step : Z.

(** The first value the range no longer contains. *)
Local Abbreviation bound := (if Inclusive then max + 1 else max).
Local Abbreviation at_value v :=
  (FiniteGeneratorIter.mk (FiniteRangeGenerator.mk Inclusive v max step) false).

Lemma finite_range_next_item (v : Z) :
  v < bound -> next (at_value v) ~~> (Some v, at_value (v + step)).
Proof.
  intros Hv. exists O.
  destruct Inclusive; cbn;
    unfold generate, FiniteRangeGenerator_Generator, FiniteRangeGenerator.call; cbn.
  - replace (v <=? max) with true by (symmetry; apply Z.leb_le; lia). reflexivity.
  - replace (v <? max) with true by (symmetry; apply Z.ltb_lt; lia). reflexivity.
Qed.

Lemma finite_range_next_end (v : Z) :
  bound <= v ->
  next (at_value v)
    ~~> (None, FiniteGeneratorIter.mk (FiniteRangeGenerator.mk Inclusive v max step) true).
Proof.
  intros Hv. exists O.
  destruct Inclusive; cbn;
    unfold generate, FiniteRangeGenerator_Generator, FiniteRangeGenerator.call; cbn.
  - replace (v <=? max) with false by (symmetry; apply Z.leb_gt; lia). reflexivity.
  - replace (v <? max) with false by (symmetry; apply Z.ltb_ge; lia). reflexivity.
Qed.

Lemma finite_range_yields (k : nat) :
  forall v : Z,
  0 < step ->
  bound <= v + Z.of_nat k * step ->
  (k = O \/ v + (Z.of_nat k - 1) * step < bound) ->
  yields (at_value v) (arithmetic v step k)
    (FiniteGeneratorIter.mk
       (FiniteRangeGenerator.mk Inclusive (v + Z.of_nat k * step) max step) true).
Proof.
  induction k as [|k IH]; intros v Hs Hup Hlow.
  - simpl arithmetic. apply yields_nil.
    replace (v + Z.of_nat 0 * step) with v by lia.
    apply finite_range_next_end. lia.
  - simpl arithmetic. apply yields_cons. exists (at_value (v + step)). split.
    + apply finite_range_next_item. destruct Hlow as [Hk | Hlow]; [discriminate|]. nia.
    + replace (v + Z.of_nat (S k) * step) with (v + step + Z.of_nat k * step) by lia.
      apply IH; [exact Hs | lia |].
      destruct k as [|k]; [now left | right].
      destruct Hlow as [Hk | Hlow]; [discriminate|]. lia.
Qed.

(** With a step of zero or less a range that has a first value never ends. *)
Lemma finite_range_unbounded (k : nat) :
  forall v : Z,
  step <= 0 -> v < bound ->
  pulls (at_value v) (List.map Some (arithmetic v step k))
        (at_value (v + Z.of_nat k * step)).
Proof.
  induction k as [|k IH]; intros v Hs Hv.
  - simpl. rewrite Z.add_0_r. constructor.
  - simpl arithmetic. simpl List.map.
    eapply pulls_cons; [now apply finite_range_next_item|].
    replace (v + Z.of_nat (S k) * step) with (v + step + Z.of_nat k * step) by lia.
    apply IH; [exact Hs | lia].
Qed.

End Range.

Lemma range_count (lo hi step : Z) :
  0 < step ->
  let k := Z.to_nat ((hi - lo + step - 1) / step) in
  hi <= lo + Z.of_nat k * step /\ (k = O \/ lo + (Z.of_nat k - 1) * step < hi).
Proof.
  intros Hs k.
  pose proof (Z.div_mod (hi - lo + step - 1) step ltac:(lia)) as Hd.
  pose proof (Z.mod_pos_bound (hi - lo + step - 1) step Hs) as Hm.
  set (q := (hi - lo + step - 1) / step) in *.
  destruct (Z.leb_spec q 0) as [Hq | Hq].
  - assert (Hk : k = O) by (unfold k; lia).
    rewrite Hk. split; [nia | now left].
  - assert (Hk : Z.of_nat k = q) by (unfold k; lia).
    rewrite Hk. split; [nia | right; nia].
Qed.



(** *** [infinite_range] and [repeat] *)


(** *** [successors], [once], [empty] *)

Lemma successors_yields {T : Type} (f : T -> option T) (k : nat) :
  forall x : option T,
  orbit f x (S k) = orbit f x k ->
  exists t,
    yields (rusty.successors x f) (orbit f x k) t.
Proof.
  unfold rusty.successors, rusty.finite_generator, FiniteGeneratorIter.new.
  induction k as [|k IH]; intros x Hx.
  - destruct x as [v|]; [discriminate|].
    eexists. apply yields_nil. exists O. reflexivity.
  - destruct x as [v|].
    + assert (Hx' : orbit f (f v) (S k) = orbit f (f v) k).
      { change (v :: orbit f (f v) (S k) = v :: orbit f (f v) k) in Hx.
        now inversion Hx. }
      destruct (IH (f v) Hx') as (t & Ht). exists t.
      change (orbit f (Some v) (S k)) with (v :: orbit f (f v) k).
      apply yields_cons. eexists. split; [exists O; reflexivity | exact Ht].
    + eexists. apply yields_nil. exists O. reflexivity.
Qed.

(** X17 ([successors], [once], [empty]).  [successors] yields the initial
    value, then the successor of each yielded value, and ends at the first
    value that has none; without an initial value it yields nothing.
    [once] yields its value and nothing else, [empty] nothing at all. *)
Theorem successors_yields_orbit
  {T : Type} (f : T -> option T) (x : option T) (k : nat) :
  orbit f x (S k) = orbit f x k ->
  (exists t, yields (rusty.successors x f) (orbit f x k) t) /\
  (exists t, yields (rusty.successors None f) [] t) /\
  (forall v : T, exists t, yields (rusty.once v) [v] t) /\
  yields (rusty.empty T) [] (rusty.empty T).
Proof.
  intros Hx. split; [now apply successors_yields|]. split; [|split].
  - eexists. apply yields_nil. exists O. reflexivity.
  - intros v. eexists. apply (pull_n_pulls 2 O). reflexivity.
  - apply yields_nil. exists O. reflexivity.
Qed.

(** ** Consumers of a finite sequence *)

Section Folds.
Context {IterType A : Type} `{IteratorLaws IterType A}.

Lemma fold_yields {T : Type} (f : T -> A -> T) (l : list A) :
  forall (s s' : IterType) (init : T),
  yields s l s' -> IterBase.fold s init f ~~> (fold_left f l init, s').
Proof.
  unfold IterBase.fold.
  induction l as [|a l IH]; intros s s' init Hy.
  - apply yields_nil in Hy. apply loop_returns_exit. run_bind Hy. run_ret.
  - apply yields_cons in Hy. destruct Hy as (s1 & Hn & Hy).
    eapply loop_returns_continue.
    + intros [acc st]. solve_mono.
    + run_bind Hn. run_ret.
    + now apply IH.
Qed.

Lemma for_each_yields {C : Type} `{Callback C A} (l : list A) :
  forall (s s' : IterType) (callback : C),
  yields s l s' -> IterBase.for_each s callback ~~> (fold_left observe l callback, s').
Proof. intros s s' callback Hy. exact (fold_yields observe l s s' callback Hy). Qed.

Lemma fold_mono {T : Type} (f : T -> A -> T) (s : IterType) (init : T) :
  Mono (IterBase.fold s init f).
Proof. unfold IterBase.fold. apply Mono_loop. intros [acc st]. solve_mono. Qed.

(** A consumer that takes the first item and then folds the rest. *)
Lemma first_then_fold {T : Type} (f : A -> A -> A) (l : list A) (s s' : IterType)
  (k : option A -> T) :
  yields s l s' ->
  ('(first, st) <- next s ;;
   match first with
   | None => ret (k None, st)
   | Some a => '(r, st') <- IterBase.fold st a f ;; ret (k (Some r), st')
   end)
  ~~> (k match l with [] => None | a :: rest => Some (fold_left f rest a) end, s').
Proof.
  intros Hy. destruct l as [|a l].
  - apply yields_nil in Hy. run_bind Hy. run_ret.
  - apply yields_cons in Hy. destruct Hy as (s1 & Hn & Hy).
    eapply bind_returns_intro; [solve_mono | | exact Hn | cbn beta iota].
    + apply Mono_bind; [apply fold_mono | intros [? ?]; solve_mono].
    + eapply bind_returns_intro;
        [apply fold_mono | solve_mono | exact (fold_yields f l s1 s' a Hy) | run_ret].
Qed.

End Folds.

(** X18 ([fold], [reduce]).  [fold] applies the function to the
    accumulator and each item from first to last, starting from the initial
    value, which it returns unchanged for a sequence without items.
    [reduce] does the same starting from the first item and returns an
    empty value exactly when there is no item. *)
Theorem fold_and_reduce_accumulate_in_order
  {I A T : Type} `{IteratorLaws I A} (foldFunction : T -> A -> T)
  (reduceFunction : A -> A -> A) (initialValue : T) (l : list A) (s s' : I) :
  yields s l s' ->
  IterBase.fold s initialValue foldFunction ~~> (fold_left foldFunction l initialValue, s') /\
  IterBase.reduce s reduceFunction
    ~~> (match l with
         | [] => None
         | a :: rest => Some (fold_left reduceFunction rest a)
         end, s').
Proof.
  intros Hy. split; [now apply fold_yields|].
  exact (first_then_fold reduceFunction l s s' (fun r => r) Hy).
Qed.

Lemma fold_left_count {A : Type} (l : list A) :
  forall n : Z, fold_left (fun (n : Z) (_ : A) => n + 1) l n = n + Z.of_nat (length l).
Proof.
  induction l as [|a l IH]; intros n; simpl fold_left.
  - simpl. lia.
  - rewrite IH. simpl length. lia.
Qed.

Lemma fold_left_keep_last {A : Type} (l : list A) :
  forall a : A, nth_error (a :: l) (length l) = Some (fold_left (fun _ v => v) l a).
Proof.
  induction l as [|b l IH]; intros a; [reflexivity|].
  simpl length. simpl fold_left. exact (IH b).
Qed.

(** X19 ([count], [last]).  [count] returns the number of items of a finite
    sequence, [last] its final item, and an empty value when there is no
    item; both consume the whole sequence. *)
Theorem count_and_last_of_finite_sequence
  {I A : Type} `{IteratorLaws I A} (l : list A) (s s' : I) :
  yields s l s' ->
  IterBase.count s ~~> (Z.of_nat (length l), s') /\
  IterBase.last s ~~> (nth_error l (Nat.pred (length l)), s').
Proof.
  intros Hy. split.
  - pose proof (fold_yields (fun (n : Z) (_ : A) => n + 1) l s s' 0 Hy) as Hc.
    rewrite fold_left_count in Hc. exact Hc.
  - pose proof (first_then_fold (fun _ v : A => v) l s s' (fun r => r) Hy) as Hl.
    destruct l as [|a l]; [exact Hl|].
    simpl length. simpl Nat.pred. rewrite fold_left_keep_last. exact Hl.
Qed.


(** *** [nth] *)

Lemma nth_from {I A : Type} `{IteratorLaws I A} (idx : Z) (l : list A) :
  forall (s s' : I) (c : Z),
  yields s l s' ->
  exists t,
    loop (fun '(currentIdx, st) =>
            '(value, st') <- next st ;;
            match value with
            | Some v =>
                if currentIdx =? idx then ret (inr (Some v, st'))
                else ret (inl (currentIdx + 1, st'))
            | None => ret (inr (None, st'))
            end) (c, s)
    ~~> (if c <=? idx then nth_error l (Z.to_nat (idx - c)) else None, t) /\
    (c <= idx < c + Z.of_nat (length l) ->
       yields t (skipn (S (Z.to_nat (idx - c))) l) s') /\
    (idx < c \/ c + Z.of_nat (length l) <= idx -> t = s').
Proof.
  induction l as [|a l IH]; intros s s' c Hy.
  - apply yields_nil in Hy. exists s'. split; [|split].
    + replace (if c <=? idx then nth_error [] (Z.to_nat (idx - c)) else None)
        with (@None A) by (destruct (c <=? idx); [now rewrite nth_error_empty | reflexivity]).
      apply loop_returns_exit. run_bind Hy. run_ret.
    + simpl length. lia.
    + reflexivity.
  - apply yields_cons in Hy. destruct Hy as (s1 & Hn & Hy).
    destruct (Z.eqb_spec c idx) as [-> | Hne].
    + exists s1. rewrite Z.leb_refl, Z.sub_diag. split; [|split].
      * apply loop_returns_exit. run_bind Hn. rewrite Z.eqb_refl. run_ret.
      * intros _. exact Hy.
      * simpl length. lia.
    + destruct (IH s1 s' (c + 1) Hy) as (t & Hr & Hin & Hout).
      exists t. split; [|split].
      * replace (if c <=? idx then nth_error (a :: l) (Z.to_nat (idx - c)) else None)
          with (if c + 1 <=? idx then nth_error l (Z.to_nat (idx - (c + 1))) else None).
        -- eapply loop_returns_continue; [intros [? ?]; solve_mono | | exact Hr].
           run_bind Hn. destruct (Z.eqb_spec c idx); [contradiction | run_ret].
        -- destruct (Z.leb_spec (c + 1) idx), (Z.leb_spec c idx); try lia; try reflexivity.
           replace (Z.to_nat (idx - c)) with (S (Z.to_nat (idx - (c + 1)))) by lia.
           reflexivity.
      * intros Hr'. simpl length in Hr'.
        replace (Z.to_nat (idx - c)) with (S (Z.to_nat (idx - (c + 1)))) by lia.
        apply Hin. lia.
      * intros Hr'. simpl length in Hr'. apply Hout. lia.
Qed.

(** X21 ([nth]).  [nth(idx)] returns the item at position [idx], counted
    from 0, and stops there: the items behind it are still to come.  For a
    position past the end, or a negative one, it returns an empty value and
    has consumed the whole sequence. *)
Theorem nth_returns_item_and_keeps_rest
  {I A : Type} `{IteratorLaws I A} (idx : Z) (l : list A) (s s' : I) :
  yields s l s' ->
  exists t,
    IterBase.nth s idx ~~> (if 0 <=? idx then nth_error l (Z.to_nat idx) else None, t) /\
    (0 <= idx < Z.of_nat (length l) -> yields t (skipn (S (Z.to_nat idx)) l) s') /\
    (idx < 0 \/ Z.of_nat (length l) <= idx -> t = s').
Proof.
  intros Hy. destruct (nth_from idx l s s' 0 Hy) as (t & Hr & Hin & Hout).
  rewrite Z.sub_0_r in Hr, Hin. exists t. split; [exact Hr|]. split.
  - intros Hi. apply Hin. lia.
  - intros Hi. apply Hout. lia.
Qed.

(** *** [all], [any], [find], [position] *)

Section Search.
Context {IterType A : Type} `{IteratorLaws IterType A}.
Variable q : A -> bool.

(** What is left of a sequence when a search stopped at the first item
    [q] holds for. *)
Local Abbreviation rest_after_hit l := (tl (drop_while (fun x => negb (q x)) l)).

Lemma search_stops_at_first_hit (l : list A) :
  forall (s s' : IterType) (pos : Z),
  yields s l s' ->
  exists t,
    IterBase.find s q ~~> (List.find q l, t) /\
    IterBase.any s q ~~> (existsb q l, t) /\
    loop (fun '(pos, st) =>
            '(value, st') <- next st ;;
            match value with
            | Some v =>
                if q v then ret (inr (Some pos, st'))
                else ret (inl (pos + 1, st'))
            | None => ret (inr (None, st'))
            end) (pos, s)
    ~~> (option_map (fun i => pos + Z.of_nat i) (first_index q l), t) /\
    (if existsb q l then yields t (rest_after_hit l) s' else t = s').
Proof.
  unfold IterBase.find, IterBase.any.
  induction l as [|a l IH]; intros s s' pos Hy.
  - apply yields_nil in Hy. exists s'.
    repeat match goal with |- _ /\ _ => split end; try reflexivity;
      apply loop_returns_exit; run_bind Hy; run_ret.
  - apply yields_cons in Hy. destruct Hy as (s1 & Hn & Hy).
    simpl List.find. simpl first_index. simpl existsb. simpl drop_while.
    destruct (q a) eqn:Hq.
    + exists s1. repeat match goal with |- _ /\ _ => split end; try exact Hy;
        apply loop_returns_exit; run_bind Hn; rewrite Hq;
        apply ret_returns; cbn; repeat f_equal; lia.
    + destruct (IH s1 s' (pos + 1) Hy) as (t & Hf & Ha & Hp & Hrest). exists t.
      repeat match goal with |- _ /\ _ => split end; try exact Hrest.
      * eapply loop_returns_continue; [intros ?; solve_mono | | exact Hf].
        run_bind Hn. rewrite Hq. run_ret.
      * eapply loop_returns_continue; [intros ?; solve_mono | | exact Ha].
        run_bind Hn. rewrite Hq. run_ret.
      * eapply loop_returns_continue; [intros [? ?]; solve_mono | | ].
        -- run_bind Hn. rewrite Hq. run_ret.
        -- replace (option_map (fun i => pos + Z.of_nat i)
                      (option_map S (first_index q l)))
             with (option_map (fun i => pos + 1 + Z.of_nat i) (first_index q l));
             [exact Hp|].
           destruct (first_index q l); cbn [option_map]; [f_equal; lia | reflexivity].
Qed.

End Search.

Lemma all_stops_at_first_miss {I A : Type} `{IteratorLaws I A} (p : A -> bool)
  (l : list A) :
  forall s s' : I,
  yields s l s' ->
  exists t,
    IterBase.all s p ~~> (forallb p l, t) /\
    (if forallb p l then t = s' else yields t (tl (drop_while p l)) s').
Proof.
  unfold IterBase.all.
  induction l as [|a l IH]; intros s s' Hy.
  - apply yields_nil in Hy. exists s'. split; [|reflexivity].
    apply loop_returns_exit. run_bind Hy. run_ret.
  - apply yields_cons in Hy. destruct Hy as (s1 & Hn & Hy).
    simpl forallb. simpl drop_while. destruct (p a) eqn:Hp.
    + destruct (IH s1 s' Hy) as (t & Hr & Hrest). exists t. split; [|exact Hrest].
      eapply loop_returns_continue; [intros ?; solve_mono | | exact Hr].
      run_bind Hn. rewrite Hp. run_ret.
    + exists s1. split; [|exact Hy].
      apply loop_returns_exit. run_bind Hn. rewrite Hp. run_ret.
Qed.

(** X22 ([all], [any]).  [all] returns whether the predicate holds for
    every item and [any] whether it holds for some item: [true] and [false]
    for a sequence without items.  Both stop at the item that decides the
    answer and leave the items behind it unconsumed; otherwise they consume
    the whole sequence. *)
Theorem all_and_any_stop_at_deciding_item
  {I A : Type} `{IteratorLaws I A} (predicate : A -> bool) (l : list A) (s s' : I) :
  yields s l s' ->
  (exists t,
     IterBase.all s predicate ~~> (forallb predicate l, t) /\
     (if forallb predicate l then t = s'
      else yields t (tl (drop_while predicate l)) s')) /\
  (exists t,
     IterBase.any s predicate ~~> (existsb predicate l, t) /\
     (if existsb predicate l
      then yields t (tl (drop_while (fun x => negb (predicate x)) l)) s'
      else t = s')).
Proof.
  intros Hy. split.
  - now apply all_stops_at_first_miss.
  - destruct (search_stops_at_first_hit predicate l s s' 0 Hy) as (t & _ & Ha & _ & Hr).
    now exists t.
Qed.

(** X23 ([find], [position]).  [find] returns the first item the predicate
    holds for and [position] its index, counted from 0; both return an
    empty value when there is none.  They stop at that item, so that the
    items behind it are still to come. *)
Theorem find_and_position_of_first_hit
  {I A : Type} `{IteratorLaws I A} (predicate : A -> bool) (l : list A) (s s' : I) :
  yields s l s' ->
  exists t,
    IterBase.find s predicate ~~> (List.find predicate l, t) /\
    IterBase.position s predicate
      ~~> (option_map Z.of_nat (first_index predicate l), t) /\
    (if existsb predicate l
     then yields t (tl (drop_while (fun x => negb (predicate x)) l)) s'
     else t = s').
Proof.
  intros Hy.
  destruct (search_stops_at_first_hit predicate l s s' 0 Hy) as (t & Hf & _ & Hp & Hr).
  exists t. split; [exact Hf|]. split; [|exact Hr].
  unfold IterBase.position.
  replace (option_map Z.of_nat (first_index predicate l))
    with (option_map (fun i => 0 + Z.of_nat i) (first_index predicate l)); [exact Hp|].
  destruct (first_index predicate l); reflexivity.
Qed.

(** *** [min_by], [min], [max_by], [max] *)

(** Keeping the better of the running choice and each later item, where a
    later item wins only if it is strictly better: the result is the first
    of the best items. *)
Lemma first_best {A : Type} (key : A -> Z) (better : A -> A -> bool) :
  (forall a b, better a b = true <-> key a < key b) ->
  forall (l : list A) (m : A),
  exists l1 l2,
    m :: l = l1 ++ fold_left (fun m v => if better v m then v else m) l m :: l2 /\
    (forall x, In x l1 ->
       key (fold_left (fun m v => if better v m then v else m) l m) < key x) /\
    (forall x, In x l2 ->
       key (fold_left (fun m v => if better v m then v else m) l m) <= key x).
Proof.
  intros Hb l. induction l as [|v l IH] using rev_ind; intros m.
  - exists [], []. simpl. split; [reflexivity|]. split; intros x [].
  - destruct (IH m) as (l1 & l2 & E & H1 & H2).
    rewrite fold_left_app. simpl fold_left.
    set (r := fold_left (fun m v => if better v m then v else m) l m) in *.
    destruct (better v r) eqn:Hv.
    + apply Hb in Hv. exists (m :: l), []. split; [now rewrite app_comm_cons|].
      split; [|intros x []].
      intros x Hx. rewrite E in Hx. apply in_app_or in Hx.
      destruct Hx as [Hx | [<- | Hx]].
      * specialize (H1 x Hx). lia.
      * exact Hv.
      * specialize (H2 x Hx). lia.
    + assert (Hge : key r <= key v).
      { destruct (Z.lt_ge_cases (key v) (key r)) as [Hlt | Hge]; [|exact Hge].
        apply Hb in Hlt. congruence. }
      exists l1, (l2 ++ [v]). split; [|split].
      * rewrite app_comm_cons, E, <- app_assoc. reflexivity.
      * exact H1.
      * intros x Hx. apply in_app_or in Hx. destruct Hx as [Hx | [<- | []]].
        -- now apply H2.
        -- exact Hge.
Qed.

Section Select.
Context {IterType A : Type} `{IteratorLaws IterType A}.
Variable better : A -> A -> bool.

Lemma select_loop (l : list A) :
  forall (s s' : IterType) (m : A),
  yields s l s' ->
  loop (fun '(m, st) =>
          '(value, st') <- next st ;;
          match value with
          | Some v => if better v m then ret (inl (v, st')) else ret (inl (m, st'))
          | None => ret (inr (m, st'))
          end) (m, s)
  ~~> (fold_left (fun m v => if better v m then v else m) l m, s').
Proof.
  induction l as [|a l IH]; intros s s' m Hy.
  - apply yields_nil in Hy. apply loop_returns_exit. run_bind Hy. run_ret.
  - apply yields_cons in Hy. destruct Hy as (s1 & Hn & Hy).
    eapply loop_returns_continue with (s' := (if better a m then a else m, s1)).
    + intros [? ?]. solve_mono.
    + run_bind Hn. destruct (better a m); run_ret.
    + simpl fold_left. now apply IH.
Qed.

Lemma select_first (l : list A) (s s' : IterType) :
  yields s l s' ->
  ('(first, st) <- next s ;;
   match first with
   | None => ret (None, st)
   | Some f =>
       '(m, st') <-
         loop (fun '(m, st) =>
                 '(value, st') <- next st ;;
                 match value with
                 | Some v =>
                     if better v m then ret (inl (v, st')) else ret (inl (m, st'))
                 | None => ret (inr (m, st'))
                 end) (f, st) ;;
       ret (Some m, st')
   end)
  ~~> (match l with
       | [] => None
       | a :: rest => Some (fold_left (fun m v => if better v m then v else m) rest a)
       end, s').
Proof.
  intros Hy. destruct l as [|a l].
  - apply yields_nil in Hy. run_bind Hy. run_ret.
  - apply yields_cons in Hy. destruct Hy as (s1 & Hn & Hy).
    eapply bind_returns_intro; [solve_mono | | exact Hn | cbn beta iota].
    + apply Mono_bind; [apply Mono_loop; intros [? ?]; solve_mono
                       | intros [? ?]; solve_mono].
    + eapply bind_returns_intro;
        [apply Mono_loop; intros [? ?]; solve_mono | solve_mono
        | exact (select_loop l s1 s' a Hy) | run_ret].
Qed.

End Select.

Lemma select_ext {A : Type} (f g : A -> A -> bool) :
  (forall a b, f a b = g a b) ->
  forall (l : list A) (m : A),
  fold_left (fun m v => if f v m then v else m) l m
  = fold_left (fun m v => if g v m then v else m) l m.
Proof.
  intros Hfg. induction l as [|a l IH]; intros m; simpl; [reflexivity|].
  now rewrite Hfg, IH.
Qed.

Lemma bool_of_iff (b c : bool) (P : Prop) :
  (b = true <-> P) -> (c = true <-> P) -> b = c.
Proof. destruct b, c; intuition congruence. Qed.

(** The first of the items with the least key. *)
Lemma first_best_of {A : Type} (key : A -> Z) (better : A -> A -> bool) (l : list A) :
  (forall a b, better a b = true <-> key a < key b) ->
  match match l with
        | [] => None
        | a :: rest => Some (fold_left (fun m v => if better v m then v else m) rest a)
        end with
  | None => l = []
  | Some m =>
      exists l1 l2, l = l1 ++ m :: l2 /\
        (forall x, In x l1 -> key m < key x) /\
        (forall x, In x l2 -> key m <= key x)
  end.
Proof.
  intros Hb. destruct l as [|a l]; [reflexivity|].
  exact (first_best key better Hb l a).
Qed.

(** X24 ([min_by], [min]).  For a comparer that orders the items by a key,
    [min_by] returns an item with the least key, and of several such items
    the first; it returns an empty value exactly when the sequence has no
    item.  [min] is [min_by] with the order of the item type. *)
Theorem min_by_returns_first_minimum
  {I A : Type} `{IteratorLaws I A} `{ItemType A}
  (key : A -> Z) (comparer : A -> A -> Z) (l : list A) (s s' : I) :
  (forall a b, comparer a b < 0 <-> key a < key b) ->
  (forall a b, less a b = true <-> key a < key b) ->
  yields s l s' ->
  exists r,
    IterBase.min_by s comparer ~~> (r, s') /\
    IterBase.min s ~~> (r, s') /\
    match r with
    | None => l = []
    | Some m =>
        exists l1 l2, l = l1 ++ m :: l2 /\
          (forall x, In x l1 -> key m < key x) /\
          (forall x, In x l2 -> key m <= key x)
    end.
Proof.
  intros Hc Hl Hy.
  assert (Hb : forall a b, (comparer a b <? 0) = true <-> key a < key b).
  { intros a b. rewrite Z.ltb_lt. apply Hc. }
  assert (Hb' : forall a b, (compare a b <? 0) = true <-> key a < key b).
  { intros a b. rewrite Z.ltb_lt, <- Hl. unfold compare.
    destruct (less a b); [split; [reflexivity | lia]|].
    destruct (greater a b); split; (lia || discriminate). }
  pose proof (select_first (fun v m => comparer v m <? 0) l s s' Hy) as Hr.
  pose proof (select_first (fun v m => compare v m <? 0) l s s' Hy) as Hr'.
  eexists. split; [exact Hr|]. split.
  - destruct l as [|a l]; [exact Hr'|].
    rewrite (select_ext (fun v m => comparer v m <? 0) (fun v m => compare v m <? 0));
      [exact Hr'|].
    intros v m. exact (bool_of_iff _ _ _ (Hb v m) (Hb' v m)).
  - exact (first_best_of key (fun v m => comparer v m <? 0) l Hb).
Qed.

(** X25 ([max_by], [max]).  For a comparer that orders the items by a key,
    [max_by] returns an item with the greatest key, and of several such
    items the first, since a later item replaces the running maximum only
    when it compares strictly above it; it returns an empty value exactly
    when the sequence has no item.  [max] is [max_by] with the order of the
    item type. *)
Theorem max_by_returns_first_maximum
  {I A : Type} `{IteratorLaws I A} `{ItemType A}
  (key : A -> Z) (comparer : A -> A -> Z) (l : list A) (s s' : I) :
  (forall a b, comparer a b > 0 <-> key a > key b) ->
  (forall a b, less a b = true <-> key a < key b) ->
  (forall a b, greater a b = true <-> key a > key b) ->
  yields s l s' ->
  exists r,
    IterBase.max_by s comparer ~~> (r, s') /\
    IterBase.max s ~~> (r, s') /\
    match r with
    | None => l = []
    | Some m =>
        exists l1 l2, l = l1 ++ m :: l2 /\
          (forall x, In x l1 -> key x < key m) /\
          (forall x, In x l2 -> key x <= key m)
    end.
Proof.
  intros Hc Hl Hg Hy.
  assert (Hb : forall a b, (comparer a b >? 0) = true <-> - key a < - key b).
  { intros a b. rewrite Z.gtb_ltb, Z.ltb_lt. specialize (Hc a b). lia. }
  assert (Hb' : forall a b, (compare a b >? 0) = true <-> - key a < - key b).
  { intros a b. rewrite Z.gtb_ltb, Z.ltb_lt. unfold compare.
    specialize (Hl a b). specialize (Hg a b).
    destruct (less a b).
    - split; [lia|]. intros Hk. assert (key a < key b) by now apply Hl. lia.
    - destruct (greater a b).
      + split; [intros _ | lia]. assert (key a > key b) by now apply Hg. lia.
      + split; [lia|]. intros Hk. assert (true = true -> False); [|tauto].
        intros _. assert (false = true) by (apply Hg; lia). discriminate. }
  pose proof (select_first (fun v m => comparer v m >? 0) l s s' Hy) as Hr.
  pose proof (select_first (fun v m => compare v m >? 0) l s s' Hy) as Hr'.
  eexists. split; [exact Hr|]. split.
  - destruct l as [|a l]; [exact Hr'|].
    rewrite (select_ext (fun v m => comparer v m >? 0) (fun v m => compare v m >? 0));
      [exact Hr'|].
    intros v m. exact (bool_of_iff _ _ _ (Hb v m) (Hb' v m)).
  - pose proof (first_best_of (fun a => - key a) (fun v m => comparer v m >? 0) l Hb)
      as Hs.
    destruct l as [|a l]; [exact Hs|].
    destruct Hs as (l1 & l2 & E & Hbefore & Hafter). exists l1, l2. split; [exact E|].
    split; intros x Hx; [specialize (Hbefore x Hx) | specialize (Hafter x Hx)]; lia.
Qed.

(** *** [is_sorted_by], [is_sorted_ascending], [is_sorted_descending] *)

Lemma is_sorted_from {I A : Type} `{IteratorLaws I A} (comparer : A -> A -> Z)
  (l : list A) :
  forall (s s' : I) (prev : A),
  yields s l s' ->
  exists t,
    loop (fun '(prev, st) =>
            '(value, st') <- next st ;;
            match value with
            | Some v =>
                if comparer prev v >? 0 then ret (inr (false, st'))
                else ret (inl (v, st'))
            | None => ret (inr (true, st'))
            end) (prev, s)
    ~~> (sorted_by comparer (prev :: l), t) /\
    (sorted_by comparer (prev :: l) = true -> t = s').
Proof.
  induction l as [|a l IH]; intros s s' prev Hy.
  - apply yields_nil in Hy. exists s'. split; [|reflexivity].
    apply loop_returns_exit. run_bind Hy. run_ret.
  - apply yields_cons in Hy. destruct Hy as (s1 & Hn & Hy).
    change (sorted_by comparer (prev :: a :: l))
      with (negb (comparer prev a >? 0) && sorted_by comparer (a :: l)).
    destruct (comparer prev a >? 0) eqn:Hc.
    + exists s1. split; [|discriminate].
      apply loop_returns_exit. run_bind Hn. rewrite Hc. run_ret.
    + destruct (IH s1 s' a Hy) as (t & Hr & Ht). exists t. split; [|exact Ht].
      eapply loop_returns_continue; [intros [? ?]; solve_mono | | exact Hr].
      run_bind Hn. rewrite Hc. run_ret.
Qed.

Lemma sorted_by_neighbours {A : Type} (comparer : A -> A -> Z) (R : A -> A -> Prop) :
  (forall x y, (comparer x y >? 0) = false <-> R x y) ->
  forall l,
  sorted_by comparer l = true <->
  (forall i x y, nth_error l i = Some x -> nth_error l (S i) = Some y -> R x y).
Proof.
  intros HR. induction l as [|a l IH].
  - split; [intros _ i x y Hx; now destruct i | reflexivity].
  - destruct l as [|b l].
    + split; [|reflexivity]. intros _ i x y Hx Hy.
      destruct i as [|i]; [discriminate | now destruct i].
    + change (sorted_by comparer (a :: b :: l))
        with (negb (comparer a b >? 0) && sorted_by comparer (b :: l)).
      rewrite andb_true_iff, negb_true_iff, HR, IH. split.
      * intros [Hab Hrest] i x y Hx Hy. destruct i as [|i].
        -- cbn in Hx, Hy. congruence.
        -- exact (Hrest i x y Hx Hy).
      * intros Hall. split.
        -- now apply (Hall O).
        -- intros i x y Hx Hy. exact (Hall (S i) x y Hx Hy).
Qed.

(** X26 ([is_sorted_by], [is_sorted_ascending], [is_sorted_descending]).
    [is_sorted_by] returns whether no item compares above its successor,
    hence [true] for fewer than two items, and consumes the whole sequence
    when it returns [true].  On integers [is_sorted_ascending] holds exactly
    when no item is less than the one before, [is_sorted_descending] when
    none is greater. *)
Theorem is_sorted_checks_neighbours
  {I : Type} `{IteratorLaws I Z} (comparer : Z -> Z -> Z) (l : list Z) (s s' : I) :
  yields s l s' ->
  (exists t, IterBase.is_sorted_by s comparer ~~> (sorted_by comparer l, t) /\
             (sorted_by comparer l = true -> t = s')) /\
  (exists b t, IterBase.is_sorted_ascending s ~~> (b, t) /\
     (b = true <->
      forall i x y, nth_error l i = Some x -> nth_error l (S i) = Some y -> x <= y)) /\
  (exists b t, IterBase.is_sorted_descending s ~~> (b, t) /\
     (b = true <->
      forall i x y, nth_error l i = Some x -> nth_error l (S i) = Some y -> y <= x)).
Proof.
  intros Hy.
  assert (Hgen : forall cmp : Z -> Z -> Z,
             exists t, IterBase.is_sorted_by s cmp ~~> (sorted_by cmp l, t) /\
                       (sorted_by cmp l = true -> t = s')).
  { intros cmp. unfold IterBase.is_sorted_by. destruct l as [|a l].
    - apply yields_nil in Hy. exists s'. split; [|reflexivity]. run_bind Hy. run_ret.
    - apply yields_cons in Hy. destruct Hy as (s1 & Hn & Hy).
      destruct (is_sorted_from cmp l s1 s' a Hy) as (t & Hr & Ht).
      exists t. split; [|exact Ht].
      eapply bind_returns_intro; [solve_mono | | exact Hn | exact Hr].
      apply Mono_loop. intros [? ?]. solve_mono. }
  split; [apply Hgen | split].
  - destruct (Hgen compare) as (t & Hr & _).
    exists (sorted_by compare l), t. split; [exact Hr|].
    apply sorted_by_neighbours. intros x y. unfold compare. cbn.
    destruct (Z.ltb_spec x y); [split; [lia | reflexivity]|].
    destruct (Z.gtb_spec x y); split; (lia || discriminate || reflexivity).
  - destruct (Hgen compare_reverse) as (t & Hr & _).
    exists (sorted_by compare_reverse l), t. split; [exact Hr|].
    apply sorted_by_neighbours. intros x y. unfold compare_reverse, compare. cbn.
    destruct (Z.ltb_spec y x); [split; [lia | reflexivity]|].
    destruct (Z.gtb_spec y x); split; (lia || discriminate || reflexivity).
Qed.

(** *** [eq_by], [eq], [ne] *)

Lemma eq_by_pairwise {I J A : Type} `{IteratorLaws I A} `{IteratorLaws J A}
  (f : A -> A -> bool) (la : list A) :
  forall (lb : list A) (s s' : I) (o o' : J),
  yields s la s' -> yields o lb o' ->
  exists t, IterBase.eq_by s o f ~~> (pairwise f la lb, t).
Proof.
  unfold IterBase.eq_by.
  induction la as [|a la IH]; intros lb s s' o o' Ha Hb.
  - apply yields_nil in Ha. destruct lb as [|b lb].
    + apply yields_nil in Hb. eexists. apply loop_returns_exit.
      run_bind Ha. run_bind Hb. run_ret.
    + apply yields_cons in Hb. destruct Hb as (o1 & Hb & _).
      eexists. apply loop_returns_exit. run_bind Ha. run_bind Hb. run_ret.
  - apply yields_cons in Ha. destruct Ha as (s1 & Ha & Hya).
    destruct lb as [|b lb].
    + apply yields_nil in Hb. eexists. apply loop_returns_exit.
      run_bind Ha. run_bind Hb. run_ret.
    + apply yields_cons in Hb. destruct Hb as (o1 & Hb & Hyb).
      cbn [pairwise]. destruct (f a b) eqn:Hf.
      * destruct (IH lb s1 s' o1 o' Hya Hyb) as (t & Ht). exists t.
        eapply loop_returns_continue; [intros [? ?]; solve_mono | | exact Ht].
        run_bind Ha. run_bind Hb. rewrite Hf. run_ret.
      * eexists. apply loop_returns_exit.
        run_bind Ha. run_bind Hb. rewrite Hf. run_ret.
Qed.

Lemma pairwise_eq {A : Type} (f : A -> A -> bool) :
  (forall a b, f a b = true <-> a = b) ->
  forall la lb, pairwise f la lb = true <-> la = lb.
Proof.
  intros Hf. induction la as [|a la IH]; intros [|b lb]; simpl;
    try (split; [discriminate | discriminate]); try (split; reflexivity).
  rewrite andb_true_iff, Hf, IH. split.
  - intros [-> ->]. reflexivity.
  - intros E. inversion E. now split.
Qed.

(** X27 ([eq_by], [eq], [ne]).  [eq_by] returns [true] exactly when the two
    sequences have the same number of items and the comparer accepts every
    pair of items at the same position.  With an [==] that is equality,
    [eq] holds exactly for equal item lists and [ne] is its negation. *)
Theorem eq_holds_for_equal_item_lists
  {I J A : Type} `{IteratorLaws I A} `{IteratorLaws J A} `{ItemType A}
  (f : A -> A -> bool) (la lb : list A) (s s' : I) (o o' : J) :
  (forall a b, equal a b = true <-> a = b) ->
  yields s la s' -> yields o lb o' ->
  (exists t, IterBase.eq_by s o f ~~> (pairwise f la lb, t)) /\
  (exists b t,
     IterBase.eq s o ~~> (b, t) /\
     IterBase.ne s o ~~> (negb b, t) /\
     (b = true <-> la = lb)).
Proof.
  intros He Ha Hb. split; [now apply (eq_by_pairwise f la lb s s' o o')|].
  destruct (eq_by_pairwise (fun a b => equal a b) la lb s s' o o' Ha Hb) as (t & Ht).
  exists (pairwise (fun a b => equal a b) la lb), t.
  split; [exact Ht|]. split; [|now apply pairwise_eq].
  unfold IterBase.ne.
  eapply bind_returns_intro; [ | solve_mono | exact Ht | run_ret].
  unfold IterBase.eq, IterBase.eq_by. apply Mono_loop. intros [? ?]. solve_mono.
Qed.

(** *** [lt], [le], [gt], [ge] *)

(** X28 ([lt], [le], [gt], [ge]).  The four tests return what the
    lexicographic order of the two item lists under [compare_partial] says;
    when this order is undefined, because a deciding pair of items cannot
    be compared, all four return [false]. *)
Theorem order_tests_follow_partial_cmp
  {I J A : Type} `{IteratorLaws I A} `{IteratorLaws J A} `{ItemType A}
  (la lb : list A) (s s' : I) (o o' : J) :
  yields s la s' -> yields o lb o' ->
  exists t,
    IterBase.lt s o
      ~~> (match lexicographic compare_partial la lb with
           | Some c => c <? 0 | None => false end, t) /\
    IterBase.le s o
      ~~> (match lexicographic compare_partial la lb with
           | Some c => c <=? 0 | None => false end, t) /\
    IterBase.gt s o
      ~~> (match lexicographic compare_partial la lb with
           | Some c => c >? 0 | None => false end, t) /\
    IterBase.ge s o
      ~~> (match lexicographic compare_partial la lb with
           | Some c => c >=? 0 | None => false end, t).
Proof.
  intros Ha Hb.
  destruct (partial_cmp_lexicographic s s' o o' la lb Ha Hb) as (t & Ht).
  assert (Hm : Mono (IterBase.partial_cmp s o)).
  { unfold IterBase.partial_cmp, IterBase.partial_cmp_by.
    apply Mono_loop. intros [? ?]. solve_mono. }
  exists t.
  repeat match goal with |- _ /\ _ => split end;
    (eapply bind_returns_intro; [exact Hm | solve_mono | exact Ht | run_ret]).
Qed.

(** *** [for_each], [partition] and the range-based [for] *)

Lemma partition_result {A : Type} (p : A -> bool) (l : list A) :
  forall x y : list A,
  fold_left PartitionLambda.call l (PartitionLambda.mk p (x, y))
  = PartitionLambda.mk p
      (x ++ List.filter (fun v => negb (p v)) l, y ++ List.filter p l).
Proof.
  induction l as [|a l IH]; intros x y; simpl fold_left.
  - simpl. now rewrite !app_nil_r.
  - change (PartitionLambda.call (PartitionLambda.mk p (x, y)) a)
      with (if p a then PartitionLambda.mk p (x, y ++ [a])
            else PartitionLambda.mk p (x ++ [a], y)).
    simpl List.filter.
    destruct (p a); rewrite IH; cbn [negb]; now rewrite <- app_assoc.
Qed.

(** X29 ([partition]).  [partition] returns two collections: the first
    holds the items the predicate is [false] for, the second those it is
    [true] for, each in upstream order; together they hold every item. *)
Theorem partition_puts_rejected_items_first
  {I A : Type} `{IteratorLaws I A} (predicate : A -> bool) (l : list A) (s s' : I) :
  yields s l s' ->
  IterBase.partition s predicate
    ~~> ((List.filter (fun v => negb (predicate v)) l, List.filter predicate l), s').
Proof.
  intros Hy. unfold IterBase.partition.
  pose proof (for_each_yields l s s' (PartitionLambda.mk predicate ([], [])) Hy) as Hf.
  unfold observe, PartitionLambda_Callback in Hf. rewrite partition_result in Hf.
  eapply bind_returns_intro; [ | solve_mono | exact Hf | run_ret].
  unfold IterBase.for_each. apply Mono_loop. intros [? ?]. solve_mono.
Qed.

#[global] Instance Mono_step {I A : Type} `{IteratorLaws I A}
  (obj : I) (it : CppIterator.t A) : Mono (CppIterator.step obj it).
Proof. unfold CppIterator.step. destruct (negb (CppIterator._iter it)); solve_mono. Qed.

Lemma step_to_item {I A : Type} `{IteratorLaws I A} (s s1 : I) (v : A) x :
  next s ~~> (Some v, s1) ->
  CppIterator.step s (CppIterator.mk true x) ~~> (s1, CppIterator.mk true (Some v)).
Proof. intros Hn. unfold CppIterator.step. cbn. run_bind Hn. run_ret. Qed.

Lemma step_to_end {I A : Type} `{IteratorLaws I A} (s s1 : I) (x : option A) :
  next s ~~> (None, s1) ->
  CppIterator.step s (CppIterator.mk true x) ~~> (s1, CppIterator.mk false None).
Proof. intros Hn. unfold CppIterator.step. cbn. run_bind Hn. run_ret. Qed.

Lemma range_for_loop {I A C : Type} `{IteratorLaws I A} `{Callback C A} (l : list A) :
  forall (s s' : I) (a : A) (callback : C),
  yields s l s' ->
  loop (fun '(cb, obj, it) =>
          if CppIterator.not_equal it CppIterator.end_ then
            match CppIterator._value it with
            | Some item =>
                '(obj', it') <- CppIterator.step obj it ;;
                ret (inl (observe cb item, obj', it'))
            | None => ret (inr None)
            end
          else ret (inr (Some (cb, obj))))
       (callback, s, CppIterator.mk true (Some a))
  ~~> Some (fold_left observe (a :: l) callback, s').
Proof.
  induction l as [|b l IH]; intros s s' a callback Hy.
  - apply yields_nil in Hy.
    pose proof (step_to_end s s' (Some a) Hy) as Hs.
    eapply loop_returns_continue.
    + intros [[cb obj] it]. solve_mono.
    + cbn -[CppIterator.step]. run_bind Hs. run_ret.
    + apply loop_returns_exit. cbn. run_ret.
  - apply yields_cons in Hy. destruct Hy as (s1 & Hn & Hy).
    pose proof (step_to_item s s1 b (Some a) Hn) as Hs.
    eapply loop_returns_continue.
    + intros [[cb obj] it]. solve_mono.
    + cbn -[CppIterator.step]. run_bind Hs. run_ret.
    + exact (IH s1 s' b (observe callback a) Hy).
Qed.

(** X30 ([for_each], [CppIterator]).  [for_each] calls the callback on
    every item of a finite sequence, once and in order, and not on
    exhaustion.  A range-based [for] over the sequence does the same: it
    never dereferences an iterator without item, visits the same items and
    leaves the sequence in the same state. *)
Theorem range_for_visits_what_for_each_visits
  {I A C : Type} `{IteratorLaws I A} `{Callback C A}
  (l : list A) (s s' : I) (callback : C) :
  yields s l s' ->
  IterBase.for_each s callback ~~> (fold_left observe l callback, s') /\
  CppIterator.range_for s callback ~~> Some (fold_left observe l callback, s').
Proof.
  intros Hy. split; [now apply for_each_yields|].
  unfold CppIterator.range_for, CppIterator.begin.
  destruct l as [|a l].
  - apply yields_nil in Hy.
    pose proof (step_to_end s s' None Hy) as Hs.
    eapply bind_returns_intro; [typeclasses eauto | | exact Hs | ].
    + apply Mono_loop. intros [[cb obj] it]. solve_mono.
    + apply loop_returns_exit. cbn. run_ret.
  - apply yields_cons in Hy. destruct Hy as (s1 & Hn & Hy).
    pose proof (step_to_item s s1 a None Hn) as Hs.
    eapply bind_returns_intro; [typeclasses eauto | | exact Hs | ].
    + apply Mono_loop. intros [[cb obj] it]. solve_mono.
    + exact (range_for_loop l s1 s' a callback Hy).
Qed.

(** ** The properties of Part III on concrete sequences *)

(** A trace obtained by running the calls. *)
Ltac by_pulling k := apply (pull_n_pulls k O); vm_compute; reflexivity.

Lemma chain_yields_first_then_second_witness :
  yields (IterBase.chain (rusty.range 0 2) (rusty.iter [7; 8])) [0; 1; 7; 8]
         (ChainIter.mk
            (FiniteGeneratorIter.mk (FiniteRangeGenerator.mk false 2 2 1) true)
            (rusty.iter []) true).
Proof.
  assert (Ha : yields (rusty.range 0 2) [0; 1]
                 (FiniteGeneratorIter.mk (FiniteRangeGenerator.mk false 2 2 1) true)).
  { by_pulling 3%nat. }
  assert (Hb : yields (rusty.iter [7; 8]) [7; 8] (rusty.iter [])).
  { by_pulling 3%nat. }
  exact (chain_yields_first_then_second _ _ _ _ _ _ Ha Hb).
Defined.

Lemma map_yields_images_witness :
  yields (IterBase.map (rusty.iter [1; 2; 3]) (fun x => x * 2)) [2; 4; 6]
         (MapIter.mk (rusty.iter []) (fun x => x * 2)).
Proof.
  assert (Hy : yields (rusty.iter [1; 2; 3]) [1; 2; 3] (rusty.iter [])).
  { by_pulling 4%nat. }
  exact (map_yields_images (fun x => x * 2) [1; 2; 3] _ _ Hy).
Defined.

Lemma filter_yields_accepted_items_witness :
  yields (IterBase.filter (rusty.iter [1; 2; 3; 4]) Z.even) [2; 4]
         (FilterIter.mk (rusty.iter []) Z.even).
Proof.
  assert (Hy : yields (rusty.iter [1; 2; 3; 4]) [1; 2; 3; 4] (rusty.iter [])).
  { by_pulling 5%nat. }
  exact (filter_yields_accepted_items Z.even [1; 2; 3; 4] _ _ Hy).
Defined.

Lemma filter_map_yields_given_values_witness :
  yields (IterBase.filter_map (rusty.iter [1; 2; 3; 4])
            (fun x => if Z.even x then Some (x * 10) else None))
         [20; 40]
         (FilterMapIter.mk (rusty.iter [])
            (fun x => if Z.even x then Some (x * 10) else None)).
Proof.
  assert (Hy : yields (rusty.iter [1; 2; 3; 4]) [1; 2; 3; 4] (rusty.iter [])).
  { by_pulling 5%nat. }
  exact (filter_map_yields_given_values
           (fun x => if Z.even x then Some (x * 10) else None) [1; 2; 3; 4] _ _ Hy).
Defined.

Lemma skip_while_drops_leading_items_witness :
  yields (IterBase.skip_while (rusty.iter [1; 2; 5; 1]) (fun x => x <? 3)) [5; 1]
         (SkipWhileIter.mk (rusty.iter []) (fun x => x <? 3) true).
Proof.
  assert (Hy : yields (rusty.iter [1; 2; 5; 1]) [1; 2; 5; 1] (rusty.iter [])).
  { by_pulling 5%nat. }
  exact (skip_while_drops_leading_items (fun x => x <? 3) [1; 2; 5; 1] _ _ Hy).
Defined.

Lemma skip_drops_first_items_witness :
  exists t, yields (IterBase.skip (rusty.iter [1; 2; 3]) 2) [3] t /\
            SkipWhileIter._iter t = rusty.iter [].
Proof.
  assert (Hy : yields (rusty.iter [1; 2; 3]) [1; 2; 3] (rusty.iter [])).
  { by_pulling 4%nat. }
  exact (skip_drops_first_items 2 [1; 2; 3] _ _ Hy).
Defined.

Lemma take_while_yields_leading_items_witness :
  exists t,
    yields (IterBase.take_while (rusty.iter [1; 2; 5; 1]) (fun x => x <? 3)) [1; 2] t /\
    TakeWhileIter._done t = true /\
    pulls (rusty.iter [1; 2; 5; 1]) [Some 1; Some 2; Some 5] (TakeWhileIter._iter t).
Proof.
  assert (Hy : yields (rusty.iter [1; 2; 5; 1]) [1; 2; 5; 1] (rusty.iter [])).
  { by_pulling 5%nat. }
  exact (take_while_yields_leading_items (fun x => x <? 3) [1; 2; 5; 1] _ _ Hy).
Defined.

Lemma take_yields_first_items_witness :
  exists t,
    yields (IterBase.take (rusty.iter [1; 2; 3]) 0) [] t /\
    pulls (rusty.iter [1; 2; 3]) [Some 1] (TakeWhileIter._iter t).
Proof.
  assert (Hy : yields (rusty.iter [1; 2; 3]) [1; 2; 3] (rusty.iter [])).
  { by_pulling 4%nat. }
  exact (take_yields_first_items 0 [1; 2; 3] _ _ Hy).
Defined.

Lemma enumerate_pairs_items_with_positions_witness :
  exists out t,
    yields (IterBase.enumerate (rusty.iter [7; 8])) out t /\
    length out = 2%nat /\
    forall i x, nth_error [7; 8] i = Some x -> nth_error out i = Some (Z.of_nat i, x).
Proof.
  assert (Hy : yields (rusty.iter [7; 8]) [7; 8] (rusty.iter [])).
  { by_pulling 3%nat. }
  exact (enumerate_pairs_items_with_positions [7; 8] _ _ Hy).
Defined.


Lemma inspect_forwards_and_observes_witness :
  yields (IterBase.inspect (rusty.iter [1; 2; 3]) (@nil Z)) [1; 2; 3]
         (InspectIter.mk (rusty.iter []) [1; 2; 3]).
Proof.
  assert (Hy : yields (rusty.iter [1; 2; 3]) [1; 2; 3] (rusty.iter [])).
  { by_pulling 4%nat. }
  exact (inspect_forwards_and_observes [1; 2; 3] _ _ [] Hy).
Defined.

Lemma peek_shows_next_item_without_consuming_witness :
  exists p,
    PeekableIter.peek (IterBase.peekable (rusty.iter [1; 2])) ~~> (Some 1, p) /\
    PeekableIter.peek p ~~> (Some 1, p) /\
    yields p [1; 2] (PeekableIter.mk (rusty.iter []) None).
Proof.
  assert (Hy : yields (rusty.iter [1; 2]) [1; 2] (rusty.iter [])).
  { by_pulling 3%nat. }
  exact (proj2 (peek_shows_next_item_without_consuming 1 [2] _ _ Hy)).
Defined.



Lemma successors_yields_orbit_witness :
  exists t,
    yields (rusty.successors (Some 1) (fun x => if x <? 64 then Some (x * 2) else None))
           [1; 2; 4; 8; 16; 32; 64] t.
Proof.
  exact (proj1 (successors_yields_orbit
                  (fun x => if x <? 64 then Some (x * 2) else None) (Some 1) 8
                  eq_refl)).
Defined.

Lemma fold_and_reduce_accumulate_in_order_witness :
  IterBase.fold (rusty.iter [1; 2; 3]) 10 Z.sub ~~> (4, rusty.iter []) /\
  IterBase.reduce (rusty.iter [1; 2; 3]) Z.sub ~~> (Some (-4), rusty.iter []).
Proof.
  assert (Hy : yields (rusty.iter [1; 2; 3]) [1; 2; 3] (rusty.iter [])).
  { by_pulling 4%nat. }
  exact (fold_and_reduce_accumulate_in_order Z.sub Z.sub 10 [1; 2; 3] _ _ Hy).
Defined.

Lemma count_and_last_of_finite_sequence_witness :
  IterBase.count (rusty.iter [5; 6; 7]) ~~> (3, rusty.iter []) /\
  IterBase.last (rusty.iter [5; 6; 7]) ~~> (Some 7, rusty.iter []).
Proof.
  assert (Hy : yields (rusty.iter [5; 6; 7]) [5; 6; 7] (rusty.iter [])).
  { by_pulling 4%nat. }
  exact (count_and_last_of_finite_sequence [5; 6; 7] _ _ Hy).
Defined.


Lemma nth_returns_item_and_keeps_rest_witness :
  exists t,
    IterBase.nth (rusty.iter [5; 6; 7]) 1 ~~> (Some 6, t) /\
    yields t [7] (rusty.iter []).
Proof.
  assert (Hy : yields (rusty.iter [5; 6; 7]) [5; 6; 7] (rusty.iter [])).
  { by_pulling 4%nat. }
  destruct (nth_returns_item_and_keeps_rest 1 [5; 6; 7] _ _ Hy) as (t & Hr & Hin & _).
  exists t. split; [exact Hr|]. apply Hin. simpl. lia.
Defined.

Lemma all_and_any_stop_at_deciding_item_witness :
  (exists t,
     IterBase.all (rusty.iter [2; 4; 5; 6]) Z.even ~~> (false, t) /\
     yields t [6] (rusty.iter [])) /\
  (exists t,
     IterBase.any (rusty.iter [2; 4; 5; 6]) Z.odd ~~> (true, t) /\
     yields t [6] (rusty.iter [])).
Proof.
  assert (Hy : yields (rusty.iter [2; 4; 5; 6]) [2; 4; 5; 6] (rusty.iter [])).
  { by_pulling 5%nat. }
  split.
  - exact (proj1 (all_and_any_stop_at_deciding_item Z.even [2; 4; 5; 6] _ _ Hy)).
  - exact (proj2 (all_and_any_stop_at_deciding_item Z.odd [2; 4; 5; 6] _ _ Hy)).
Defined.

Lemma find_and_position_of_first_hit_witness :
  exists t,
    IterBase.find (rusty.iter [2; 4; 5; 6]) Z.odd ~~> (Some 5, t) /\
    IterBase.position (rusty.iter [2; 4; 5; 6]) Z.odd ~~> (Some 2, t) /\
    yields t [6] (rusty.iter []).
Proof.
  assert (Hy : yields (rusty.iter [2; 4; 5; 6]) [2; 4; 5; 6] (rusty.iter [])).
  { by_pulling 5%nat. }
  exact (find_and_position_of_first_hit Z.odd [2; 4; 5; 6] _ _ Hy).
Defined.

Lemma min_by_returns_first_minimum_witness :
  exists r,
    IterBase.min_by (rusty.iter [3; 1; 2; 1]) (fun a b => a - b) ~~> (r, rusty.iter []) /\
    IterBase.min (rusty.iter [3; 1; 2; 1]) ~~> (r, rusty.iter []) /\
    match r with
    | None => [3; 1; 2; 1] = []
    | Some m =>
        exists l1 l2, [3; 1; 2; 1] = l1 ++ m :: l2 /\
          (forall x, In x l1 -> m < x) /\
          (forall x, In x l2 -> m <= x)
    end.
Proof.
  assert (Hy : yields (rusty.iter [3; 1; 2; 1]) [3; 1; 2; 1] (rusty.iter [])).
  { by_pulling 5%nat. }
  assert (Hc : forall a b : Z, a - b < 0 <-> a < b) by (intros a b; lia).
  assert (Hl : forall a b : Z, less a b = true <-> a < b) by (intros a b; apply Z.ltb_lt).
  exact (@min_by_returns_first_minimum (CppIteratorWrapper.t Z) Z _ _ int_ItemType
           (fun a => a) (fun a b => a - b) [3; 1; 2; 1] _ _ Hc Hl Hy).
Defined.

Lemma max_by_returns_first_maximum_witness :
  exists r,
    IterBase.max_by (rusty.iter [3; 1; 3; 2]) (fun a b => a - b) ~~> (r, rusty.iter []) /\
    IterBase.max (rusty.iter [3; 1; 3; 2]) ~~> (r, rusty.iter []) /\
    match r with
    | None => [3; 1; 3; 2] = []
    | Some m =>
        exists l1 l2, [3; 1; 3; 2] = l1 ++ m :: l2 /\
          (forall x, In x l1 -> x < m) /\
          (forall x, In x l2 -> x <= m)
    end.
Proof.
  assert (Hy : yields (rusty.iter [3; 1; 3; 2]) [3; 1; 3; 2] (rusty.iter [])).
  { by_pulling 5%nat. }
  assert (Hc : forall a b : Z, a - b > 0 <-> a > b) by (intros a b; lia).
  assert (Hl : forall a b : Z, less a b = true <-> a < b) by (intros a b; apply Z.ltb_lt).
  assert (Hg : forall a b : Z, greater a b = true <-> a > b).
  { intros a b. cbn. rewrite Z.gtb_ltb, Z.ltb_lt. lia. }
  exact (@max_by_returns_first_maximum (CppIteratorWrapper.t Z) Z _ _ int_ItemType
           (fun a => a) (fun a b => a - b) [3; 1; 3; 2] _ _ Hc Hl Hg Hy).
Defined.

Lemma is_sorted_checks_neighbours_witness :
  exists t,
    IterBase.is_sorted_by (rusty.iter [1; 2; 2; 5]) (fun a b => a - b) ~~> (true, t) /\
    (true = true -> t = rusty.iter []).
Proof.
  assert (Hy : yields (rusty.iter [1; 2; 2; 5]) [1; 2; 2; 5] (rusty.iter [])).
  { by_pulling 5%nat. }
  exact (proj1 (is_sorted_checks_neighbours (fun a b => a - b) [1; 2; 2; 5] _ _ Hy)).
Defined.

Lemma eq_holds_for_equal_item_lists_witness :
  exists b t,
    IterBase.eq (rusty.iter [1; 2]) (rusty.range 1 3) ~~> (b, t) /\
    IterBase.ne (rusty.iter [1; 2]) (rusty.range 1 3) ~~> (negb b, t) /\
    (b = true <-> [1; 2] = [1; 2]).
Proof.
  assert (Ha : yields (rusty.iter [1; 2]) [1; 2] (rusty.iter [])).
  { by_pulling 3%nat. }
  assert (Hb : yields (rusty.range 1 3) [1; 2]
                 (FiniteGeneratorIter.mk (FiniteRangeGenerator.mk false 3 3 1) true)).
  { by_pulling 3%nat. }
  assert (He : forall a b : Z, equal a b = true <-> a = b) by (intros a b; apply Z.eqb_eq).
  exact (proj2 (@eq_holds_for_equal_item_lists
                  (CppIteratorWrapper.t Z)
                  (FiniteGeneratorIter.t (FiniteRangeGenerator.t false)) Z
                  _ _ _ _ int_ItemType Z.eqb [1; 2] [1; 2] _ _ _ _ He Ha Hb)).
Defined.

Lemma order_tests_follow_partial_cmp_witness :
  exists t,
    IterBase.lt (rusty.iter [1; 2]) (rusty.iter [1; 3]) ~~> (true, t) /\
    IterBase.le (rusty.iter [1; 2]) (rusty.iter [1; 3]) ~~> (true, t) /\
    IterBase.gt (rusty.iter [1; 2]) (rusty.iter [1; 3]) ~~> (false, t) /\
    IterBase.ge (rusty.iter [1; 2]) (rusty.iter [1; 3]) ~~> (false, t).
Proof.
  assert (Ha : yields (rusty.iter [1; 2]) [1; 2] (rusty.iter [])).
  { by_pulling 3%nat. }
  assert (Hb : yields (rusty.iter [1; 3]) [1; 3] (rusty.iter [])).
  { by_pulling 3%nat. }
  exact (@order_tests_follow_partial_cmp
           (CppIteratorWrapper.t Z) (CppIteratorWrapper.t Z) Z
           _ _ _ _ int_ItemType [1; 2] [1; 3] _ _ _ _ Ha Hb).
Defined.

Lemma partition_puts_rejected_items_first_witness :
  IterBase.partition (rusty.iter [1; 2; 3; 4]) Z.even
    ~~> (([1; 3], [2; 4]), rusty.iter []).
Proof.
  assert (Hy : yields (rusty.iter [1; 2; 3; 4]) [1; 2; 3; 4] (rusty.iter [])).
  { by_pulling 5%nat. }
  exact (partition_puts_rejected_items_first Z.even [1; 2; 3; 4] _ _ Hy).
Defined.

Lemma range_for_visits_what_for_each_visits_witness :
  IterBase.for_each (rusty.iter [1; 2; 3]) [] ~~> ([1; 2; 3], rusty.iter []) /\
  CppIterator.range_for (rusty.iter [1; 2; 3]) [] ~~> Some ([1; 2; 3], rusty.iter []).
Proof.
  assert (Hy : yields (rusty.iter [1; 2; 3]) [1; 2; 3] (rusty.iter [])).
  { by_pulling 4%nat. }
  exact (range_for_visits_what_for_each_visits [1; 2; 3] _ _ [] Hy).
Defined.
